(** * DiFacto: sparse kernels (common/spmm.h) and the training driver (difacto.cc)

    A shallow embedding of [SpMM::Times], [SpMM::TransTimes] and of the
    orchestration code of [DiFacto], with the properties the design
    document states about them. *)

From stdpp Require Import base option list sets strings.
From Stdlib Require Import ZArith Lia.

Local Open Scope Z_scope.

(** ** Scalars

    [SpMM] is a template over the value type [V].  The kernels only use
    [0], [+=], [*] and the test [p != 0]; the unit weight of a matrix
    without a value array is [one]. *)

Class Scalar (V : Type) := {
  zero : V;
  one : V;
  add : V → V → V;
  mul : V → V → V;
  is_zero : V → bool
}.

(** Exact arithmetic: the laws of a commutative semiring, as far as the
    kernels need them. *)
Class ExactScalar (V : Type) `{Scalar V} : Prop := {
  add_comm : ∀ a b : V, add a b = add b a;
  add_assoc : ∀ a b c : V, add a (add b c) = add (add a b) c;
  add_zero_l : ∀ a : V, add zero a = a;
  mul_comm : ∀ a b : V, mul a b = mul b a;
  mul_one_l : ∀ a : V, mul one a = a;
  mul_zero_l : ∀ a : V, mul zero a = zero;
  is_zero_spec : ∀ a : V, is_zero a = true ↔ a = zero
}.

#[export] Instance Z_scalar : Scalar Z :=
  {| zero := 0; one := 1; add := Z.add; mul := Z.mul; is_zero := Z.eqb 0 |}.

(** ** Machine integers *)

(** [unsigned] arithmetic, 32 bits. *)
Definition wrap32 (z : Z) : Z := z mod 2 ^ 32.

(** Conversion of an [int] to [size_t], 64 bits. *)
Definition to_size_t (z : Z) : Z := z mod 2 ^ 64.

(** [static_cast<int>] of a [size_t]. *)
Definition to_int (z : Z) : Z := (z + 2 ^ 31) mod 2 ^ 32 - 2 ^ 31.

(** ** Buffers

    A [std::vector] or an array behind a pointer is a list; an access
    outside of it is undefined behaviour and makes the computation fail
    ([None]). *)

Definition vget {A} (l : list A) (i : Z) : option A :=
  if 0 <=? i then l !! Z.to_nat i else None.

Definition vset {A} (l : list A) (i : Z) (a : A) : option (list A) :=
  if (0 <=? i) && (i <? Z.of_nat (length l))
  then Some (<[Z.to_nat i := a]> l) else None.

(** The half-open interval [lo, hi) of a [for] loop counting upwards. *)
Definition zrange (lo hi : Z) : list Z := seqZ lo (hi - lo).

(** A loop over [l] whose body may fail. *)
Fixpoint for_each {A S} (l : list A) (body : A → S → option S) (s : S)
  : option S :=
  match l with
  | [] => Some s
  | a :: l' => s' ← body a s; for_each l' body s'
  end.

(** [memset(y, 0, n * sizeof(V))]. *)
Definition memset0 {V} `{Scalar V} (y : list V) (n : Z) : option (list V) :=
  if (0 <=? n) && (n <=? Z.of_nat (length y))
  then Some (replicate (Z.to_nat n) zero ++ drop (Z.to_nat n) y)
  else None.

(** ** dmlc::RowBlock<unsigned>

    [size] rows; row [i] owns the entries [offset[i] .. offset[i+1]) of
    [index] and [value]; [value] may be a null pointer. *)
Module RowBlock.
Record t (V : Type) := Make {
  size : Z;
  offset : list Z;
  index : list Z;
  value : option (list V)
}.
Arguments Make {V} _ _ _ _.
Arguments size {V} _.
Arguments offset {V} _.
Arguments index {V} _.
Arguments value {V} _.
End RowBlock.

(** ** Range (common/range.h) *)
Module Range.
(** Modelled from the spec: range.h is not part of the sources.  A range
    is an interval [[begin, end)]; the kernels build [Range(0, n)] and
    read the fields [begin] and [end] of a segment. *)
Record t := Make { begin : Z; end_ : Z }.

(** Modelled from the spec: "[Has(i)] is true iff [i] lies in the
    segment." *)
Definition Has (r : t) (i : Z) : bool := (begin r <=? i) && (i <? end_ r).
End Range.

(** Modelled from the spec: [Range::Segment] is declared in range.h, which
    is not part of the sources.  "[Segment(threadId, threadCount)] on an
    interval [[begin,end)] returns the sub-interval owned by [threadId]
    such that the union of all [threadCount] segments exactly covers
    [[begin,end)] with no overlap".  The kernels take the function as a
    parameter; this is its contract on the intervals [[0, n)] they use. *)
Record SegmentContract (Segment : Range.t → Z → Z → Range.t) : Prop := {
  seg_inside : ∀ n t nt i, 0 ≤ t < nt →
    Range.Has (Segment (Range.Make 0 n) t nt) i = true → 0 ≤ i < n;
  seg_cover : ∀ n nt i, 0 < nt → 0 ≤ i < n →
    ∃ t, 0 ≤ t < nt ∧ Range.Has (Segment (Range.Make 0 n) t nt) i = true;
  seg_disjoint : ∀ n t t' nt i, 0 ≤ t < nt → 0 ≤ t' < nt →
    Range.Has (Segment (Range.Make 0 n) t nt) i = true →
    Range.Has (Segment (Range.Make 0 n) t' nt) i = true → t = t'
}.

(** One segmentation that meets the contract, for the examples: thread
    [t] of [nt] owns [[n*t/nt, n*(t+1)/nt)]. *)
Definition even_split (r : Range.t) (t nt : Z) : Range.t :=
  let len := Range.end_ r - Range.begin r in
  Range.Make (Range.begin r + len * t / nt)
             (Range.begin r + len * (t + 1) / nt).

(** ** SpMM

    The functions return the content of the output vector after the
    call, [None] when the call has undefined behaviour (an access out of
    a buffer, a division by zero).  A parallel region
    [#pragma omp parallel num_threads(nt)] is run thread after thread,
    in the order of the thread numbers: thread [t] of the team of [nt]
    takes the segment [Segment(t, nt)]. *)
Section SpMM.
Context {V : Type} `{Scalar V}.
Variable Segment : Range.t → Z → Z → Range.t.

(** [for (int k = 0; k < dim; ++k) dst[k] += src[k] * v;] and, when the
    matrix has no values ([v = None]), [dst[k] += src[k];]. *)
Definition axpy (src : list V) (sb : Z) (v : option V) (db dim : Z)
    (dst : list V) : option (list V) :=
  for_each (zrange 0 dim) (λ k dst,
    d ← vget dst (db + k);
    s ← vget src (sb + k);
    vset dst (db + k)
      (add d (match v with Some v => mul s v | None => s end))) dst.

(** One row of [y = D * x] (the body of the loop over [i]). *)
Definition Times_row (D : RowBlock.t V) (x : list V) (dim i : Z) (y : list V)
  : option (list V) :=
  o0 ← vget (RowBlock.offset D) i;
  o1 ← vget (RowBlock.offset D) (i + 1);
  if o0 =? o1 then Some y
  else
    let y_i := i * dim in
    match RowBlock.value D with
    | Some vals =>
        for_each (zrange o0 o1) (λ j y,
          e ← vget (RowBlock.index D) j;
          let x_j := wrap32 (e * dim) in
          v ← vget vals j;
          axpy x x_j (Some v) y_i dim y) y
    | None =>
        for_each (zrange o0 o1) (λ j y,
          e ← vget (RowBlock.index D) j;
          let x_j := wrap32 (e * dim) in
          axpy x x_j None y_i dim y) y
    end.

(** The private [Times]: zero the output, then every thread of the team
    of [nt] processes the rows of its segment. *)
Definition Times_kernel (D : RowBlock.t V) (x y : list V) (dim nt : Z)
  : option (list V) :=
  y ← memset0 y (RowBlock.size D * dim);
  for_each (zrange 0 nt) (λ t y,
    let rg := Segment (Range.Make 0 (RowBlock.size D)) t nt in
    for_each (zrange (Range.begin rg) (Range.end_ rg))
      (Times_row D x dim) y) y.

(** The public [Times].  [y] is the vector behind the output pointer,
    which is taken to be non-null ([CHECK_NOTNULL(y)] passes). *)
Definition Times (D : RowBlock.t V) (x y : list V) (nt : Z) : option (list V) :=
  if (length x =? 0)%nat then Some y
  else if RowBlock.size D =? 0 then None
  else
    let dim := to_int (Z.of_nat (length y) / RowBlock.size D) in
    Times_kernel D x y dim nt.

(** One row of [y = D' * x] as seen by the thread that owns [rg]. *)
Definition TransTimes_row (D : RowBlock.t V) (x : list V) (dim : Z)
    (rg : Range.t) (i : Z) (y : list V) : option (list V) :=
  o0 ← vget (RowBlock.offset D) i;
  o1 ← vget (RowBlock.offset D) (i + 1);
  if o0 =? o1 then Some y
  else
    let x_i := i * dim in
    match RowBlock.value D with
    | Some vals =>
        for_each (zrange o0 o1) (λ j y,
          e ← vget (RowBlock.index D) j;
          if Range.Has rg e then
            v ← vget vals j;
            let y_j := wrap32 (e * dim) in
            axpy x x_i (Some v) y_j dim y
          else Some y) y
    | None =>
        for_each (zrange o0 o1) (λ j y,
          e ← vget (RowBlock.index D) j;
          if Range.Has rg e then
            let y_j := wrap32 (e * dim) in
            axpy x x_i None y_j dim y
          else Some y) y
    end.

(** [for (size_t i = 0; i < y_size; ++i) y[i] = z[i] * p;] *)
Definition bias_fill (z : list V) (p : V) (y : list V) (y_size : Z)
  : option (list V) :=
  for_each (zrange 0 y_size) (λ i y,
    zi ← vget z i; vset y i (mul zi p)) y.

(** The private [TransTimes]; [z = None] is the null pointer.  Every
    thread scans all the rows and adds the entries whose column lies in
    its segment of [[0, y_size / dim)]. *)
Definition TransTimes_kernel (D : RowBlock.t V) (x : list V) (z : option (list V))
    (p : V) (y : list V) (y_size dim nt : Z) : option (list V) :=
  y ← match z with
      | Some z => bias_fill z p y y_size
      | None => memset0 y y_size
      end;
  if to_size_t dim =? 0 then None
  else
    for_each (zrange 0 nt) (λ t y,
      let rg := Segment (Range.Make 0 (y_size / to_size_t dim)) t nt in
      for_each (zrange 0 (RowBlock.size D))
        (TransTimes_row D x dim rg) y) y.

(** The public biased form, [y = D' * x + p * z]; [z.data()] is passed
    only when [z] has the size of [y] and [p != 0]. *)
Definition TransTimes_bias (D : RowBlock.t V) (x : list V) (p : V) (z y : list V)
    (nt : Z) : option (list V) :=
  if (length x =? 0)%nat then Some y
  else if RowBlock.size D =? 0 then None
  else
    let dim := to_int (Z.of_nat (length x) / RowBlock.size D) in
    let y_size := Z.of_nat (length y) in
    if (length z =? length y)%nat && negb (is_zero p)
    then TransTimes_kernel D x (Some z) p y y_size dim nt
    else TransTimes_kernel D x None zero y y_size dim nt.

(** The public [TransTimes], [y = D' * x]: the biased form with [p = 0]
    and an empty [z]. *)
Definition TransTimes (D : RowBlock.t V) (x y : list V) (nt : Z)
  : option (list V) :=
  TransTimes_bias D x zero [] y nt.

End SpMM.

(** ** Reading a matrix and a vector as total functions

    Used to state results; inside the buffers they agree with the
    accesses of the code. *)
Section Reading.
Context {V : Type} `{Scalar V}.

Definition vat (l : list V) (i : Z) : V := default zero (vget l i).

Definition offset_at (D : RowBlock.t V) (i : Z) : Z :=
  default 0 (vget (RowBlock.offset D) i).
Definition row_begin (D : RowBlock.t V) (i : Z) : Z := offset_at D i.
Definition row_end (D : RowBlock.t V) (i : Z) : Z := offset_at D (i + 1).
Definition col (D : RowBlock.t V) (j : Z) : Z :=
  default 0 (vget (RowBlock.index D) j).

(** The value of the [j]-th stored entry; [1] when there is no value
    array. *)
Definition weight (D : RowBlock.t V) (j : Z) : V :=
  match RowBlock.value D with
  | Some vals => vat vals j
  | None => one
  end.

(** What one entry adds to an accumulator, the way the code computes
    it: [s * v], or [s] alone when there is no value array. *)
Definition contrib (D : RowBlock.t V) (j : Z) (s : V) : V :=
  match RowBlock.value D with
  | Some vals => mul s (vat vals j)
  | None => s
  end.

(** [Σ_{j ∈ l} f j]. *)
Definition sum_over (l : list Z) (f : Z → V) : V :=
  foldr (λ j s, add (f j) s) zero l.

(** Entry [(i, k)] of [D * x]. *)
Definition Dx (D : RowBlock.t V) (x : list V) (dim i k : Z) : V :=
  sum_over (zrange (row_begin D i) (row_end D i))
    (λ j, mul (weight D j) (vat x (col D j * dim + k))).

(** Entry [(e, k)] of [D' * x]. *)
Definition DTx (D : RowBlock.t V) (x : list V) (dim e k : Z) : V :=
  sum_over (zrange 0 (RowBlock.size D)) (λ i,
    sum_over (zrange (row_begin D i) (row_end D i)) (λ j,
      if col D j =? e then mul (weight D j) (vat x (i * dim + k))
      else zero)).

(** A row-compressed matrix with [m] columns: monotonic offsets, index
    and value arrays of length [offset[size]], column ids below [m]. *)
Record wf_matrix (D : RowBlock.t V) (m : Z) : Prop := {
  wf_size : 0 ≤ RowBlock.size D;
  wf_offset_length :
    Z.of_nat (length (RowBlock.offset D)) = RowBlock.size D + 1;
  wf_offset_mono : ∀ i, 0 ≤ i < RowBlock.size D →
    0 ≤ row_begin D i ≤ row_end D i;
  wf_index_length :
    Z.of_nat (length (RowBlock.index D)) =
    offset_at D (RowBlock.size D);
  wf_value_length : ∀ vals, RowBlock.value D = Some vals →
    length vals = length (RowBlock.index D);
  wf_index_range : ∀ j, 0 ≤ j < Z.of_nat (length (RowBlock.index D)) →
    0 ≤ col D j < m
}.

(** [op] rewrites a buffer of length [L] in place: it succeeds, keeps
    the length, and the new content of position [q] is [g q] of the old
    one. *)
Definition Updates (L : nat) (op : list V → option (list V))
    (g : Z → V → V) : Prop :=
  ∀ y, length y = L →
    ∃ y', op y = Some y' ∧ length y' = L ∧
          ∀ q v, vget y q = Some v → vget y' q = Some (g q v).
End Reading.

(** ** What the loops add to one position of the output

    Used to state what the kernels compute before any law of arithmetic
    is assumed. *)
Section Accumulators.
Context {V : Type} `{Scalar V}.
Variable Segment : Range.t → Z → Z → Range.t.
Implicit Types (D : RowBlock.t V) (x y : list V).

(** What [Times_row] adds to position [q]. *)
Definition Times_row_acc D x (dim i q : Z) (acc : V) : V :=
  fold_left (λ acc j,
    fold_left (λ acc k,
      if q =? i * dim + k
      then add acc (contrib D j (vat x (col D j * dim + k)))
      else acc) (zrange 0 dim) acc)
    (zrange (row_begin D i) (row_end D i)) acc.

(** The sum of row [i] for column [k], accumulated in storage order
    from [acc]. *)
Definition row_acc D x (dim i k : Z) (acc : V) : V :=
  fold_left (λ acc j, add acc (contrib D j (vat x (col D j * dim + k))))
    (zrange (row_begin D i) (row_end D i)) acc.

(** What the parallel region of [Times] adds to position [q]. *)
Definition Times_team_acc D x (dim nt q : Z) (acc : V) : V :=
  fold_left (λ acc t,
    let rg := Segment (Range.Make 0 (RowBlock.size D)) t nt in
    fold_left (λ acc i, Times_row_acc D x dim i q acc)
      (zrange (Range.begin rg) (Range.end_ rg)) acc)
    (zrange 0 nt) acc.

(** What [TransTimes_row] adds to position [q] for the owner of [rg]. *)
Definition TransTimes_row_acc D x (dim : Z) (rg : Range.t) (i q : Z)
    (acc : V) : V :=
  fold_left (λ acc j,
    if Range.Has rg (col D j) then
      fold_left (λ acc k,
        if q =? col D j * dim + k
        then add acc (contrib D j (vat x (i * dim + k)))
        else acc) (zrange 0 dim) acc
    else acc)
    (zrange (row_begin D i) (row_end D i)) acc.

(** What the parallel region of [TransTimes] adds to position [q];
    [m'] is [y_size / dim]. *)
Definition TransTimes_team_acc D x (dim m' nt q : Z) (acc : V) : V :=
  fold_left (λ acc t,
    let rg := Segment (Range.Make 0 m') t nt in
    fold_left (λ acc i, TransTimes_row_acc D x dim rg i q acc)
      (zrange 0 (RowBlock.size D)) acc)
    (zrange 0 nt) acc.

(** The sum of column [e] for [k], accumulated in storage order from
    [acc]. *)
Definition col_acc D x (dim e k : Z) (acc : V) : V :=
  fold_left (λ acc i,
    fold_left (λ acc j,
      if col D j =? e
      then add acc (contrib D j (vat x (i * dim + k)))
      else acc) (zrange (row_begin D i) (row_end D i)) acc)
    (zrange 0 (RowBlock.size D)) acc.

(** The initial content of the output of [TransTimes_kernel]. *)
Definition initial_fill (z : option (list V)) (p : V) (q : Z) : V :=
  match z with
  | Some z => mul (vat z q) p
  | None => zero
  end.

(** The branch of [TransTimes_bias] after the guards. *)
Definition bias_applied (p : V) (z y : list V) : bool :=
  (length z =? length y)%nat && negb (is_zero p).

End Accumulators.

(** ** The scenario matrix of the design document

    3 rows, 2 columns: row 0 = [(col 0, 1)], row 1 = [(col 0, 2),
    (col 1, 3)], row 2 empty. *)
Definition D32 : RowBlock.t Z :=
  RowBlock.Make 3 [0; 1; 3; 3] [0; 0; 1] (Some [1; 2; 3]).

(** A matrix with one empty row and no column. *)
Definition D10 : RowBlock.t Z := RowBlock.Make 1 [0; 0] [] (Some []).

(** A matrix with no row and one column. *)
Definition D01 : RowBlock.t Z := RowBlock.Make 0 [0] [] (Some []).

(** One row with a single entry in column [2^31], and a vector of
    [2^31 + 1] blocks of width 2 that is zero but for its first block. *)
Definition Dwide : RowBlock.t Z :=
  RowBlock.Make 1 [0; 1] [2 ^ 31] (Some [1]).

Definition xwide : list Z := 1 :: 1 :: replicate (Z.to_nat (2 ^ 32)) 0.

(** ** Claims as the design document states them *)

(** "For every row-compressed matrix [D] and every [x] of shape
    [m × dim] with [y] of shape [n × dim], [Times] sets
    [y[i*dim+k] = Σ_j value[j] * x[index[j]*dim+k]]." *)
Definition Times_as_stated {V} `{Scalar V} Segment (D : RowBlock.t V)
    (x y : list V) (m dim nt : Z) : Prop :=
  wf_matrix D m → 0 < nt →
  Z.of_nat (length x) = m * dim →
  Z.of_nat (length y) = RowBlock.size D * dim →
  ∃ r, Times Segment D x y nt = Some r ∧
       ∀ i k, 0 ≤ i < RowBlock.size D → 0 ≤ k < dim →
         vget r (i * dim + k) = Some (Dx D x dim i k).

(** "For every [D], [x] of shape [n × dim], [p] and [z], the biased
    [TransTimes] computes [y = D' x + p z]." *)
Definition TransTimes_as_stated {V} `{Scalar V} Segment (D : RowBlock.t V)
    (x : list V) (p : V) (z y : list V) (m dim nt : Z) : Prop :=
  wf_matrix D m → 0 < nt →
  Z.of_nat (length x) = RowBlock.size D * dim →
  Z.of_nat (length y) = m * dim → length z = length y →
  ∃ r, TransTimes_bias Segment D x p z y nt = Some r ∧
       ∀ e k, 0 ≤ e < m → 0 ≤ k < dim →
         vget r (e * dim + k) =
         Some (add (DTx D x dim e k) (mul p (vat z (e * dim + k)))).

(** "The bias [y = z*p] is applied iff [z.size() == y->size()] and
    [p != 0]; otherwise [y] is zero-initialized and the result is the
    plain product." *)
Definition bias_rule_as_stated {V} `{Scalar V} Segment (D : RowBlock.t V)
    (x : list V) (p : V) (z y : list V) (m dim nt : Z) : Prop :=
  wf_matrix D m → 0 < nt →
  Z.of_nat (length x) = RowBlock.size D * dim →
  Z.of_nat (length y) = m * dim →
  ∃ r, TransTimes_bias Segment D x p z y nt = Some r ∧
       (length z = length y ∧ p ≠ zero →
        ∀ e k, 0 ≤ e < m → 0 ≤ k < dim →
          vget r (e * dim + k) =
          Some (add (mul (vat z (e * dim + k)) p) (DTx D x dim e k))) ∧
       (¬ (length z = length y ∧ p ≠ zero) →
        ∀ e k, 0 ≤ e < m → 0 ≤ k < dim →
          vget r (e * dim + k) = Some (DTx D x dim e k)).

(** ** Jobs (difacto.h) *)
Module Job.
(** Modelled from the spec: the job types are declared in difacto.h,
    which is not part of the sources.  "[type ∈ {LoadModel, SaveModel,
    Training, Validation, Prediction}], [epoch], [filename],
    [part_idx], [num_parts]". *)
Inductive type := kLoadModel | kSaveModel | kTraining | kValidation
                | kPrediction.

Record t := Make {
  type_ : type;
  epoch : Z;
  filename : string;
  part_idx : Z;
  num_parts : Z
}.

Definition type_eqb (a b : type) : bool :=
  match a, b with
  | kLoadModel, kLoadModel | kSaveModel, kSaveModel
  | kTraining, kTraining | kValidation, kValidation
  | kPrediction, kPrediction => true
  | _, _ => false
  end.
End Job.

(** ** Tracker (common/tracker.h) *)
Module Tracker.
(** Modelled from the spec: common/tracker.h is not part of the sources.
    The tracker keeps the count of the units that were added and have not
    completed.  "[Add(items)]: enqueues items; for each, increments
    outstanding count, then (synchronously, in submission order) invokes
    the consumer"; "the [complete()] closure passed to the consumer
    decrements outstanding count exactly once"; "[NumRemains()]: returns
    current outstanding count". *)
Definition t := Z.

Definition empty : t := 0.
Definition NumRemains (tracker : t) : Z := tracker.
Definition Add_one (tracker : t) : t := tracker + 1.
Definition complete (tracker : t) : t := tracker - 1.
End Tracker.

(** ** DiFacto::ProcessFile

    One thread runs [ProcessFile]; the store completes the operations it
    was given at times of its own choosing and then runs their
    callbacks.  The state below is what the two sides share; an
    execution is a sequence of atomic steps of either side. *)
Module ProcessFile.

(** What happens, batch by batch; batch [b] is the [b]-th one the
    reader returns. *)
Inductive Event :=
| Compact (b : nat) (with_counts : bool)
| PushFeaCount (b : nat)
| FeaCountDone (b : nat)
| WaitReturned (b : nat)
| TrackerAdd (b : nat)
| PullWeight (b : nat)
| WeightPulled (b : nat)
| Evaluate (b : nat)
| CalcGrad (b : nat)
| Predict (b : nat)
| PushGradient (b : nat)
| GradientDone (b : nat)
| Complete (b : nat)
| Return.

(** Where the thread of [ProcessFile] stands: at [reader.Next()], inside
    [store_->Wait], at the test of the throttling loop, at
    [tracker.Add], at the test of the draining loop, or after the
    return. *)
Inductive PC :=
| Reading
| Waiting (b : nat)
| Throttle (b : nat)
| Adding (b : nat)
| Draining
| Returned.

(** Modelled from the spec: the store is not part of the sources.
    "[Push]/[Pull]: asynchronously [...]; invokes [onDone] when [...]";
    "[Wait(handle)]: blocks the calling thread until the operation
    identified by [handle] has completed".  The store is the three lists
    of the operations in flight, each named by its batch: the pushes of
    the feature counts, the pulls of the weights and the pushes of the
    gradients.  [trace] has the newest event first. *)
Record State := MkState {
  pc : PC;
  next_batch : nat;
  tracker : Tracker.t;
  count_pushes : list nat;
  pulls : list nat;
  grad_pushes : list nat;
  trace : list Event
}.

Definition init : State := MkState Reading 0 Tracker.empty [] [] [] [].

(** Who moves: the thread of [ProcessFile], or the store, which
    completes the push of the counts, the pull or the push of the
    gradient of a batch. *)
Inductive Action :=
| Main
| StoreCount (b : nat)
| StorePull (b : nat)
| StoreGrad (b : nat).

(** Removes one occurrence of [b]; [None] when there is none. *)
Fixpoint take_out (b : nat) (l : list nat) : option (list nat) :=
  match l with
  | [] => None
  | a :: l' =>
      if (a =? b)%nat then Some l'
      else l'' ← take_out b l'; Some (a :: l'')
  end.

(** [batch.type == Job::kTraining], with [batch.type = job.type]. *)
Definition is_training (job : Job.t) : bool :=
  Job.type_eqb (Job.type_ job) Job.kTraining.

(** [bool push_cnt = job.type == Job::kTraining && job.epoch == 0;] *)
Definition push_cnt (job : Job.t) : bool :=
  Job.type_eqb (Job.type_ job) Job.kTraining && (Job.epoch job =? 0).

(** One step of the thread of [ProcessFile]; the reader returns
    [n] batches.  [None]: the thread cannot move (it is blocked in
    [Wait], or it has returned).  [tracker.Add({batch})] counts the
    batch and calls the consumer, which issues the pull of the
    weights. *)
Definition main_step (job : Job.t) (n : nat) (s : State) : option State :=
  match pc s with
  | Reading =>
      if (next_batch s <? n)%nat then
        let b := next_batch s in
        if push_cnt job then
          Some (MkState (Waiting b) (S b) (tracker s)
                  (b :: count_pushes s) (pulls s) (grad_pushes s)
                  (PushFeaCount b :: Compact b true :: trace s))
        else
          Some (MkState (Throttle b) (S b) (tracker s)
                  (count_pushes s) (pulls s) (grad_pushes s)
                  (Compact b false :: trace s))
      else
        Some (MkState Draining (next_batch s) (tracker s)
                (count_pushes s) (pulls s) (grad_pushes s) (trace s))
  | Waiting b =>
      if bool_decide (b ∈ count_pushes s) then None
      else
        Some (MkState (Throttle b) (next_batch s) (tracker s)
                (count_pushes s) (pulls s) (grad_pushes s)
                (WaitReturned b :: trace s))
  | Throttle b =>
      if 10 <? Tracker.NumRemains (tracker s) then Some s
      else
        Some (MkState (Adding b) (next_batch s) (tracker s)
                (count_pushes s) (pulls s) (grad_pushes s) (trace s))
  | Adding b =>
      Some (MkState Reading (next_batch s) (Tracker.Add_one (tracker s))
              (count_pushes s) (b :: pulls s) (grad_pushes s)
              (PullWeight b :: TrackerAdd b :: trace s))
  | Draining =>
      if 0 <? Tracker.NumRemains (tracker s) then Some s
      else
        Some (MkState Returned (next_batch s) (tracker s)
                (count_pushes s) (pulls s) (grad_pushes s)
                (Return :: trace s))
  | Returned => None
  end.

(** One step of the store: it completes an operation in flight and
    runs its callback.  The callback of the pull is [pull_callback]:
    for a training batch it pushes the gradient and hands
    [on_complete] to that push; otherwise it calls [on_complete]
    itself. *)
Definition store_step (job : Job.t) (a : Action) (s : State)
  : option State :=
  match a with
  | Main => None
  | StoreCount b =>
      cp ← take_out b (count_pushes s);
      Some (MkState (pc s) (next_batch s) (tracker s)
              cp (pulls s) (grad_pushes s)
              (FeaCountDone b :: trace s))
  | StorePull b =>
      pl ← take_out b (pulls s);
      if Job.type_eqb (Job.type_ job) Job.kTraining then
        Some (MkState (pc s) (next_batch s) (tracker s)
                (count_pushes s) pl (b :: grad_pushes s)
                (PushGradient b :: CalcGrad b :: Evaluate b
                   :: WeightPulled b :: trace s))
      else if Job.type_eqb (Job.type_ job) Job.kPrediction then
        Some (MkState (pc s) (next_batch s) (Tracker.complete (tracker s))
                (count_pushes s) pl (grad_pushes s)
                (Complete b :: Predict b :: Evaluate b
                   :: WeightPulled b :: trace s))
      else
        Some (MkState (pc s) (next_batch s) (Tracker.complete (tracker s))
                (count_pushes s) pl (grad_pushes s)
                (Complete b :: Evaluate b :: WeightPulled b :: trace s))
  | StoreGrad b =>
      gp ← take_out b (grad_pushes s);
      Some (MkState (pc s) (next_batch s) (Tracker.complete (tracker s))
              (count_pushes s) (pulls s) gp
              (Complete b :: GradientDone b :: trace s))
  end.

Definition step (job : Job.t) (n : nat) (a : Action) (s : State)
  : option State :=
  match a with
  | Main => main_step job n s
  | _ => store_step job a s
  end.

(** The execution under a schedule; [None] when the schedule asks for a
    step that cannot be taken. *)
Definition run (job : Job.t) (n : nat) (sched : list Action) (s : State)
  : option State :=
  for_each sched (step job n) s.

(** [tracker.NumRemains()] *)
Definition remains (s : State) : Z := Tracker.NumRemains (tracker s).

(** Every [later] in a trace (newest event first) has an [earlier]
    before it. *)
Definition Before (earlier later : Event) (tr : list Event) : Prop :=
  ∀ pre post, tr = pre ++ later :: post → earlier ∈ post.

(** Every [later] in a trace comes right after an [earlier]. *)
Definition RightAfter (earlier later : Event) (tr : list Event) : Prop :=
  ∀ pre post, tr = pre ++ later :: post → ∃ post', post = earlier :: post'.

(** The batch the thread has read and not yet added. *)
Definition holding (p : PC) : option nat :=
  match p with
  | Waiting b | Throttle b | Adding b => Some b
  | _ => None
  end.

(** *** Invariants of the executions *)

(** The count of the tracker. *)
Record CountInv (s : State) : Prop := {
  inv_count :
    remains s = Z.of_nat (length (pulls s))
                + Z.of_nat (length (grad_pushes s));
  inv_adding : ∀ b, pc s = Adding b → remains s ≤ 10;
  inv_bound : remains s ≤ 11;
  inv_returned : pc s = Returned → remains s = 0
}.

(** Where the batches that were read are. *)
Record BatchInv (job : Job.t) (n : nat) (s : State) : Prop := {
  inv_next : (next_batch s ≤ n)%nat;
  inv_done : pc s = Draining ∨ pc s = Returned → next_batch s = n;
  inv_batches : ∀ b, (b < next_batch s)%nat →
    holding (pc s) = Some b ∨ b ∈ pulls s ∨ b ∈ grad_pushes s
    ∨ Complete b ∈ trace s;
  inv_complete : is_training job = true →
    ∀ b, RightAfter (GradientDone b) (Complete b) (trace s);
  inv_grad_pushed : ∀ b, b ∈ grad_pushes s → PushGradient b ∈ trace s;
  inv_order_grad : ∀ b,
    Before (PushGradient b) (GradientDone b) (trace s);
  inv_all_complete : ∀ b, (b < n)%nat →
    Before (Complete b) Return (trace s);
  inv_return_event : pc s = Returned → Return ∈ trace s
}.

(** What the state tells about the trace. *)
Record LinkInv (job : Job.t) (s : State) : Prop := {
  inv_compact : ∀ b c, Compact b c ∈ trace s → c = push_cnt job;
  inv_push_issued : ∀ b,
    Compact b true ∈ trace s → PushFeaCount b ∈ trace s;
  inv_cnt_pushed : ∀ b, b ∈ count_pushes s → PushFeaCount b ∈ trace s;
  inv_cnt_waiting : ∀ b, b ∈ count_pushes s → pc s = Waiting b;
  inv_waiting : ∀ b, pc s = Waiting b →
    push_cnt job = true ∧ Compact b true ∈ trace s ∧
    (b ∈ count_pushes s ∨ FeaCountDone b ∈ trace s);
  inv_in_hand : ∀ b, pc s = Throttle b ∨ pc s = Adding b →
    Compact b (push_cnt job) ∈ trace s ∧
    (push_cnt job = true → WaitReturned b ∈ trace s)
}.

(** The order of the events of a batch. *)
Record OrderInv (job : Job.t) (s : State) : Prop := {
  inv_order_push : ∀ b,
    RightAfter (Compact b true) (PushFeaCount b) (trace s);
  inv_order_count : ∀ b,
    Before (PushFeaCount b) (FeaCountDone b) (trace s);
  inv_order_wait : ∀ b,
    Before (FeaCountDone b) (WaitReturned b) (trace s);
  inv_order_add : push_cnt job = true →
    ∀ b, Before (WaitReturned b) (TrackerAdd b) (trace s);
  inv_order_compact : ∀ b,
    Before (Compact b (push_cnt job)) (TrackerAdd b) (trace s);
  inv_order_pull : ∀ b,
    RightAfter (TrackerAdd b) (PullWeight b) (trace s)
}.

End ProcessFile.

(** ** Two executions of [ProcessFile] *)

(** A training job of epoch 0 and a validation job. *)
Definition training0 : Job.t :=
  Job.Make Job.kTraining 0 "train.libsvm" 0 100.
Definition validation1 : Job.t :=
  Job.Make Job.kValidation 1 "val.libsvm" 0 100.

(** Two batches of the training job, up to the return. *)
Definition two_batches : list ProcessFile.Action :=
  [ ProcessFile.Main; ProcessFile.StoreCount 0; ProcessFile.Main;
    ProcessFile.Main; ProcessFile.Main;
    ProcessFile.Main; ProcessFile.StorePull 0; ProcessFile.StoreCount 1;
    ProcessFile.Main; ProcessFile.Main; ProcessFile.Main;
    ProcessFile.Main; ProcessFile.StorePull 1; ProcessFile.StoreGrad 1;
    ProcessFile.StoreGrad 0; ProcessFile.Main ].

Definition two_batches_end : ProcessFile.State :=
  Eval vm_compute in
    default ProcessFile.init
      (ProcessFile.run training0 2 two_batches ProcessFile.init).

(** Twelve batches of the validation job while the store completes
    nothing. *)
Definition twelve_batches : list ProcessFile.Action :=
  replicate 34 ProcessFile.Main.

Definition twelve_batches_end : ProcessFile.State :=
  Eval vm_compute in
    default ProcessFile.init
      (ProcessFile.run validation1 12 twelve_batches ProcessFile.init).

(** ** std::string *)

Fixpoint starts_with (pat s : string) : bool :=
  match pat, s with
  | EmptyString, _ => true
  | String a pat', String b s' =>
      if Ascii.eqb a b then starts_with pat' s' else false
  | String _ _, EmptyString => false
  end.

Fixpoint find_from (pat s : string) (pos : nat) : option nat :=
  if starts_with pat s then Some pos
  else match s with
       | EmptyString => None
       | String _ s' => find_from pat s' (S pos)
       end.

(** [s.find(pat)]; [None] is [std::string::npos]. *)
Definition find (pat s : string) : option nat := find_from pat s 0.

(** [s] contains [pat]. *)
Definition contains (pat s : string) : Prop :=
  ∃ pre post : string, s = String.append pre (String.append pat post).

(** ** DiFacto::Init and DiFacto::RunScheduler *)
Module DiFacto.

Definition KWArgs := list (string * string).

(** Modelled from the spec: [DiFactoParam] is declared in difacto.h,
    which is not part of the sources; these are the fields the driver
    reads. *)
Record DiFactoParam := MkParam {
  task : string;
  data_in : string;
  val_data : string;
  model_in : string;
  loss : string;
  max_num_epochs : Z
}.

(** What [Init] leaves behind: the parameters, [local_], the arguments
    nobody recognised and the lines logged at level WARNING. *)
Record Inited := MkInited {
  param_ : DiFactoParam;
  local_ : bool;
  remain : KWArgs;
  warnings : list string
}.

Section Init.
(** The collaborators, each of which consumes the arguments it knows
    and returns the others; [None] when the call does not return (it
    throws, or it ends the program on a fatal error).  The tracker and
    the store are created for the mode ("local" or "dist") and then
    initialised. *)
Variable InitAllowUnknown : KWArgs → option (DiFactoParam * KWArgs).
Variable tracker_Init : bool → KWArgs → option KWArgs.
Variable store_Init : bool → KWArgs → option KWArgs.
Variable loss_Init : string → KWArgs → option KWArgs.

(** [LOG(WARNING) << "  " << kw.first << " : " << kw.second;] *)
Definition warning_line (kw : string * string) : string :=
  String.append "  " (String.append kw.1 (String.append " : " kw.2)).

Definition Init (kwargs : KWArgs) : option Inited :=
  '(param, remain) ← InitAllowUnknown kwargs;
  let local := match find "dist_" (task param) with
               | None => true
               | Some _ => false
               end in
  remain ← tracker_Init local remain;
  remain ← store_Init local remain;
  remain ← loss_Init (loss param) remain;
  let log :=
    if local && negb (length remain =? 0)%nat
    then "unrecognized keyword argument:" :: map warning_line remain
    else [] in
  Some (MkInited param local remain log).
End Init.

(** What the scheduler thread does to the job tracker. *)
Inductive SchedEvent :=
| Add (jobs : list Job.t)
| WaitDrained
| EpochCallbacks.

Inductive Outcome :=
| Finished
| CheckFailed (what : string).

Section RunScheduler.
(** A default-constructed [Job]. *)
Variable fresh_job : Job.t.

(** The jobs of an epoch: one per part, [num_parts = 100]. *)
Definition epoch_jobs (job_type : Job.type) (epoch : Z)
    (filename : string) : list Job.t :=
  (λ i, Job.Make job_type epoch filename i 100) <$> seqZ 0 100.

Definition RunEpoch (param : DiFactoParam) (epoch : Z)
    (job_type : Job.type) : list SchedEvent :=
  let filename :=
    if Job.type_eqb job_type Job.kValidation
    then val_data param else data_in param in
  if (String.length filename =? 0)%nat then []
  else [Add (epoch_jobs job_type epoch filename); WaitDrained].

Definition load_job (param : DiFactoParam) : Job.t :=
  Job.Make Job.kLoadModel (Job.epoch fresh_job) (model_in param)
    (Job.part_idx fresh_job) (Job.num_parts fresh_job).

Definition train_loop (param : DiFactoParam) (cur_epoch : Z)
  : list SchedEvent :=
  mjoin (map (λ e, RunEpoch param e Job.kTraining
                   ++ RunEpoch param e Job.kValidation
                   ++ [EpochCallbacks])
           (seqZ cur_epoch (max_num_epochs param - cur_epoch))).

(** The events of [RunScheduler] in program order (each wait is
    taken to return), and how it ends. *)
Definition RunScheduler (param : DiFactoParam)
  : list SchedEvent * Outcome :=
  let cur_epoch := 0 in
  let load :=
    if negb (String.length (model_in param) =? 0)%nat
    then [Add [load_job param]; WaitDrained] else [] in
  match find "predict" (task param) with
  | Some _ =>
      if negb (String.length (model_in param) =? 0)%nat
      then (load ++ RunEpoch param cur_epoch Job.kPrediction
                 ++ train_loop param cur_epoch, Finished)
      else (load, CheckFailed "param_.model_in.size()")
  | None => (load ++ train_loop param cur_epoch, Finished)
  end.
End RunScheduler.
End DiFacto.

(** ** A local training *)
Definition local_training : DiFacto.DiFactoParam :=
  DiFacto.MkParam "train" "data" "" "" "fm" 1.

(** ** A configuration that asks for predictions without a model *)
Definition fresh_job0 : Job.t := Job.Make Job.kLoadModel 0 "" 0 0.

Definition predict_without_model : DiFacto.DiFactoParam :=
  DiFacto.MkParam "predict" "data" "" "" "fm" 3.

(** ** Distributive arithmetic and inner products *)

(** Arithmetic in which multiplication is associative and distributes
    over addition. *)
Class SemiringScalar (V : Type) `{ExactScalar V} : Prop := {
  mul_assoc : ∀ a b c : V, mul a (mul b c) = mul (mul a b) c;
  mul_add_distr_l : ∀ a b c : V, mul a (add b c) = add (mul a b) (mul a c)
}.

(** The inner product of two vectors of shape [n × dim]. *)
Definition dot {V} `{Scalar V} (n dim : Z) (u v : list V) : V :=
  sum_over (zrange 0 n) (λ i,
    sum_over (zrange 0 dim) (λ k,
      mul (vat u (i * dim + k)) (vat v (i * dim + k)))).

(** The matrix with the value [1] written out for every entry. *)
Definition unit_values {V} `{Scalar V} (D : RowBlock.t V) : RowBlock.t V :=
  RowBlock.Make (RowBlock.size D) (RowBlock.offset D) (RowBlock.index D)
    (Some (replicate (length (RowBlock.index D)) one)).

(** The scenario matrix without its values. *)
Definition D32_binary : RowBlock.t Z :=
  RowBlock.Make 3 [0; 1; 3; 3] [0; 0; 1] None.

(** ** ProcessFile: where the batches are *)
Section ProcessFileTraces.
Import ProcessFile.

(** The batches added to the tracker and the batches completed, newest
    first. *)
Definition added (tr : list Event) : list nat :=
  omap (λ e, match e with TrackerAdd b => Some b | _ => None end) tr.

Definition completed (tr : list Event) : list nat :=
  omap (λ e, match e with Complete b => Some b | _ => None end) tr.

(** How many batches the tracker has got: all the batches read, but for
    the one in hand. *)
Definition handed_over (s : State) : nat :=
  match holding (pc s) with
  | Some b => b
  | None => next_batch s
  end.

(** The batches go from the reader to the tracker in order, and from
    there to the store and to their completion. *)
Record FlowInv (s : State) : Prop := {
  flow_holding : ∀ b, holding (pc s) = Some b → next_batch s = S b;
  flow_added : added (trace s) = rev (seq 0 (handed_over s));
  flow_perm :
    completed (trace s) ++ pulls s ++ grad_pushes s ≡ₚ added (trace s)
}.

(** What the consumer of the tracker and the callbacks do, and for
    which jobs. *)
Record ConsumerInv (job : Job.t) (s : State) : Prop := {
  cons_pulled : ∀ b, b ∈ pulls s → PullWeight b ∈ trace s;
  cons_pushed : ∀ b, b ∈ grad_pushes s →
    is_training job = true ∧ Evaluate b ∈ trace s;
  cons_counts : ∀ b, b ∈ count_pushes s → push_cnt job = true;
  cons_waiting : ∀ b, pc s = Waiting b → push_cnt job = true;
  cons_pull : ∀ b, Before (PullWeight b) (WeightPulled b) (trace s);
  cons_eval : ∀ b, RightAfter (WeightPulled b) (Evaluate b) (trace s);
  cons_calc : ∀ b, RightAfter (Evaluate b) (CalcGrad b) (trace s);
  cons_push : ∀ b, RightAfter (CalcGrad b) (PushGradient b) (trace s);
  cons_predict : ∀ b, RightAfter (Evaluate b) (Predict b) (trace s);
  cons_complete : ∀ b, Before (Evaluate b) (Complete b) (trace s);
  cons_training : ∀ b,
    CalcGrad b ∈ trace s ∨ PushGradient b ∈ trace s
    ∨ GradientDone b ∈ trace s → is_training job = true;
  cons_cnt : ∀ b,
    PushFeaCount b ∈ trace s ∨ FeaCountDone b ∈ trace s
    ∨ WaitReturned b ∈ trace s → push_cnt job = true;
  cons_prediction : ∀ b, Predict b ∈ trace s →
    Job.type_ job = Job.kPrediction
}.

(** [DiFacto::Process]: the events of a job whose reader returns [n]
    batches, under a schedule.  The branches of [kSaveModel] and
    [kLoadModel] do nothing (the calls to the learner are commented
    out); every other job goes to [ProcessFile]. *)
Definition Process (job : Job.t) (n : nat) (sched : list Action)
  : option (list Event) :=
  match Job.type_ job with
  | Job.kSaveModel => Some []
  | Job.kLoadModel => Some []
  | _ => trace <$> run job n sched init
  end.
End ProcessFileTraces.

(** ** The schedule of [RunScheduler] *)
Section Schedules.
Import DiFacto.

(** How many times the epoch callbacks are run. *)
Fixpoint callback_rounds (events : list SchedEvent) : nat :=
  match events with
  | [] => 0
  | EpochCallbacks :: events => S (callback_rounds events)
  | _ :: events => callback_rounds events
  end.

(** The file an epoch of the given type reads:
    [job_type == Job::kValidation ? param_.val_data : param_.data_in]. *)
Definition epoch_file (param : DiFactoParam) (job_type : Job.type) : string :=
  if Job.type_eqb job_type Job.kValidation
  then val_data param else data_in param.

(** Every [Add] of a schedule is followed by the wait for the tracker. *)
Definition waits_after_add (events : list SchedEvent) : Prop :=
  ∀ pre jobs post, events = pre ++ Add jobs :: post →
    ∃ post', post = WaitDrained :: post'.

(** A job of the training loop. *)
Definition in_loop (j : Job.t) : Prop :=
  Job.type_ j = Job.kTraining ∨ Job.type_ j = Job.kValidation.

(** [j1] belongs to an earlier round than [j2]: an earlier epoch, or
    the training of the epoch that [j2] validates. *)
Definition round_before (j1 j2 : Job.t) : Prop :=
  Job.epoch j1 < Job.epoch j2 ∨
  (Job.epoch j1 = Job.epoch j2 ∧ Job.type_ j1 = Job.kTraining
   ∧ Job.type_ j2 = Job.kValidation).

(** The jobs of the training loop are added round after round. *)
Definition rounds_in_order (events : list SchedEvent) : Prop :=
  ∀ pre jobs1 mid jobs2 post j1 j2,
    events = pre ++ Add jobs1 :: mid ++ Add jobs2 :: post →
    j1 ∈ jobs1 → j2 ∈ jobs2 → in_loop j1 → in_loop j2 →
    round_before j1 j2.

(** A training of one epoch with validation, and a prediction with a
    model. *)
Definition one_epoch : DiFactoParam :=
  MkParam "train" "data" "val" "" "fm" 1.

Definition predict_with_model : DiFactoParam :=
  MkParam "predict" "data" "" "model" "fm" 3.
End Schedules.

(** * Proofs *)

#[export] Instance Z_exact : ExactScalar Z.
Proof.
  split; unfold zero, one, add, mul, is_zero, Z_scalar; intros; try lia.
Qed.

(** ** Buffers: lemmas *)
Section BufferLemmas.
Context {A : Type}.
Implicit Types l : list A.

Lemma vget_Some_range l i a : vget l i = Some a → 0 ≤ i < Z.of_nat (length l).
Proof.
  unfold vget. destruct (Z.leb_spec 0 i); [|done].
  intros Hl. apply lookup_lt_Some in Hl. lia.
Qed.

Lemma vget_in_range l i : 0 ≤ i < Z.of_nat (length l) → is_Some (vget l i).
Proof.
  intros Hi. unfold vget. destruct (Z.leb_spec 0 i); [|lia].
  apply lookup_lt_is_Some. lia.
Qed.

Lemma vget_out_of_range l i : ¬ (0 ≤ i < Z.of_nat (length l)) → vget l i = None.
Proof.
  intros Hi. destruct (vget l i) eqn:E; [|done].
  apply vget_Some_range in E. lia.
Qed.

Lemma vset_in_range l i a :
  0 ≤ i < Z.of_nat (length l) →
  ∃ l', vset l i a = Some l' ∧ length l' = length l ∧
        ∀ q, vget l' q = if q =? i then Some a else vget l q.
Proof.
  intros Hi. unfold vset.
  destruct (Z.leb_spec 0 i); [|lia].
  destruct (Z.ltb_spec i (Z.of_nat (length l))); [|lia]. simpl.
  eexists; split; [done|]. split; [by rewrite length_insert|].
  intros q. unfold vget. destruct (Z.leb_spec 0 q).
  - destruct (Z.eqb_spec q i) as [->|Hne].
    + apply list_lookup_insert_eq. lia.
    + apply list_lookup_insert_ne. lia.
  - destruct (Z.eqb_spec q i); [lia|done].
Qed.

Lemma vget_ext l1 l2 :
  length l1 = length l2 →
  (∀ q, 0 ≤ q < Z.of_nat (length l1) → vget l1 q = vget l2 q) → l1 = l2.
Proof.
  intros Hlen Hq. apply list_eq. intros n.
  destruct (decide (n < length l1)%nat) as [Hn|Hn].
  - specialize (Hq (Z.of_nat n)). unfold vget in Hq.
    destruct (Z.leb_spec 0 (Z.of_nat n)); [|lia].
    rewrite Nat2Z.id in Hq. apply Hq. lia.
  - rewrite !lookup_ge_None_2; [done|lia|lia].
Qed.

Lemma elem_of_zrange lo hi i : i ∈ zrange lo hi ↔ lo ≤ i < hi.
Proof. unfold zrange. rewrite elem_of_seqZ. lia. Qed.

Lemma zrange_empty lo hi : hi ≤ lo → zrange lo hi = [].
Proof.
  intros Hle. unfold zrange, seqZ.
  replace (Z.to_nat (hi - lo)) with 0%nat by lia. done.
Qed.

Lemma zrange_cons lo hi : lo < hi → zrange lo hi = lo :: zrange (lo + 1) hi.
Proof.
  intros Hlt. unfold zrange.
  rewrite (seqZ_cons lo (hi - lo)) by lia.
  f_equal. f_equal; lia.
Qed.

Lemma zrange_split lo mid hi :
  lo ≤ mid ≤ hi → zrange lo hi = zrange lo mid ++ zrange mid hi.
Proof.
  intros Hm. unfold zrange.
  replace (hi - lo) with ((mid - lo) + (hi - mid)) by lia.
  rewrite seqZ_app by lia. do 2 f_equal; lia.
Qed.
End BufferLemmas.

(** ** In-place updates: lemmas *)
Section UpdatesLemmas.
Context {V : Type} `{Scalar V}.
Implicit Types y : list V.

Lemma vat_vget (l : list V) i v : vget l i = Some v → vat l i = v.
Proof. unfold vat. by intros ->. Qed.

Lemma vget_vat (l : list V) i :
  0 ≤ i < Z.of_nat (length l) → vget l i = Some (vat l i).
Proof.
  intros Hi. destruct (vget_in_range l i Hi) as [v Hv].
  by rewrite (vat_vget _ _ _ Hv).
Qed.

Lemma Updates_id L : Updates (V:=V) L Some (λ _ v, v).
Proof. intros y Hy. exists y. done. Qed.

Lemma Updates_ext L op g g' :
  (∀ q v, 0 ≤ q < Z.of_nat L → g q v = g' q v) →
  Updates (V:=V) L op g → Updates L op g'.
Proof.
  intros Hg Hop y Hy. destruct (Hop y Hy) as (y' & Hy' & Hlen & Hq).
  exists y'. split; [done|]. split; [done|].
  intros q v Hv. rewrite <- Hg; [by apply Hq|].
  apply vget_Some_range in Hv. lia.
Qed.

Lemma Updates_for_each {A} L (l : list A) (f : A → list V → option (list V))
    (g : A → Z → V → V) :
  (∀ a, a ∈ l → Updates L (f a) (g a)) →
  Updates L (for_each l f) (λ q v, fold_left (λ acc a, g a q acc) l v).
Proof.
  induction l as [|a l IH]; intros Hf.
  - apply Updates_id.
  - intros y Hy. simpl.
    destruct (Hf a) with (y := y) as (y1 & Hy1 & Hlen1 & Hq1);
      [left | done |].
    rewrite Hy1. simpl.
    destruct IH with (y := y1) as (y2 & Hy2 & Hlen2 & Hq2); [|done|].
    { intros b Hb. apply Hf. by right. }
    exists y2. split; [done|]. split; [done|].
    intros q v Hv. apply Hq2. by apply Hq1.
Qed.

(** The body of the innermost loop. *)
Lemma Updates_axpy_step L (src : list V) sb (v : option V) db k :
  0 ≤ db + k < Z.of_nat L →
  0 ≤ sb + k < Z.of_nat (length src) →
  Updates L
    (λ dst,
      d ← vget dst (db + k);
      s ← vget src (sb + k);
      vset dst (db + k)
        (add d (match v with Some v => mul s v | None => s end)))
    (λ q acc,
      if q =? db + k
      then add acc (match v with
                    | Some v => mul (vat src (sb + k)) v
                    | None => vat src (sb + k)
                    end)
      else acc).
Proof.
  intros Hd Hs y Hy.
  rewrite (vget_vat y (db + k)) by lia.
  rewrite (vget_vat src (sb + k)) by lia. simpl.
  edestruct (vset_in_range y (db + k)) as (y' & Hy' & Hlen & Hq);
    [lia|].
  exists y'. split; [exact Hy'|]. split; [lia|].
  intros q w Hw. rewrite Hq.
  destruct (Z.eqb_spec q (db + k)) as [->|Hne]; [|done].
  by rewrite (vat_vget _ _ _ Hw).
Qed.

Lemma Updates_axpy L (src : list V) sb v db dim :
  (0 < dim → 0 ≤ db ∧ db + dim ≤ Z.of_nat L) →
  (0 < dim → 0 ≤ sb ∧ sb + dim ≤ Z.of_nat (length src)) →
  Updates L (axpy src sb v db dim)
    (λ q acc,
      fold_left (λ acc k,
        if q =? db + k
        then add acc (match v with
                      | Some v => mul (vat src (sb + k)) v
                      | None => vat src (sb + k)
                      end)
        else acc) (zrange 0 dim) acc).
Proof.
  intros Hd Hs. unfold axpy.
  apply (Updates_for_each L (zrange 0 dim)
    (λ k dst, d ← vget dst (db + k); s ← vget src (sb + k);
       vset dst (db + k)
         (add d (match v with Some v => mul s v | None => s end)))
    (λ k q acc, if q =? db + k
       then add acc (match v with
                     | Some v => mul (vat src (sb + k)) v
                     | None => vat src (sb + k)
                     end)
       else acc)).
  intros k Hk. apply elem_of_zrange in Hk.
  apply Updates_axpy_step; lia.
Qed.
End UpdatesLemmas.

(** ** Folds that touch one element *)
Section FoldLemmas.

Lemma fold_left_ext_in {A B} (f g : B → A → B) (l : list A) (b : B) :
  (∀ a acc, a ∈ l → f acc a = g acc a) → fold_left f l b = fold_left g l b.
Proof.
  revert b. induction l as [|a l IH]; intros b Hfg; [done|].
  simpl. rewrite Hfg by left. apply IH. intros. apply Hfg. by right.
Qed.

Lemma fold_left_id {A B} (f : B → A → B) (l : list A) (b : B) :
  (∀ a acc, a ∈ l → f acc a = acc) → fold_left f l b = b.
Proof.
  induction l as [|a l IH]; intros Hf; [done|].
  simpl. rewrite Hf by left. apply IH. intros. apply Hf. by right.
Qed.

Lemma fold_left_zrange_single {B} (f : B → Z → B) lo hi i0 (b : B) :
  lo ≤ i0 < hi →
  (∀ a acc, lo ≤ a < hi → a ≠ i0 → f acc a = acc) →
  fold_left f (zrange lo hi) b = f b i0.
Proof.
  intros Hi Hf.
  rewrite (zrange_split lo i0 hi) by lia.
  rewrite (zrange_cons i0 hi) by lia.
  rewrite fold_left_app. simpl.
  rewrite (fold_left_id f (zrange lo i0)).
  - apply fold_left_id. intros a acc Ha. apply elem_of_zrange in Ha.
    apply Hf; lia.
  - intros a acc Ha. apply elem_of_zrange in Ha. apply Hf; lia.
Qed.
End FoldLemmas.

Section SpMMLemmas.
Context {V : Type} `{Scalar V}.
Implicit Types (D : RowBlock.t V) (x y : list V).

Lemma vget_default {A} (l : list A) (i : Z) (d : A) :
  0 ≤ i < Z.of_nat (length l) → vget l i = Some (default d (vget l i)).
Proof. intros Hi. by destruct (vget_in_range l i Hi) as [a ->]. Qed.

Lemma wrap32_small z : 0 ≤ z < 2 ^ 32 → wrap32 z = z.
Proof. intros. unfold wrap32. by apply Z.mod_small. Qed.

Lemma wf_row_in_index D m i j :
  wf_matrix D m → 0 ≤ i < RowBlock.size D →
  row_begin D i ≤ j < row_end D i →
  0 ≤ j < Z.of_nat (length (RowBlock.index D)).
Proof.
  intros Hwf Hi Hj.
  pose proof (wf_offset_mono D m Hwf i Hi) as Hm.
  split; [lia|]. rewrite (wf_index_length D m Hwf).
  assert (∀ n : nat, i + 1 + Z.of_nat n ≤ RowBlock.size D →
            row_end D i ≤ offset_at D (i + 1 + Z.of_nat n)) as Hmono.
  { induction n as [|n IH]; intros Hn.
    - unfold row_end. replace (i + 1 + Z.of_nat 0%nat) with (i + 1) by lia. lia.
    - pose proof (wf_offset_mono D m Hwf (i + 1 + Z.of_nat n)) as Hs.
      unfold row_begin, row_end in Hs.
      replace (i + 1 + Z.of_nat (S n)) with (i + 1 + Z.of_nat n + 1) by lia.
      etrans; [apply IH; lia|]. apply Hs. lia. }
  specialize (Hmono (Z.to_nat (RowBlock.size D - (i + 1)))).
  replace (i + 1 + Z.of_nat (Z.to_nat (RowBlock.size D - (i + 1))))
    with (RowBlock.size D) in Hmono by lia.
  specialize (Hmono ltac:(lia)). lia.
Qed.

Lemma Updates_Times_row L D x m dim i :
  wf_matrix D m → 0 ≤ i < RowBlock.size D →
  0 ≤ dim → m * dim ≤ 2 ^ 32 →
  Z.of_nat (length x) = m * dim →
  RowBlock.size D * dim ≤ Z.of_nat L →
  Updates L (Times_row D x dim i) (Times_row_acc D x dim i).
Proof.
  intros Hwf Hi Hdim Hm32 Hx HL y Hy.
  pose proof (wf_offset_mono D m Hwf i Hi) as Hmono.
  unfold Times_row.
  rewrite (vget_default (RowBlock.offset D) i 0)
    by (rewrite (wf_offset_length D m Hwf); lia).
  rewrite (vget_default (RowBlock.offset D) (i + 1) 0)
    by (rewrite (wf_offset_length D m Hwf); lia).
  simpl. fold (offset_at D i) (offset_at D (i + 1)).
  fold (row_begin D i) (row_end D i).
  destruct (Z.eqb_spec (row_begin D i) (row_end D i)) as [Heq|Hne].
  { exists y. split; [done|]. split; [done|]. intros q v Hv.
    unfold Times_row_acc.
    rewrite (zrange_empty (row_begin D i)) by lia. done. }
  assert (∀ j, j ∈ zrange (row_begin D i) (row_end D i) →
    0 ≤ j < Z.of_nat (length (RowBlock.index D)) ∧
    0 ≤ col D j < m) as Hj.
  { intros j Hj. apply elem_of_zrange in Hj.
    pose proof (wf_row_in_index D m i j Hwf Hi Hj) as Hjj.
    split; [done|]. by apply (wf_index_range D m Hwf). }
  assert (∀ j, 0 ≤ col D j < m →
    0 < dim → 0 ≤ wrap32 (col D j * dim) ∧
    wrap32 (col D j * dim) + dim ≤ Z.of_nat (length x) ∧
    wrap32 (col D j * dim) = col D j * dim) as Hw.
  { intros j Hc Hd.
    assert (0 ≤ col D j * dim) by (apply Z.mul_nonneg_nonneg; lia).
    assert (col D j * dim + dim ≤ m * dim).
    { replace (col D j * dim + dim) with ((col D j + 1) * dim) by lia.
      apply Z.mul_le_mono_nonneg_r; lia. }
    rewrite wrap32_small by lia. lia. }
  assert (0 < dim → 0 ≤ i * dim ∧ i * dim + dim ≤ Z.of_nat L) as Hyb.
  { intros Hd. split; [apply Z.mul_nonneg_nonneg; lia|].
    replace (i * dim + dim) with ((i + 1) * dim) by lia.
    etrans; [|exact HL]. apply Z.mul_le_mono_nonneg_r; lia. }
  unfold Times_row_acc.
  destruct (RowBlock.value D) as [vals|] eqn:Hval.
  - eapply (Updates_for_each L _
      (λ j y, e ← vget (RowBlock.index D) j;
              v ← vget vals j;
              axpy x (wrap32 (e * dim)) (Some v) (i * dim) dim y)
      (λ j q acc, fold_left (λ acc k,
         if q =? i * dim + k
         then add acc (contrib D j (vat x (col D j * dim + k)))
         else acc) (zrange 0 dim) acc)); [|done].
    intros j Hjr. destruct (Hj j Hjr) as [Hji Hc].
    intros y0 Hy0.
    rewrite (vget_default (RowBlock.index D) j 0) by done. simpl.
    fold (col D j).
    rewrite (vget_vat vals j)
      by (rewrite (wf_value_length D m Hwf vals Hval); lia).
    simpl.
    eapply Updates_ext; [|apply Updates_axpy; [done|]|done].
    + intros q v _. simpl. apply fold_left_ext_in. intros k acc Hk.
      apply elem_of_zrange in Hk.
      destruct (Hw j Hc ltac:(lia)) as (_ & _ & ->).
      unfold contrib. rewrite Hval. done.
    + intros Hd. destruct (Hw j Hc Hd) as (? & ? & _). lia.
  - eapply (Updates_for_each L _
      (λ j y, e ← vget (RowBlock.index D) j;
              axpy x (wrap32 (e * dim)) None (i * dim) dim y)
      (λ j q acc, fold_left (λ acc k,
         if q =? i * dim + k
         then add acc (contrib D j (vat x (col D j * dim + k)))
         else acc) (zrange 0 dim) acc)); [|done].
    intros j Hjr. destruct (Hj j Hjr) as [Hji Hc].
    intros y0 Hy0.
    rewrite (vget_default (RowBlock.index D) j 0) by done. simpl.
    fold (col D j).
    eapply Updates_ext; [|apply Updates_axpy; [done|]|done].
    + intros q v _. simpl. apply fold_left_ext_in. intros k acc Hk.
      apply elem_of_zrange in Hk.
      destruct (Hw j Hc ltac:(lia)) as (_ & _ & ->).
      unfold contrib. rewrite Hval. done.
    + intros Hd. destruct (Hw j Hc Hd) as (? & ? & _). lia.
Qed.
End SpMMLemmas.

Section TimesLemmas.
Context {V : Type} `{Scalar V}.
Variable Segment : Range.t → Z → Z → Range.t.
Hypothesis Segment_ok : SegmentContract Segment.
Implicit Types (D : RowBlock.t V) (x y : list V).

Lemma slice_unique dim i i' k q :
  0 ≤ k < dim → q = i * dim + k → i' * dim ≤ q < i' * dim + dim → i = i'.
Proof.
  intros Hk -> Hq.
  destruct (Z.lt_trichotomy i i') as [Hlt|[Heq|Hgt]]; [|done|].
  - assert ((i + 1) * dim ≤ i' * dim)
      by (apply Z.mul_le_mono_nonneg_r; lia). lia.
  - assert ((i' + 1) * dim ≤ i * dim)
      by (apply Z.mul_le_mono_nonneg_r; lia). lia.
Qed.

Lemma Times_row_acc_other D x dim i q acc :
  ¬ (i * dim ≤ q < i * dim + dim) → Times_row_acc D x dim i q acc = acc.
Proof.
  intros Hq. unfold Times_row_acc.
  apply fold_left_id. intros j a _.
  apply fold_left_id. intros k b Hk. apply elem_of_zrange in Hk.
  destruct (Z.eqb_spec q (i * dim + k)); [lia|done].
Qed.

Lemma Times_row_acc_at D x dim i k acc :
  0 ≤ k < dim →
  Times_row_acc D x dim i (i * dim + k) acc = row_acc D x dim i k acc.
Proof.
  intros Hk. unfold Times_row_acc, row_acc.
  apply fold_left_ext_in. intros j a _.
  rewrite (fold_left_zrange_single _ 0 dim k) by
    (first [lia | intros k' b Hk' Hne;
                  destruct (Z.eqb_spec (i * dim + k) (i * dim + k'));
                  [lia|done]]).
  by rewrite Z.eqb_refl.
Qed.

Lemma memset0_spec y n :
  0 ≤ n ≤ Z.of_nat (length y) →
  ∃ y0, memset0 y n = Some y0 ∧ length y0 = length y ∧
        (∀ q, 0 ≤ q < n → vget y0 q = Some zero) ∧
        (∀ q, n ≤ q → vget y0 q = vget y q).
Proof.
  intros Hn. unfold memset0.
  destruct (Z.leb_spec 0 n); [|lia].
  destruct (Z.leb_spec n (Z.of_nat (length y))); [|lia]. simpl.
  eexists. split; [done|]. split; [|split].
  - rewrite length_app, length_replicate, length_drop. lia.
  - intros q Hq. unfold vget. destruct (Z.leb_spec 0 q); [|lia].
    rewrite lookup_app_l by (rewrite length_replicate; lia).
    apply lookup_replicate_2. lia.
  - intros q Hq. unfold vget. destruct (Z.leb_spec 0 q); [|done].
    rewrite lookup_app_r by (rewrite length_replicate; lia).
    rewrite length_replicate, lookup_drop. f_equal. lia.
Qed.

Lemma Has_zrange rg i :
  i ∈ zrange (Range.begin rg) (Range.end_ rg) ↔ Range.Has rg i = true.
Proof.
  rewrite elem_of_zrange. unfold Range.Has.
  rewrite andb_true_iff, Z.leb_le, Z.ltb_lt. done.
Qed.

Lemma Updates_Times_team L D x m dim nt :
  wf_matrix D m → 0 ≤ dim → m * dim ≤ 2 ^ 32 →
  Z.of_nat (length x) = m * dim →
  RowBlock.size D * dim ≤ Z.of_nat L →
  Updates L
    (λ y, for_each (zrange 0 nt) (λ t y,
       let rg := Segment (Range.Make 0 (RowBlock.size D)) t nt in
       for_each (zrange (Range.begin rg) (Range.end_ rg))
         (Times_row D x dim) y) y)
    (Times_team_acc Segment D x dim nt).
Proof.
  intros Hwf Hdim Hm32 Hx HL. unfold Times_team_acc.
  apply (Updates_for_each L (zrange 0 nt)
    (λ t y, for_each
       (zrange (Range.begin (Segment (Range.Make 0 (RowBlock.size D)) t nt))
               (Range.end_ (Segment (Range.Make 0 (RowBlock.size D)) t nt)))
       (Times_row D x dim) y)
    (λ t q acc, fold_left (λ acc i, Times_row_acc D x dim i q acc)
       (zrange (Range.begin (Segment (Range.Make 0 (RowBlock.size D)) t nt))
               (Range.end_ (Segment (Range.Make 0 (RowBlock.size D)) t nt)))
       acc)).
  intros t Ht. apply elem_of_zrange in Ht.
  apply (Updates_for_each L _ (Times_row D x dim)
           (Times_row_acc D x dim)).
  intros i Hi. apply Has_zrange in Hi.
  apply (seg_inside Segment Segment_ok) in Hi; [|lia].
  by apply (Updates_Times_row L D x m).
Qed.

Lemma Times_team_acc_at D x dim nt i k acc :
  0 < nt → 0 ≤ i < RowBlock.size D → 0 ≤ k < dim →
  Times_team_acc Segment D x dim nt (i * dim + k) acc = row_acc D x dim i k acc.
Proof.
  intros Hnt Hi Hk. unfold Times_team_acc.
  destruct (seg_cover Segment Segment_ok (RowBlock.size D) nt i Hnt Hi)
    as (t0 & Ht0 & Hhas).
  rewrite (fold_left_zrange_single _ 0 nt t0); [|lia|].
  - apply Has_zrange in Hhas. apply elem_of_zrange in Hhas.
    rewrite (fold_left_zrange_single _ _ _ i); [|lia|].
    + by apply Times_row_acc_at.
    + intros i' a Hi' Hne. apply Times_row_acc_other.
      intros Hq. apply Hne. symmetry.
      by apply (slice_unique dim i i' k (i * dim + k)).
  - intros t a Ht Hne. apply fold_left_id. intros i' b Hi'.
    apply Has_zrange in Hi'. apply Times_row_acc_other.
    intros Hq.
    assert (i = i') as <- by
      by apply (slice_unique dim i i' k (i * dim + k)).
    apply Hne.
    by apply (seg_disjoint Segment Segment_ok (RowBlock.size D) t t0 nt i).
Qed.

Lemma Times_team_acc_tail D x dim nt q acc :
  0 ≤ dim → RowBlock.size D * dim ≤ q →
  Times_team_acc Segment D x dim nt q acc = acc.
Proof.
  intros Hdim Hq. unfold Times_team_acc.
  apply fold_left_id. intros t a Ht. apply elem_of_zrange in Ht.
  apply fold_left_id. intros i b Hi. apply Has_zrange in Hi.
  apply (seg_inside Segment Segment_ok) in Hi; [|lia].
  apply Times_row_acc_other.
  assert ((i + 1) * dim ≤ RowBlock.size D * dim)
    by (apply Z.mul_le_mono_nonneg_r; lia). lia.
Qed.

Lemma Times_kernel_spec D x y m dim nt :
  wf_matrix D m → 0 < nt → 0 ≤ dim → m * dim ≤ 2 ^ 32 →
  Z.of_nat (length x) = m * dim →
  RowBlock.size D * dim ≤ Z.of_nat (length y) →
  ∃ r, Times_kernel Segment D x y dim nt = Some r ∧
       length r = length y ∧
       (∀ i k, 0 ≤ i < RowBlock.size D → 0 ≤ k < dim →
          vget r (i * dim + k) = Some (row_acc D x dim i k zero)) ∧
       (∀ q, RowBlock.size D * dim ≤ q → vget r q = vget y q).
Proof.
  intros Hwf Hnt Hdim Hm32 Hx Hy. unfold Times_kernel.
  destruct (memset0_spec y (RowBlock.size D * dim))
    as (y0 & -> & Hlen0 & Hz & Htail).
  { split; [|done]. apply Z.mul_nonneg_nonneg; [apply (wf_size D m Hwf)|done]. }
  simpl.
  destruct (Updates_Times_team (length y) D x m dim nt Hwf Hdim Hm32 Hx Hy
              y0 Hlen0) as (r & Hr & Hlenr & Hq).
  exists r. split; [exact Hr|]. split; [done|]. split.
  - intros i k Hi Hk.
    assert (0 ≤ i * dim + k < RowBlock.size D * dim) as Hq0.
    { split; [apply Z.add_nonneg_nonneg; [apply Z.mul_nonneg_nonneg|]; lia|].
      assert ((i + 1) * dim ≤ RowBlock.size D * dim)
        by (apply Z.mul_le_mono_nonneg_r; lia). lia. }
    rewrite (Hq _ zero) by (by apply Hz).
    by rewrite Times_team_acc_at.
  - intros q Hqt.
    destruct (vget y q) as [v|] eqn:Hv.
    + rewrite (Hq q v) by (by rewrite Htail).
      by rewrite Times_team_acc_tail.
    + apply vget_out_of_range. rewrite Hlenr. intros Hr'.
      apply vget_in_range in Hr'. rewrite Hv in Hr'. by destruct Hr'.
Qed.
End TimesLemmas.

Section TransTimesLemmas.
Context {V : Type} `{Scalar V}.
Variable Segment : Range.t → Z → Z → Range.t.
Hypothesis Segment_ok : SegmentContract Segment.
Implicit Types (D : RowBlock.t V) (x y : list V).

Lemma Updates_TransTimes_row L D x m m' dim rg i :
  wf_matrix D m → 0 ≤ i < RowBlock.size D →
  0 ≤ dim → RowBlock.size D * dim ≤ Z.of_nat (length x) →
  m' * dim ≤ Z.of_nat L → Z.of_nat L ≤ 2 ^ 32 →
  (∀ e, Range.Has rg e = true → 0 ≤ e < m') →
  Updates L (TransTimes_row D x dim rg i) (TransTimes_row_acc D x dim rg i).
Proof.
  intros Hwf Hi Hdim Hx HL HL32 Hrg y Hy.
  pose proof (wf_offset_mono D m Hwf i Hi) as Hmono.
  unfold TransTimes_row.
  rewrite (vget_default (RowBlock.offset D) i 0)
    by (rewrite (wf_offset_length D m Hwf); lia).
  rewrite (vget_default (RowBlock.offset D) (i + 1) 0)
    by (rewrite (wf_offset_length D m Hwf); lia).
  simpl. fold (offset_at D i) (offset_at D (i + 1)).
  fold (row_begin D i) (row_end D i).
  destruct (Z.eqb_spec (row_begin D i) (row_end D i)) as [Heq|Hne].
  { exists y. split; [done|]. split; [done|]. intros q v Hv.
    unfold TransTimes_row_acc.
    rewrite (zrange_empty (row_begin D i)) by lia. done. }
  assert (∀ j, j ∈ zrange (row_begin D i) (row_end D i) →
    0 ≤ j < Z.of_nat (length (RowBlock.index D))) as Hj.
  { intros j Hj. apply elem_of_zrange in Hj.
    by apply (wf_row_in_index D m i j Hwf Hi). }
  assert (∀ e, 0 ≤ e < m' → 0 < dim →
    0 ≤ e * dim ∧ e * dim + dim ≤ Z.of_nat L ∧
    wrap32 (e * dim) = e * dim) as Hw.
  { intros e He Hd.
    assert (0 ≤ e * dim) by (apply Z.mul_nonneg_nonneg; lia).
    assert (e * dim + dim ≤ m' * dim).
    { replace (e * dim + dim) with ((e + 1) * dim) by lia.
      apply Z.mul_le_mono_nonneg_r; lia. }
    rewrite wrap32_small by lia. lia. }
  assert (0 < dim → 0 ≤ i * dim ∧ i * dim + dim ≤ Z.of_nat (length x))
    as Hxb.
  { intros Hd. split; [apply Z.mul_nonneg_nonneg; lia|].
    replace (i * dim + dim) with ((i + 1) * dim) by lia.
    etrans; [|exact Hx]. apply Z.mul_le_mono_nonneg_r; lia. }
  unfold TransTimes_row_acc.
  destruct (RowBlock.value D) as [vals|] eqn:Hval.
  - eapply (Updates_for_each L _
      (λ j y, e ← vget (RowBlock.index D) j;
              if Range.Has rg e then
                v ← vget vals j;
                axpy x (i * dim) (Some v) (wrap32 (e * dim)) dim y
              else Some y)
      (λ j q acc,
         if Range.Has rg (col D j) then
           fold_left (λ acc k,
             if q =? col D j * dim + k
             then add acc (contrib D j (vat x (i * dim + k)))
             else acc) (zrange 0 dim) acc
         else acc)); [|done].
    intros j Hjr. specialize (Hj j Hjr).
    intros y0 Hy0.
    rewrite (vget_default (RowBlock.index D) j 0) by done. simpl.
    fold (col D j).
    destruct (Range.Has rg (col D j)) eqn:Hhas;
      [|exists y0; done].
    rewrite (vget_vat vals j)
      by (rewrite (wf_value_length D m Hwf vals Hval); lia).
    simpl. apply Hrg in Hhas.
    eapply Updates_ext; [|apply Updates_axpy; [|done]|done].
    + intros q v _. simpl. apply fold_left_ext_in. intros k acc Hk.
      apply elem_of_zrange in Hk.
      destruct (Hw _ Hhas ltac:(lia)) as (_ & _ & ->).
      unfold contrib. rewrite Hval. done.
    + intros Hd. destruct (Hw _ Hhas Hd) as (? & ? & ->). lia.
  - eapply (Updates_for_each L _
      (λ j y, e ← vget (RowBlock.index D) j;
              if Range.Has rg e then
                axpy x (i * dim) None (wrap32 (e * dim)) dim y
              else Some y)
      (λ j q acc,
         if Range.Has rg (col D j) then
           fold_left (λ acc k,
             if q =? col D j * dim + k
             then add acc (contrib D j (vat x (i * dim + k)))
             else acc) (zrange 0 dim) acc
         else acc)); [|done].
    intros j Hjr. specialize (Hj j Hjr).
    intros y0 Hy0.
    rewrite (vget_default (RowBlock.index D) j 0) by done. simpl.
    fold (col D j).
    destruct (Range.Has rg (col D j)) eqn:Hhas;
      [|exists y0; done].
    apply Hrg in Hhas.
    eapply Updates_ext; [|apply Updates_axpy; [|done]|done].
    + intros q v _. simpl. apply fold_left_ext_in. intros k acc Hk.
      apply elem_of_zrange in Hk.
      destruct (Hw _ Hhas ltac:(lia)) as (_ & _ & ->).
      unfold contrib. rewrite Hval. done.
    + intros Hd. destruct (Hw _ Hhas Hd) as (? & ? & ->). lia.
Qed.

Lemma Updates_TransTimes_team L D x m m' dim nt :
  wf_matrix D m → 0 ≤ dim →
  RowBlock.size D * dim ≤ Z.of_nat (length x) →
  m' * dim ≤ Z.of_nat L → Z.of_nat L ≤ 2 ^ 32 →
  Updates L
    (λ y, for_each (zrange 0 nt) (λ t y,
       let rg := Segment (Range.Make 0 m') t nt in
       for_each (zrange 0 (RowBlock.size D))
         (TransTimes_row D x dim rg) y) y)
    (TransTimes_team_acc Segment D x dim m' nt).
Proof.
  intros Hwf Hdim Hx HL HL32. unfold TransTimes_team_acc.
  apply (Updates_for_each L (zrange 0 nt)
    (λ t y, for_each (zrange 0 (RowBlock.size D))
       (TransTimes_row D x dim (Segment (Range.Make 0 m') t nt)) y)
    (λ t q acc, fold_left
       (λ acc i, TransTimes_row_acc D x dim
                   (Segment (Range.Make 0 m') t nt) i q acc)
       (zrange 0 (RowBlock.size D)) acc)).
  intros t Ht. apply elem_of_zrange in Ht.
  apply (Updates_for_each L _
           (TransTimes_row D x dim (Segment (Range.Make 0 m') t nt))
           (TransTimes_row_acc D x dim (Segment (Range.Make 0 m') t nt))).
  intros i Hi. apply elem_of_zrange in Hi.
  apply (Updates_TransTimes_row L D x m m'); try done.
  intros e He. apply (seg_inside Segment Segment_ok) in He; lia.
Qed.

Lemma TransTimes_row_acc_owner D x dim rg i e k acc :
  0 ≤ k < dim → Range.Has rg e = true →
  TransTimes_row_acc D x dim rg i (e * dim + k) acc =
  fold_left (λ acc j,
    if col D j =? e
    then add acc (contrib D j (vat x (i * dim + k)))
    else acc) (zrange (row_begin D i) (row_end D i)) acc.
Proof.
  intros Hk Hhas. unfold TransTimes_row_acc.
  apply fold_left_ext_in. intros j a _.
  destruct (Z.eqb_spec (col D j) e) as [->|Hne].
  - rewrite Hhas.
    rewrite (fold_left_zrange_single _ 0 dim k) by
      (first [lia | intros k' b Hk' Hne;
                    destruct (Z.eqb_spec (e * dim + k) (e * dim + k'));
                    [lia|done]]).
    by rewrite Z.eqb_refl.
  - assert (fold_left (λ acc k0,
        if e * dim + k =? col D j * dim + k0
        then add acc (contrib D j (vat x (i * dim + k0)))
        else acc) (zrange 0 dim) a = a) as Hid.
    { apply fold_left_id. intros k' b Hk'. apply elem_of_zrange in Hk'.
      destruct (Z.eqb_spec (e * dim + k) (col D j * dim + k')) as [Heq|];
        [|done].
      exfalso. apply Hne. symmetry.
      apply (slice_unique dim e (col D j) k (e * dim + k)); [done|done|].
      lia. }
    rewrite Hid. by destruct (Range.Has rg (col D j)).
Qed.

Lemma TransTimes_row_acc_other D x dim rg i q acc :
  (∀ e, Range.Has rg e = true → ¬ (e * dim ≤ q < e * dim + dim)) →
  TransTimes_row_acc D x dim rg i q acc = acc.
Proof.
  intros Hq. unfold TransTimes_row_acc.
  apply fold_left_id. intros j a _.
  destruct (Range.Has rg (col D j)) eqn:Hhas; [|done].
  apply fold_left_id. intros k b Hk. apply elem_of_zrange in Hk.
  destruct (Z.eqb_spec q (col D j * dim + k)); [|done].
  specialize (Hq _ Hhas). lia.
Qed.

Lemma TransTimes_team_acc_at D x dim m' nt e k acc :
  0 < nt → 0 ≤ e < m' → 0 ≤ k < dim →
  TransTimes_team_acc Segment D x dim m' nt (e * dim + k) acc =
  col_acc D x dim e k acc.
Proof.
  intros Hnt He Hk. unfold TransTimes_team_acc, col_acc.
  destruct (seg_cover Segment Segment_ok m' nt e Hnt He)
    as (t0 & Ht0 & Hhas).
  rewrite (fold_left_zrange_single _ 0 nt t0); [|lia|].
  - apply fold_left_ext_in. intros i a _.
    by apply TransTimes_row_acc_owner.
  - intros t a Ht Hne. apply fold_left_id. intros i b _.
    apply TransTimes_row_acc_other. intros e' He' Hq.
    assert (e = e') as <- by
      by apply (slice_unique dim e e' k (e * dim + k)).
    apply Hne. by apply (seg_disjoint Segment Segment_ok m' t t0 nt e).
Qed.

Lemma TransTimes_team_acc_tail D x dim m' nt q acc :
  0 ≤ dim → m' * dim ≤ q →
  TransTimes_team_acc Segment D x dim m' nt q acc = acc.
Proof.
  intros Hdim Hq. unfold TransTimes_team_acc.
  apply fold_left_id. intros t a Ht. apply elem_of_zrange in Ht.
  apply fold_left_id. intros i b _.
  apply TransTimes_row_acc_other. intros e He.
  apply (seg_inside Segment Segment_ok) in He; [|lia].
  assert ((e + 1) * dim ≤ m' * dim)
    by (apply Z.mul_le_mono_nonneg_r; lia). lia.
Qed.

Lemma bias_fill_spec (z : list V) p y :
  length z = length y →
  ∃ y0, bias_fill z p y (Z.of_nat (length y)) = Some y0 ∧
        length y0 = length y ∧
        ∀ q, 0 ≤ q < Z.of_nat (length y) →
             vget y0 q = Some (mul (vat z q) p).
Proof.
  intros Hz. unfold bias_fill.
  edestruct (Updates_for_each (length y) (zrange 0 (Z.of_nat (length y)))
    (λ i y, zi ← vget z i; vset y i (mul zi p))
    (λ i q (acc : V), if q =? i then mul (vat z i) p else acc))
    as (y0 & Hy0 & Hlen & Hq); [|reflexivity|].
  - intros i Hi. apply elem_of_zrange in Hi. intros y1 Hy1.
    rewrite (vget_vat z i) by lia. simpl.
    edestruct (vset_in_range y1 i) as (y' & Hy' & Hlen' & Hq'); [lia|].
    exists y'. split; [exact Hy'|]. split; [lia|].
    intros q v Hv. rewrite Hq'. by destruct (Z.eqb_spec q i).
  - exists y0. split; [exact Hy0|]. split; [done|].
    intros q Hq0. destruct (vget_in_range y q Hq0) as [v Hv].
    rewrite (Hq q v Hv).
    rewrite (fold_left_zrange_single _ 0 _ q); [|lia|].
    + by rewrite Z.eqb_refl.
    + intros a acc Ha Hne. by destruct (Z.eqb_spec q a).
Qed.

Lemma TransTimes_kernel_spec D x z p y m dim nt :
  wf_matrix D m → 0 < nt → 0 < dim < 2 ^ 64 →
  RowBlock.size D * dim ≤ Z.of_nat (length x) →
  Z.of_nat (length y) ≤ 2 ^ 32 →
  (∀ zl, z = Some zl → length zl = length y) →
  ∃ r, TransTimes_kernel Segment D x z p y (Z.of_nat (length y)) dim nt
         = Some r ∧
       length r = length y ∧
       (∀ e k, 0 ≤ e < Z.of_nat (length y) / dim → 0 ≤ k < dim →
          vget r (e * dim + k) =
          Some (col_acc D x dim e k (initial_fill z p (e * dim + k)))) ∧
       (∀ q, Z.of_nat (length y) / dim * dim ≤ q < Z.of_nat (length y) →
          vget r q = Some (initial_fill z p q)).
Proof.
  intros Hwf Hnt Hdim Hx Hy32 Hz. unfold TransTimes_kernel.
  assert (∃ y0, match z with
                | Some z => bias_fill z p y (Z.of_nat (length y))
                | None => memset0 y (Z.of_nat (length y))
                end = Some y0 ∧ length y0 = length y ∧
            ∀ q, 0 ≤ q < Z.of_nat (length y) →
                 vget y0 q = Some (initial_fill z p q))
    as (y0 & -> & Hlen0 & Hinit).
  { destruct z as [zl|]; simpl.
    - by apply bias_fill_spec, Hz.
    - destruct (memset0_spec y (Z.of_nat (length y)))
        as (y0 & Hy0 & Hl0 & Hz0 & _); [lia|].
      exists y0. done. }
  simpl. unfold to_size_t. rewrite (Z.mod_small dim) by lia.
  destruct (Z.eqb_spec dim 0); [lia|].
  set (m' := Z.of_nat (length y) / dim).
  assert (m' * dim ≤ Z.of_nat (length y)) as Hm'.
  { unfold m'. rewrite Z.mul_comm. apply Z.mul_div_le. lia. }
  destruct (Updates_TransTimes_team (length y) D x m m' dim nt Hwf
              ltac:(lia) Hx Hm' Hy32 y0 Hlen0) as (r & Hr & Hlenr & Hq).
  exists r. split; [exact Hr|]. split; [done|]. split.
  - intros e k He Hk.
    assert (0 ≤ e * dim + k < Z.of_nat (length y)) as Hq0.
    { split; [apply Z.add_nonneg_nonneg; [apply Z.mul_nonneg_nonneg|]; lia|].
      assert ((e + 1) * dim ≤ m' * dim)
        by (apply Z.mul_le_mono_nonneg_r; lia). lia. }
    rewrite (Hq _ _ (Hinit _ Hq0)).
    by rewrite TransTimes_team_acc_at.
  - intros q Hq0.
    assert (0 ≤ m' * dim).
    { apply Z.mul_nonneg_nonneg; [|lia]. apply Z.div_pos; lia. }
    rewrite (Hq q _ (Hinit q ltac:(lia))).
    by rewrite TransTimes_team_acc_tail by lia.
Qed.
End TransTimesLemmas.

(** ** The even segmentation meets the contract *)
Lemma even_split_contract : SegmentContract even_split.
Proof.
  split.
  - intros n t nt i Ht. unfold Range.Has, even_split. simpl.
    rewrite andb_true_iff, Z.leb_le, Z.ltb_lt, !Z.sub_0_r. intros [Hb He].
    destruct (Z.le_gt_cases 0 n) as [Hn|Hn].
    + split.
      * etrans; [|exact Hb]. apply Z.div_pos; [|lia].
        apply Z.mul_nonneg_nonneg; lia.
      * eapply Z.lt_le_trans; [exact He|].
        apply Z.div_le_upper_bound; [lia|].
        rewrite (Z.mul_comm nt n). apply Z.mul_le_mono_nonneg_l; lia.
    + exfalso.
      assert (n * (t + 1) / nt ≤ n * t / nt); [|lia].
      apply Z.div_le_mono; [lia|]. nia.
  - intros n nt i Hnt Hi. exists (((i + 1) * nt - 1) / n).
    assert (0 < n) as Hn by lia.
    set (t := ((i + 1) * nt - 1) / n).
    assert (n * t ≤ (i + 1) * nt - 1) as Hlo
      by (unfold t; apply Z.mul_div_le; lia).
    assert ((i + 1) * nt - 1 < n * (t + 1)) as Hhi.
    { unfold t. pose proof (Z.mod_pos_bound ((i + 1) * nt - 1) n Hn).
      pose proof (Z.div_mod ((i + 1) * nt - 1) n ltac:(lia)). lia. }
    assert (0 ≤ t) by (unfold t; apply Z.div_pos; nia).
    assert (t < nt).
    { unfold t. apply Z.div_lt_upper_bound; [lia|]. nia. }
    split; [lia|].
    unfold Range.Has, even_split. simpl.
    rewrite andb_true_iff, Z.leb_le, Z.ltb_lt, !Z.sub_0_r. split.
    + assert (n * t / nt < i + 1); [|lia].
      apply Z.div_lt_upper_bound; [lia|]. lia.
    + assert (i + 1 ≤ n * (t + 1) / nt); [|lia].
      apply Z.div_le_lower_bound; [lia|]. lia.
  - intros n t t' nt i Ht Ht'. unfold Range.Has, even_split. simpl.
    rewrite !andb_true_iff, !Z.leb_le, !Z.ltb_lt, !Z.sub_0_r.
    intros [Hb He] [Hb' He'].
    assert (0 ≤ n).
    { destruct (Z.le_gt_cases 0 n) as [|Hn]; [done|]. exfalso.
      assert (n * (t + 1) / nt ≤ n * t / nt); [|lia].
      apply Z.div_le_mono; [lia|]. nia. }
    destruct (Z.lt_trichotomy t t') as [Hlt|[Heq|Hgt]]; [|done|]; exfalso.
    + assert (n * (t + 1) / nt ≤ n * t' / nt); [|lia].
      apply Z.div_le_mono; [lia|]. apply Z.mul_le_mono_nonneg_l; lia.
    + assert (n * (t' + 1) / nt ≤ n * t / nt); [|lia].
      apply Z.div_le_mono; [lia|]. apply Z.mul_le_mono_nonneg_l; lia.
Qed.

(** ** Exact arithmetic: accumulation in storage order is the sum *)
Section ExactLemmas.
Context {V : Type} `{ExactScalar V}.
Implicit Types (D : RowBlock.t V) (x y : list V).

Lemma add_zero_r (a : V) : add a zero = a.
Proof. by rewrite add_comm, add_zero_l. Qed.

Lemma fold_left_add_sum (l : list Z) (f : Z → V) (a : V) :
  fold_left (λ acc j, add acc (f j)) l a = add a (sum_over l f).
Proof.
  revert a. induction l as [|j l IH]; intros a; simpl.
  - by rewrite add_zero_r.
  - by rewrite IH, add_assoc.
Qed.

Lemma contrib_weight D j (s : V) : contrib D j s = mul (weight D j) s.
Proof.
  unfold contrib, weight. destruct (RowBlock.value D).
  - apply mul_comm.
  - by rewrite mul_one_l.
Qed.

Lemma row_acc_Dx D x dim i k : row_acc D x dim i k zero = Dx D x dim i k.
Proof.
  unfold row_acc, Dx.
  rewrite (fold_left_ext_in _
    (λ acc j, add acc (mul (weight D j) (vat x (col D j * dim + k)))))
    by (intros; by rewrite contrib_weight).
  by rewrite fold_left_add_sum, add_zero_l.
Qed.

Lemma col_acc_DTx D x dim e k (a : V) :
  col_acc D x dim e k a = add a (DTx D x dim e k).
Proof.
  unfold col_acc, DTx.
  rewrite <- fold_left_add_sum. apply fold_left_ext_in. intros i acc _.
  rewrite <- fold_left_add_sum. apply fold_left_ext_in. intros j b _.
  destruct (col D j =? e).
  - by rewrite contrib_weight.
  - by rewrite add_zero_r.
Qed.

Lemma is_zero_false (p : V) : is_zero p = false → p ≠ zero.
Proof.
  intros Hp Heq. apply is_zero_spec in Heq. congruence.
Qed.

Lemma is_zero_true (p : V) : is_zero p = true → p = zero.
Proof. apply is_zero_spec. Qed.
End ExactLemmas.

(** ** The public functions *)
Section PublicLemmas.
Context {V : Type} `{Scalar V}.
Variable Segment : Range.t → Z → Z → Range.t.
Hypothesis Segment_ok : SegmentContract Segment.
Implicit Types (D : RowBlock.t V) (x y : list V).

Lemma to_int_small z : 0 ≤ z < 2 ^ 31 → to_int z = z.
Proof. intros Hz. unfold to_int. rewrite Z.mod_small; lia. Qed.

Lemma slice_decompose dim n q :
  0 < dim → 0 ≤ q < n * dim →
  ∃ i k, 0 ≤ i < n ∧ 0 ≤ k < dim ∧ q = i * dim + k.
Proof.
  intros Hd Hq. exists (q / dim), (q mod dim).
  pose proof (Z.mod_pos_bound q dim Hd).
  pose proof (Z.div_mod q dim ltac:(lia)).
  split; [|split; [done|lia]].
  split; [apply Z.div_pos; lia|].
  apply Z.div_lt_upper_bound; lia.
Qed.

Lemma shape_dim (l : list V) n dim :
  0 < n → 0 ≤ dim → Z.of_nat (length l) = n * dim →
  Z.of_nat (length l) / n = dim.
Proof. intros Hn Hd ->. rewrite Z.mul_comm. apply Z.div_mul. lia. Qed.

Lemma Times_rows D x y m dim nt :
  wf_matrix D m → 0 < RowBlock.size D → 0 < nt →
  0 < dim < 2 ^ 31 → 0 < m → m * dim ≤ 2 ^ 32 →
  Z.of_nat (length x) = m * dim →
  Z.of_nat (length y) = RowBlock.size D * dim →
  ∃ r, Times Segment D x y nt = Some r ∧ length r = length y ∧
       ∀ i k, 0 ≤ i < RowBlock.size D → 0 ≤ k < dim →
         vget r (i * dim + k) = Some (row_acc D x dim i k zero).
Proof.
  intros Hwf Hn Hnt Hdim Hm Hm32 Hx Hy. unfold Times.
  destruct (Nat.eqb_spec (length x) 0) as [Hx0|_]; [nia|].
  destruct (Z.eqb_spec (RowBlock.size D) 0); [lia|].
  rewrite (shape_dim y _ dim) by lia.
  rewrite to_int_small by lia.
  destruct (Times_kernel_spec Segment Segment_ok D x y m dim nt)
    as (r & Hr & Hlen & Hrows & _); try done; try lia.
  exists r. done.
Qed.

Lemma Times_nt_irrelevant D x y m dim nt :
  wf_matrix D m → 0 < nt → 0 ≤ dim < 2 ^ 31 → m * dim ≤ 2 ^ 32 →
  Z.of_nat (length x) = m * dim →
  Z.of_nat (length y) = RowBlock.size D * dim →
  Times Segment D x y nt = Times Segment D x y 1.
Proof.
  intros Hwf Hnt Hdim Hm32 Hx Hy. unfold Times.
  destruct (Nat.eqb_spec (length x) 0) as [|Hx0]; [done|].
  destruct (Z.eqb_spec (RowBlock.size D) 0) as [|Hn]; [done|].
  pose proof (wf_size D m Hwf) as Hn0.
  rewrite (shape_dim y _ dim) by lia.
  rewrite to_int_small by lia.
  destruct (Times_kernel_spec Segment Segment_ok D x y m dim nt)
    as (r & -> & Hlen & Hrows & _); try done; try lia.
  destruct (Times_kernel_spec Segment Segment_ok D x y m dim 1)
    as (r1 & -> & Hlen1 & Hrows1 & _); try done; try lia.
  f_equal. apply vget_ext; [congruence|].
  intros q Hq. rewrite Hlen, Hy in Hq.
  destruct (slice_decompose dim (RowBlock.size D) q)
    as (i & k & Hi & Hk & ->); [nia|done|].
  by rewrite Hrows, Hrows1.
Qed.

Lemma TransTimes_bias_cols D x p z y m dim nt :
  wf_matrix D m → 0 < RowBlock.size D → 0 < nt →
  0 < dim < 2 ^ 31 →
  Z.of_nat (length x) = RowBlock.size D * dim →
  Z.of_nat (length y) = m * dim → m * dim ≤ 2 ^ 32 →
  ∃ r, TransTimes_bias Segment D x p z y nt = Some r ∧
       length r = length y ∧
       ∀ e k, 0 ≤ e < m → 0 ≤ k < dim →
         vget r (e * dim + k) =
         Some (col_acc D x dim e k
                 (if bias_applied p z y
                  then mul (vat z (e * dim + k)) p else zero)).
Proof.
  intros Hwf Hn Hnt Hdim Hx Hy Hm32. unfold TransTimes_bias.
  destruct (Nat.eqb_spec (length x) 0) as [Hx0|_]; [nia|].
  destruct (Z.eqb_spec (RowBlock.size D) 0); [lia|].
  rewrite (shape_dim x _ dim) by lia.
  rewrite to_int_small by lia.
  assert (Z.of_nat (length y) / dim = m) as Hm'.
  { rewrite Hy. apply Z.div_mul. lia. }
  fold (bias_applied p z y).
  destruct (bias_applied p z y) eqn:Hb.
  - destruct (TransTimes_kernel_spec Segment Segment_ok D x (Some z) p y
                m dim nt) as (r & Hr & Hlen & Hcols & _);
      try done; try lia.
    { intros zl [= <-]. unfold bias_applied in Hb.
      apply andb_true_iff in Hb as [Hb _]. by apply Nat.eqb_eq in Hb. }
    exists r. split; [done|]. split; [done|].
    intros e k He Hk. rewrite Hcols by lia. done.
  - destruct (TransTimes_kernel_spec Segment Segment_ok D x None zero y
                m dim nt) as (r & Hr & Hlen & Hcols & _);
      try done; try lia.
    exists r. split; [done|]. split; [done|].
    intros e k He Hk. rewrite Hcols by lia. done.
Qed.

Lemma TransTimes_bias_nt_irrelevant D x p z y m dim nt :
  wf_matrix D m → 0 < nt → 0 ≤ dim < 2 ^ 31 →
  Z.of_nat (length x) = RowBlock.size D * dim →
  Z.of_nat (length y) = m * dim → m * dim ≤ 2 ^ 32 →
  TransTimes_bias Segment D x p z y nt =
  TransTimes_bias Segment D x p z y 1.
Proof.
  intros Hwf Hnt Hdim Hx Hy Hm32.
  destruct (Nat.eqb_spec (length x) 0) as [Hx0|Hx0].
  { unfold TransTimes_bias. by rewrite Hx0. }
  destruct (Z.eqb_spec (RowBlock.size D) 0) as [Hn|Hn].
  { unfold TransTimes_bias. rewrite Hn. simpl.
    by destruct (length x =? 0)%nat. }
  pose proof (wf_size D m Hwf) as Hn0.
  destruct (TransTimes_bias_cols D x p z y m dim nt)
    as (r & -> & Hlen & Hcols); try done; try nia.
  destruct (TransTimes_bias_cols D x p z y m dim 1)
    as (r1 & -> & Hlen1 & Hcols1); try done; try nia.
  f_equal. apply vget_ext; [congruence|].
  intros q Hq. rewrite Hlen, Hy in Hq.
  destruct (slice_decompose dim m q)
    as (e & k & He & Hk & ->); [nia|done|].
  by rewrite Hcols, Hcols1.
Qed.

(** When the bias is not applied the call is the plain [TransTimes]. *)
Lemma TransTimes_bias_ignored D x p z y nt :
  bias_applied p z y = false →
  TransTimes_bias Segment D x p z y nt = TransTimes Segment D x y nt.
Proof.
  intros Hb. unfold TransTimes, TransTimes_bias.
  fold (bias_applied p z y). fold (bias_applied zero [] y).
  rewrite Hb.
  destruct (length x =? 0)%nat; [done|].
  destruct (RowBlock.size D =? 0); [done|].
  destruct (bias_applied zero [] y) eqn:Hb0; [|done].
  unfold bias_applied in Hb0. apply andb_true_iff in Hb0 as [Hy _].
  apply Nat.eqb_eq in Hy. simpl in Hy.
  destruct y; [|done].
  unfold TransTimes_kernel. simpl. done.
Qed.
End PublicLemmas.

Ltac zrange_cases H :=
  apply (proj2 (elem_of_zrange _ _ _)) in H; vm_compute in H;
  repeat (apply elem_of_cons in H as [->|H]);
  try (apply elem_of_nil in H; destruct H).

Lemma D32_wf : wf_matrix D32 2.
Proof.
  split; simpl; try done.
  - intros i Hi. zrange_cases Hi; vm_compute; split; discriminate.
  - by intros vals [= <-].
  - intros j Hj. zrange_cases Hj; vm_compute; split; congruence.
Qed.

Lemma D10_wf : wf_matrix D10 0.
Proof.
  split; simpl; try done.
  - intros i Hi. zrange_cases Hi; vm_compute; split; discriminate.
  - by intros vals [= <-].
  - intros j Hj. lia.
Qed.

Lemma D01_wf : wf_matrix D01 1.
Proof.
  split; simpl; try done.
  - intros i Hi. lia.
  - by intros vals [= <-].
  - intros j Hj. lia.
Qed.

Lemma Dwide_wf : wf_matrix Dwide (2 ^ 31 + 1).
Proof.
  split; simpl; try done.
  - intros i Hi. assert (i = 0) as -> by lia. vm_compute. split; discriminate.
  - by intros vals [= <-].
  - intros j Hj. assert (j = 0) as -> by lia. vm_compute. split; congruence.
Qed.

(** The length of the vector is kept abstract: nothing below depends on
    the evaluation of [2^32] as a natural number. *)
Lemma vat_sparse_tail (N : nat) (q : Z) :
  2 ≤ q → vat (1 :: 1 :: replicate N 0) q = 0.
Proof.
  intros Hq. unfold vat, vget.
  destruct (Z.leb_spec 0 q); [|lia].
  destruct (Z.to_nat q) as [|[|n]] eqn:Hn; [lia|lia|]. simpl.
  destruct (replicate N 0 !! n) eqn:Hl; [|done].
  apply lookup_replicate in Hl as [-> _]. done.
Qed.

Lemma length_wide (N : nat) :
  Z.of_nat N = 2 ^ 32 →
  Z.of_nat (length (1 :: 1 :: replicate N 0)) = (2 ^ 31 + 1) * 2.
Proof. intros HN. cbn [length]. rewrite length_replicate. lia. Qed.

Lemma Times_wide (N : nat) :
  Times even_split Dwide (1 :: 1 :: replicate N 0) [7; 7] 1 = Some [1; 1].
Proof. vm_compute. reflexivity. Qed.

Lemma Dx_wide (N : nat) (k : Z) :
  0 ≤ k → Dx Dwide (1 :: 1 :: replicate N 0) 2 0 k = 0.
Proof.
  intros Hk. unfold Dx.
  change (zrange (row_begin Dwide 0) (row_end Dwide 0)) with [0].
  unfold sum_over. cbn [foldr].
  rewrite vat_sparse_tail; [reflexivity|].
  change (col Dwide 0) with (2 ^ 31). lia.
Qed.

(** ** ProcessFile: the invariants hold in every execution *)
Section ProcessFileLemmas.
Import ProcessFile.

Lemma take_out_Some b l l' :
  take_out b l = Some l' →
  b ∈ l ∧ length l = S (length l') ∧
  (∀ x, x ∈ l' → x ∈ l) ∧ (∀ x, x ∈ l → x = b ∨ x ∈ l').
Proof.
  revert l'. induction l as [|a l IH]; intros l' Ht; [done|].
  simpl in Ht. destruct (Nat.eqb_spec a b) as [->|Hne].
  - injection Ht as ->. split; [left|]. split; [done|].
    split; intros x Hx; [by right|].
    apply elem_of_cons in Hx as [->|Hx]; [by left|by right].
  - destruct (take_out b l) as [l''|] eqn:Hl; [|done].
    injection Ht as <-. destruct (IH l'' eq_refl) as (Hb & Hlen & Hsub & Hsup).
    split; [by right|]. split; [simpl; lia|].
    split; intros x Hx.
    + apply elem_of_cons in Hx as [->|Hx]; [left|right; by apply Hsub].
    + apply elem_of_cons in Hx as [->|Hx]; [right; left|].
      destruct (Hsup x Hx) as [->|Hx']; [by left|right; by right].
Qed.

Lemma Before_nil e1 e2 : Before e1 e2 [].
Proof. intros [|? ?] post Heq; done. Qed.

Lemma Before_cons e1 e2 e tr :
  (e = e2 → e1 ∈ tr) → Before e1 e2 tr → Before e1 e2 (e :: tr).
Proof.
  intros He Htr [|a pre] post Heq; simpl in Heq.
  - injection Heq as -> ->. by apply He.
  - injection Heq as -> ->. by apply (Htr pre post).
Qed.

Lemma RightAfter_nil e1 e2 : RightAfter e1 e2 [].
Proof. intros [|? ?] post Heq; done. Qed.

Lemma RightAfter_cons e1 e2 e tr :
  (e = e2 → ∃ tr', tr = e1 :: tr') → RightAfter e1 e2 tr →
  RightAfter e1 e2 (e :: tr).
Proof.
  intros He Htr [|a pre] post Heq; simpl in Heq.
  - injection Heq as -> ->. by apply He.
  - injection Heq as -> ->. by apply (Htr pre post).
Qed.

(** Inversion of a step: the cases of [step], with the state split in
    its fields. *)
Ltac step_cases job n a s Hstep :=
  unfold remains, Tracker.NumRemains in *;
  destruct s as [p nb rem cp pl gp tr]; simpl in *;
  unfold step, main_step, store_step, Tracker.NumRemains, Tracker.Add_one,
    Tracker.complete in Hstep;
  destruct a as [|b|b|b]; simpl in Hstep;
  [ destruct p as [|b|b|b| |]; simpl in Hstep;
    [ destruct (Nat.ltb_spec nb n);
      [destruct (push_cnt job) eqn:Hpc|]
    | case_bool_decide
    | destruct (Z.ltb_spec 10 rem)
    | idtac
    | destruct (Z.ltb_spec 0 rem)
    | idtac ]
  | destruct (take_out b cp) as [cp'|] eqn:Ht; simpl in Hstep;
    [apply take_out_Some in Ht as (Tin & Tlen & Tsub & Tsup)|]
  | destruct (take_out b pl) as [pl'|] eqn:Ht; simpl in Hstep;
    [apply take_out_Some in Ht as (Tin & Tlen & Tsub & Tsup);
     destruct (Job.type_eqb (Job.type_ job) Job.kTraining) eqn:Htr;
     [|destruct (Job.type_eqb (Job.type_ job) Job.kPrediction)]|]
  | destruct (take_out b gp) as [gp'|] eqn:Ht; simpl in Hstep;
    [apply take_out_Some in Ht as (Tin & Tlen & Tsub & Tsup)|] ];
  simplify_eq; simpl in *.

Lemma CountInv_init : CountInv init.
Proof. split; unfold remains; simpl; intros; first [lia | done]. Qed.

Lemma CountInv_step job n a s s' :
  CountInv s → step job n a s = Some s' → CountInv s'.
Proof.
  intros [Hc Ha Hb Hr] Hstep.
  step_cases job n a s Hstep;
    (split; unfold remains, Tracker.NumRemains; simpl; intros; simplify_eq;
     try specialize (Ha _ eq_refl); try specialize (Hr eq_refl);
     first [lia | done]).
Qed.

Lemma BatchInv_init job n : BatchInv job n init.
Proof.
  split; simpl; intros;
    first [ lia | done | apply Before_nil | apply RightAfter_nil
          | by match goal with H : _ ∈ [] |- _ =>
                 apply not_elem_of_nil in H end
          | by match goal with H : _ ∨ _ |- _ => destruct H end ].
Qed.

Ltac mem_tac :=
  solve [ repeat first [ assumption | apply list_elem_of_here
                       | apply list_elem_of_further ]
        | eauto 7 using list_elem_of_here, list_elem_of_further ].

Ltac order_tac :=
  repeat first
    [ apply Before_cons; [intros ?; simplify_eq; try mem_tac |]
    | apply RightAfter_cons; [intros ?; simplify_eq; eauto |] ];
  eauto.

(** A hypothesis of membership in a list a step has changed. *)
Ltac mem_cases :=
  repeat match goal with
  | H : _ ∈ _ :: _ |- _ => apply elem_of_cons in H as [->|H]
  | Hs : (∀ x, x ∈ ?l' → x ∈ ?l), H : _ ∈ ?l' |- _ => apply Hs in H
  end.

Ltac batches_tac Hb :=
  match goal with
  | |- Some ?nb = Some ?b ∨ _ =>
      destruct (decide (b = nb)) as [->|];
      [by left|destruct (Hb b ltac:(lia)) as [?|[?|[?|?]]]]
  | Hlt : (?b < _)%nat |- _ =>
      destruct (Hb b Hlt) as [?|[?|[?|?]]]
  end;
  simplify_eq;
  repeat match goal with
  | Hs : (∀ x, x ∈ ?l → x = _ ∨ x ∈ _), H : _ ∈ ?l |- _ =>
      apply Hs in H as [->|H]
  end;
  first [ by left | right; left; mem_tac | right; right; left; mem_tac
        | right; right; right; mem_tac ].

Lemma nil_length_nonpos {A} (l1 l2 : list A) (x : A) :
  Z.of_nat (length l1) + Z.of_nat (length l2) ≤ 0 →
  x ∈ l1 ∨ x ∈ l2 → False.
Proof.
  destruct l1, l2; simpl; intros Hl [Hx|Hx]; try lia;
    by apply not_elem_of_nil in Hx.
Qed.

Lemma BatchInv_step job n a s s' :
  CountInv s →
  BatchInv job n s → step job n a s = Some s' → BatchInv job n s'.
Proof.
  intros [Hcnt _ _ _] [Hn Hd Hb Hc Hg Ho Hr He] Hstep.
  unfold is_training in *.
  step_cases job n a s Hstep;
    (split; simpl; intros; unfold is_training in *; simplify_eq;
     first [ lia | done | congruence | by order_tac
           | by match goal with H : _ ∨ _ |- _ => destruct H end
           | by (mem_cases; mem_tac)
           | by batches_tac Hb
           | idtac ]).
  apply Before_cons; [intros _|by apply Hr].
  assert (nb = n) as -> by (apply Hd; by left).
  destruct (Hb b) as [?|[Hp|[Hp|?]]]; [lia|done| | |done];
    exfalso; apply (nil_length_nonpos pl gp b); (lia || eauto).
Qed.

Lemma LinkInv_init job : LinkInv job init.
Proof.
  split; simpl; intros;
    first [ done
          | by match goal with H : _ ∈ [] |- _ =>
                 apply not_elem_of_nil in H end
          | by match goal with H : _ ∨ _ |- _ => destruct H end ].
Qed.

Ltac inv_mem :=
  repeat match goal with
  | H : _ ∈ [] |- _ => by apply not_elem_of_nil in H
  | H : _ ∈ _ :: _ |- _ =>
      apply elem_of_cons in H as [H|H]; [simplify_eq|]
  | Hs : (∀ x, x ∈ ?l' → x ∈ ?l), H : _ ∈ ?l' |- _ => apply Hs in H
  end.

Ltac climb :=
  repeat first [ apply list_elem_of_here | apply list_elem_of_further ].

Ltac close_tac :=
  first [ done | congruence | solve [climb; eauto 3] ].

Lemma LinkInv_step job n a s s' :
  LinkInv job s → step job n a s = Some s' → LinkInv job s'.
Proof.
  intros [Hc Hi Hp Hcw Hw Hh] Hstep.
  step_cases job n a s Hstep; split; simpl.
  all: try (intros b0 c Hin; inv_mem; close_tac).
  all: try (intros b0 Hin; inv_mem; close_tac).
  all: try (intros b0 Hin; inv_mem; try done;
            specialize (Hcw _ Hin); by simplify_eq).
  all: intros b0 Hpc0; try destruct Hpc0 as [Hpc0|Hpc0]; simplify_eq;
    try destruct (Hw _ eq_refl) as (Hw1 & Hw2 & Hw3);
    try destruct (Hh _ (or_introl eq_refl)) as (Hh1 & Hh2);
    try destruct (Hh _ (or_intror eq_refl)) as (Hh1 & Hh2);
    rewrite ?Hw1, ?Hpc;
    repeat match goal with |- _ ∧ _ => split end;
    intros; try close_tac.
  all: try (destruct Hw3 as [Hin|Hin];
            [try (apply Tsup in Hin as [->|Hin])|];
            first [ left; close_tac | right; close_tac ]).
  all: left; close_tac.
Qed.

Lemma OrderInv_init job : OrderInv job init.
Proof.
  split; simpl; intros; first [apply Before_nil | apply RightAfter_nil].
Qed.

Lemma OrderInv_step job n a s s' :
  LinkInv job s →
  OrderInv job s → step job n a s = Some s' → OrderInv job s'.
Proof.
  intros [Hc Hi Hp Hcw Hw Hh] [Hop Hoc How Hoa Hom Hol] Hstep.
  step_cases job n a s Hstep; split; simpl; intros.
  all: repeat first
    [ apply Before_cons; [intros ?; simplify_eq|]
    | apply RightAfter_cons; [intros ?; simplify_eq|] ].
  all: try rewrite Hpc.
  all: try close_tac.
  - destruct (Hw _ eq_refl) as (_ & _ & [Hin|Hin]); done.
  - destruct (Hh b0) as [_ Hwr]; [by right|]. by apply Hwr.
  - destruct (Hh b0) as [Hcm _]; [by right|]. done.
Qed.

Lemma run_invariants job n sched s0 s :
  CountInv s0 → BatchInv job n s0 → LinkInv job s0 → OrderInv job s0 →
  run job n sched s0 = Some s →
  CountInv s ∧ BatchInv job n s ∧ LinkInv job s ∧ OrderInv job s.
Proof.
  revert s0. induction sched as [|a sched IH]; intros s0 Hc Hb Hl Ho Hrun.
  - injection Hrun as <-. done.
  - unfold run in Hrun. simpl in Hrun.
    destruct (step job n a s0) as [s1|] eqn:Hstep; [|done].
    simpl in Hrun. apply (IH s1); try done.
    + by apply (CountInv_step job n a s0).
    + by apply (BatchInv_step job n a s0).
    + by apply (LinkInv_step job n a s0).
    + by apply (OrderInv_step job n a s0).
Qed.

Lemma reachable_invariants job n sched s :
  run job n sched init = Some s →
  CountInv s ∧ BatchInv job n s ∧ LinkInv job s ∧ OrderInv job s.
Proof.
  apply run_invariants.
  - apply CountInv_init.
  - apply BatchInv_init.
  - apply LinkInv_init.
  - apply OrderInv_init.
Qed.

Lemma RightAfter_Before e1 e2 tr : RightAfter e1 e2 tr → Before e1 e2 tr.
Proof.
  intros Hr pre post Heq. destruct (Hr pre post Heq) as [post' ->]. left.
Qed.

Lemma Before_trans e1 e2 e3 tr :
  Before e1 e2 tr → Before e2 e3 tr → Before e1 e3 tr.
Proof.
  intros H12 H23 pre post Heq.
  pose proof (H23 pre post Heq) as Hin.
  apply list_elem_of_split in Hin as (p1 & p2 & ->).
  apply elem_of_app. right. right.
  apply (H12 (pre ++ e3 :: p1) p2).
  rewrite Heq. by rewrite <- app_assoc.
Qed.

Lemma Before_elem_of e1 e2 tr : Before e1 e2 tr → e2 ∈ tr → e1 ∈ tr.
Proof.
  intros Hb Hin. apply list_elem_of_split in Hin as (p1 & p2 & ->).
  apply elem_of_app. right. right. by apply (Hb p1 p2).
Qed.

Lemma push_cnt_spec job :
  push_cnt job = true ↔
  Job.type_ job = Job.kTraining ∧ Job.epoch job = 0.
Proof.
  unfold push_cnt. rewrite andb_true_iff, Z.eqb_eq.
  destruct (Job.type_ job); simpl; split; intros []; done.
Qed.

(** *** The flow of the batches and the consumer *)
Lemma take_out_perm b l l' : take_out b l = Some l' → l ≡ₚ b :: l'.
Proof.
  revert l'. induction l as [|a l IH]; intros l' Ht; [done|].
  simpl in Ht. destruct (Nat.eqb_spec a b) as [->|Hne].
  - by injection Ht as ->.
  - destruct (take_out b l) as [l''|] eqn:Hl; [|done].
    injection Ht as <-. rewrite (IH l'' eq_refl). apply Permutation_swap.
Qed.

(** Inversion of a step that also keeps the permutation behind
    [take_out] and the type of the job. *)
Ltac step_perm job n a s Hstep :=
  unfold remains, Tracker.NumRemains in *;
  destruct s as [p nb rem cp pl gp tr]; simpl in *;
  unfold step, main_step, store_step, Tracker.NumRemains, Tracker.Add_one,
    Tracker.complete in Hstep;
  destruct a as [|b|b|b]; simpl in Hstep;
  [ destruct p as [|b|b|b| |]; simpl in Hstep;
    [ destruct (Nat.ltb_spec nb n);
      [destruct (push_cnt job) eqn:Hpc|]
    | case_bool_decide
    | destruct (Z.ltb_spec 10 rem)
    | idtac
    | destruct (Z.ltb_spec 0 rem)
    | idtac ]
  | destruct (take_out b cp) as [cp'|] eqn:Ht; simpl in Hstep;
    [pose proof (take_out_perm _ _ _ Ht) as Tperm;
     apply take_out_Some in Ht as (Tin & Tlen & Tsub & Tsup)|]
  | destruct (take_out b pl) as [pl'|] eqn:Ht; simpl in Hstep;
    [pose proof (take_out_perm _ _ _ Ht) as Tperm;
     apply take_out_Some in Ht as (Tin & Tlen & Tsub & Tsup);
     destruct (Job.type_eqb (Job.type_ job) Job.kTraining) eqn:Htr;
     [|destruct (Job.type_eqb (Job.type_ job) Job.kPrediction) eqn:Hpr]|]
  | destruct (take_out b gp) as [gp'|] eqn:Ht; simpl in Hstep;
    [pose proof (take_out_perm _ _ _ Ht) as Tperm;
     apply take_out_Some in Ht as (Tin & Tlen & Tsub & Tsup)|] ];
  simplify_eq; simpl in *.

Lemma FlowInv_init : FlowInv init.
Proof. split; simpl; intros; done. Qed.

Lemma FlowInv_step job n a s s' :
  FlowInv s → step job n a s = Some s' → FlowInv s'.
Proof.
  intros [Hh Ha Hp] Hstep. unfold handed_over in *.
  step_perm job n a s Hstep; split; unfold handed_over; simpl;
    intros; simplify_eq; try done.
  all: try (by apply Hh).
  - rewrite (Hh b eq_refl), seq_S, rev_app_distr. simpl. by rewrite Ha.
  - rewrite <- Hp. by rewrite <- Permutation_middle.
  - rewrite <- Hp, Tperm. simpl. by rewrite <- ?Permutation_middle.
  - rewrite <- Hp, Tperm. simpl. by rewrite <- ?Permutation_middle.
  - rewrite <- Hp, Tperm. simpl. by rewrite <- ?Permutation_middle.
  - rewrite <- Hp, Tperm. simpl. by rewrite <- ?Permutation_middle.
Qed.

Lemma type_eqb_eq a b : Job.type_eqb a b = true → a = b.
Proof. by destruct a, b. Qed.

Lemma ConsumerInv_init job : ConsumerInv job init.
Proof.
  split; simpl; intros;
    first [ done | apply Before_nil | apply RightAfter_nil
          | by match goal with H : _ ∈ [] |- _ =>
                 apply not_elem_of_nil in H end
          | idtac ].
  all: repeat match goal with H : _ ∨ _ |- _ => destruct H end.
  all: by match goal with H : _ ∈ [] |- _ =>
              apply not_elem_of_nil in H end.
Qed.

Lemma ConsumerInv_step job n a s s' :
  ConsumerInv job s → step job n a s = Some s' → ConsumerInv job s'.
Proof.
  intros [Hpl Hgp Hcp Hwt Hop Hoe Hoc Hou Hod Hom Htrn Hcnt Hprd] Hstep.
  unfold is_training in *.
  step_perm job n a s Hstep; split; simpl; intros.
  all: repeat first
    [ apply Before_cons; [intros ?; simplify_eq|]
    | apply RightAfter_cons; [intros ?; simplify_eq|] ].
  all: try close_tac.
  all: unfold is_training.
  all: repeat match goal with H : _ ∨ _ |- _ => destruct H end.
  all: inv_mem.
  all: try rewrite Hpc.
  all: try close_tac.
  all: try (by apply type_eqb_eq).
  all: try (by eapply Hprd).
  all: try (eapply Htrn; eauto; fail).
  all: try (eapply Hcnt; eauto; fail).
  all: try (eapply Hcp; eauto; fail).
  all: try (eapply Hwt; eauto; fail).
  all: try (match goal with H : _ ∈ _ |- _ ∧ _ =>
              destruct (Hgp _ H); split; [done|climb; done] end).
  all: try exact Htr.
  all: try (split; [exact Htr|by climb]).
  all: try (by apply list_elem_of_further, Hgp).
  all: try (by eapply Hgp).
  all: try (rewrite Htr; eapply Htrn; eauto; fail).
Qed.

Lemma run_flow job n sched s0 s :
  FlowInv s0 → ConsumerInv job s0 → run job n sched s0 = Some s →
  FlowInv s ∧ ConsumerInv job s.
Proof.
  revert s0. induction sched as [|a sched IH]; intros s0 Hf Hc Hrun.
  - injection Hrun as <-. done.
  - unfold run in Hrun. simpl in Hrun.
    destruct (step job n a s0) as [s1|] eqn:Hstep; [|done].
    simpl in Hrun. apply (IH s1); try done.
    + by apply (FlowInv_step job n a s0).
    + by apply (ConsumerInv_step job n a s0).
Qed.

Lemma reachable_flow job n sched s :
  run job n sched init = Some s → FlowInv s ∧ ConsumerInv job s.
Proof.
  apply run_flow; [apply FlowInv_init|apply ConsumerInv_init].
Qed.

Lemma run_app job n sched1 sched2 s :
  run job n (sched1 ++ sched2) s
  = run job n sched1 s ≫= run job n sched2.
Proof.
  unfold run. revert s. induction sched1 as [|a sched1 IH]; intros s; [done|].
  simpl. destruct (step job n a s) as [s1|]; [|done]. simpl. apply IH.
Qed.

Lemma run_cons job n a sched s s1 :
  step job n a s = Some s1 →
  run job n (a :: sched) s = run job n sched s1.
Proof. intros Hs. unfold run. simpl. by rewrite Hs. Qed.

(** The store completes the pushes of the counts that are in flight. *)
Lemma drain_counts job n p nb t cp pl gp tr :
  ∃ sched tr',
    run job n sched (MkState p nb t cp pl gp tr)
    = Some (MkState p nb t [] pl gp tr').
Proof.
  revert tr. induction cp as [|b cp IH]; intros tr.
  - by exists [], tr.
  - destruct (IH (FeaCountDone b :: tr)) as (sched & tr' & Hrun).
    exists (StoreCount b :: sched), tr'.
    rewrite (run_cons _ _ _ _ _
               (MkState p nb t cp pl gp (FeaCountDone b :: tr))); [done|].
    simpl. by rewrite Nat.eqb_refl.
Qed.

(** The store completes the pushes of the gradients that are in flight. *)
Lemma drain_grads job n p nb t pl gp tr :
  ∃ sched tr',
    run job n sched (MkState p nb t [] pl gp tr)
    = Some (MkState p nb (t - Z.of_nat (length gp)) [] pl [] tr').
Proof.
  revert t tr. induction gp as [|b gp IH]; intros t tr.
  - exists [], tr. simpl. by rewrite Z.sub_0_r.
  - destruct (IH (Tracker.complete t) (Complete b :: GradientDone b :: tr))
      as (sched & tr' & Hrun).
    exists (StoreGrad b :: sched), tr'.
    replace (t - Z.of_nat (length (b :: gp)))
      with (Tracker.complete t - Z.of_nat (length gp))
      by (unfold Tracker.complete; simpl length; lia).
    rewrite <- Hrun. apply run_cons. simpl. by rewrite Nat.eqb_refl.
Qed.

(** The store completes the pulls that are in flight; their callbacks
    complete the batches or push the gradients. *)
Lemma drain_pulls job n p nb t pl gp tr :
  ∃ sched t' gp' tr',
    run job n sched (MkState p nb t [] pl gp tr)
    = Some (MkState p nb t' [] [] gp' tr') ∧
    t' - Z.of_nat (length gp')
    = t - Z.of_nat (length pl) - Z.of_nat (length gp).
Proof.
  revert t gp tr. induction pl as [|b pl IH]; intros t gp tr.
  - exists [], t, gp, tr. split; [done|]. simpl. lia.
  - destruct (Job.type_eqb (Job.type_ job) Job.kTraining) eqn:Htr;
      [|destruct (Job.type_eqb (Job.type_ job) Job.kPrediction) eqn:Hpr].
    + destruct (IH t (b :: gp)
                  (PushGradient b :: CalcGrad b :: Evaluate b
                     :: WeightPulled b :: tr))
        as (sched & t' & gp' & tr' & Hrun & Ht).
      exists (StorePull b :: sched), t', gp', tr'. split.
      * rewrite <- Hrun. apply run_cons. simpl.
        by rewrite Nat.eqb_refl, Htr.
      * rewrite Ht. simpl length. lia.
    + destruct (IH (Tracker.complete t) gp
                  (Complete b :: Predict b :: Evaluate b
                     :: WeightPulled b :: tr))
        as (sched & t' & gp' & tr' & Hrun & Ht).
      exists (StorePull b :: sched), t', gp', tr'. split.
      * rewrite <- Hrun. apply run_cons. simpl.
        by rewrite Nat.eqb_refl, Htr, Hpr.
      * rewrite Ht. unfold Tracker.complete. simpl length. lia.
    + destruct (IH (Tracker.complete t) gp
                  (Complete b :: Evaluate b :: WeightPulled b :: tr))
        as (sched & t' & gp' & tr' & Hrun & Ht).
      exists (StorePull b :: sched), t', gp', tr'. split.
      * rewrite <- Hrun. apply run_cons. simpl.
        by rewrite Nat.eqb_refl, Htr, Hpr.
      * rewrite Ht. unfold Tracker.complete. simpl length. lia.
Qed.

Lemma drain_store job n s :
  ∃ sched tr',
    run job n sched s
    = Some (MkState (pc s) (next_batch s)
              (tracker s - Z.of_nat (length (pulls s))
               - Z.of_nat (length (grad_pushes s))) [] [] [] tr').
Proof.
  destruct s as [p nb t cp pl gp tr]. simpl.
  destruct (drain_counts job n p nb t cp pl gp tr) as (s1 & tr1 & H1).
  destruct (drain_pulls job n p nb t pl gp tr1)
    as (s2 & t2 & gp2 & tr2 & H2 & Ht).
  destruct (drain_grads job n p nb t2 [] gp2 tr2) as (s3 & tr3 & H3).
  exists (s1 ++ s2 ++ s3), tr3.
  rewrite run_app, H1. simpl. rewrite run_app, H2. simpl. rewrite H3.
  by rewrite Ht.
Qed.

(** With nothing in flight, a batch in hand goes through the tracker
    and completes. *)
Lemma finish_batch job n b nb tr :
  ∃ sched tr',
    run job n sched (MkState (Throttle b) nb 0 [] [] [] tr)
    = Some (MkState Reading nb 0 [] [] [] tr').
Proof.
  destruct (drain_store job n
              (MkState Reading nb 1 [] [b] []
                 (PullWeight b :: TrackerAdd b :: tr)))
    as (sched & tr' & Hrun).
  exists (Main :: Main :: sched), tr'.
  rewrite (run_cons _ _ _ _ _ (MkState (Adding b) nb 0 [] [] [] tr)) by done.
  rewrite (run_cons _ _ _ _ _
             (MkState Reading nb 1 [] [b] []
                (PullWeight b :: TrackerAdd b :: tr))) by done.
  by rewrite Hrun.
Qed.

Lemma finish_reading job n k nb tr :
  (n - nb = k)%nat →
  ∃ sched s',
    run job n sched (MkState Reading nb 0 [] [] [] tr) = Some s' ∧
    pc s' = Returned.
Proof.
  revert nb tr. induction k as [|k IH]; intros nb tr Hk.
  - exists [Main; Main], (MkState Returned nb 0 [] [] [] (Return :: tr)).
    split; [|done].
    unfold run. simpl. unfold main_step. simpl.
    destruct (Nat.ltb_spec nb n); [lia|]. simpl. done.
  - assert (∀ tr0, ∃ sched s',
              run job n sched (MkState (Throttle nb) (S nb) 0 [] [] [] tr0)
              = Some s' ∧ pc s' = Returned) as Hthrottle.
    { intros tr0.
      destruct (finish_batch job n nb (S nb) tr0) as (s1 & tr1 & H1).
      destruct (IH (S nb) tr1 ltac:(lia)) as (s2 & s' & H2 & Hpc).
      exists (s1 ++ s2), s'. split; [|done].
      by rewrite run_app, H1. }
    destruct (push_cnt job) eqn:Hpc.
    + destruct (Hthrottle (WaitReturned nb :: FeaCountDone nb
                             :: PushFeaCount nb :: Compact nb true :: tr))
        as (sched & s' & Hrun & Hret).
      exists (Main :: StoreCount nb :: Main :: sched), s'.
      split; [|done]. rewrite <- Hrun.
      rewrite (run_cons _ _ _ _ _
                 (MkState (Waiting nb) (S nb) 0 [nb] [] []
                    (PushFeaCount nb :: Compact nb true :: tr))).
      2: { simpl. unfold main_step. simpl.
           destruct (Nat.ltb_spec nb n); [|lia]. by rewrite Hpc. }
      rewrite (run_cons _ _ _ _ _
                 (MkState (Waiting nb) (S nb) 0 [] [] []
                    (FeaCountDone nb :: PushFeaCount nb
                       :: Compact nb true :: tr))).
      2: { simpl. by rewrite Nat.eqb_refl. }
      apply run_cons. simpl. unfold main_step. simpl.
      first [done | case_bool_decide as Hin;
                  [by apply not_elem_of_nil in Hin|done]].
    + destruct (Hthrottle (Compact nb false :: tr))
        as (sched & s' & Hrun & Hret).
      exists (Main :: sched), s'. split; [|done]. rewrite <- Hrun.
      apply run_cons. simpl. unfold main_step. simpl.
      destruct (Nat.ltb_spec nb n); [|lia]. by rewrite Hpc.
Qed.

Lemma finish_quiet job n p nb tr :
  ∃ sched s',
    run job n sched (MkState p nb 0 [] [] [] tr) = Some s' ∧
    pc s' = Returned.
Proof.
  assert (∀ b tr0, ∃ sched s',
            run job n sched (MkState (Throttle b) nb 0 [] [] [] tr0)
            = Some s' ∧ pc s' = Returned) as Hthrottle.
  { intros b tr0.
    destruct (finish_batch job n b nb tr0) as (s1 & tr1 & H1).
    destruct (finish_reading job n (n - nb) nb tr1 eq_refl)
      as (s2 & s' & H2 & Hpc).
    exists (s1 ++ s2), s'. split; [|done]. by rewrite run_app, H1. }
  destruct p as [|b|b|b| |].
  - apply (finish_reading job n (n - nb)). done.
  - destruct (Hthrottle b (WaitReturned b :: tr)) as (sched & s' & Hrun & Hret).
    exists (Main :: sched), s'. split; [|done]. rewrite <- Hrun.
    apply run_cons. simpl. unfold main_step. simpl.
    first [done | case_bool_decide as Hin;
                  [by apply not_elem_of_nil in Hin|done]].
  - apply Hthrottle.
  - destruct (drain_store job n
                (MkState Reading nb 1 [] [b] []
                   (PullWeight b :: TrackerAdd b :: tr)))
      as (s1 & tr1 & H1). simpl in H1.
    destruct (finish_reading job n (n - nb) nb tr1 eq_refl)
      as (s2 & s' & H2 & Hpc).
    exists (Main :: s1 ++ s2), s'. split; [|done].
    rewrite (run_cons _ _ _ _ _
               (MkState Reading nb 1 [] [b] []
                  (PullWeight b :: TrackerAdd b :: tr))) by done.
    by rewrite run_app, H1.
  - by exists [Main], (MkState Returned nb 0 [] [] [] (Return :: tr)).
  - by exists [], (MkState Returned nb 0 [] [] [] tr).
Qed.

End ProcessFileLemmas.

(** ** Strings and the driver *)
Lemma starts_with_spec pat s :
  starts_with pat s = true ↔ ∃ post, s = String.append pat post.
Proof.
  revert s. induction pat as [|a pat IH]; intros s; simpl.
  - split; [intros _; by exists s|done].
  - destruct s as [|b s]; [split; [done|by intros [? ?]]|].
    destruct (Ascii.eqb_spec a b) as [->|Hne].
    + rewrite IH. split; intros [post Hp]; exists post.
      * by rewrite Hp.
      * by injection Hp.
    + split; [done|]. intros [post Hp]. by injection Hp.
Qed.

Lemma find_from_Some pat s pos k :
  find_from pat s pos = Some k → contains pat s.
Proof.
  revert pos. induction s as [|b s IH]; intros pos; simpl.
  - destruct (starts_with pat "") eqn:Hs; [|done]. intros _.
    apply starts_with_spec in Hs as [post Hp]. by exists ""%string, post.
  - destruct (starts_with pat (String b s)) eqn:Hs.
    + intros _. apply starts_with_spec in Hs as [post Hp].
      by exists ""%string, post.
    + intros Hf. destruct (IH _ Hf) as (pre & post & Hp).
      exists (String b pre), post. simpl. by rewrite Hp.
Qed.

Lemma find_from_None pat s pos :
  find_from pat s pos = None → ¬ contains pat s.
Proof.
  revert pos. induction s as [|b s IH]; intros pos; simpl.
  - destruct (starts_with pat "") eqn:Hs; [done|].
    intros _ (pre & post & Hp).
    destruct pre; simpl in Hp; [|done].
    assert (starts_with pat "" = true); [|congruence].
    apply starts_with_spec. by exists post.
  - destruct (starts_with pat (String b s)) eqn:Hs; [done|].
    intros Hf (pre & post & Hp).
    destruct pre as [|c pre]; simpl in Hp.
    + assert (starts_with pat (String b s) = true); [|congruence].
      apply starts_with_spec. by exists post.
    + apply (IH _ Hf). exists pre, post. by injection Hp.
Qed.

Lemma find_None pat s : find pat s = None ↔ ¬ contains pat s.
Proof.
  split; [apply find_from_None|]. intros Hn.
  destruct (find pat s) eqn:Hf; [|done].
  exfalso. apply Hn. by apply (find_from_Some pat s 0 n).
Qed.

Lemma find_Some pat s : is_Some (find pat s) ↔ contains pat s.
Proof.
  split.
  - intros [k Hk]. by apply (find_from_Some pat s 0 k).
  - intros Hc. destruct (find pat s) eqn:Hf; [by eexists|].
    by apply find_None in Hf.
Qed.

Section DriverLemmas.
Import DiFacto.
Variable fresh_job : Job.t.

Lemma length_zero_empty (s : string) :
  (String.length s =? 0)%nat = true ↔ s = ""%string.
Proof. destruct s; simpl; split; done. Qed.

Lemma RunEpoch_jobs param e ty jobs j :
  Add jobs ∈ RunEpoch param e ty → j ∈ jobs → Job.type_ j = ty.
Proof.
  unfold RunEpoch.
  destruct (String.length _ =? 0)%nat; [by intros ?%not_elem_of_nil|].
  intros Hin Hj.
  apply elem_of_cons in Hin as [Heq|Hin].
  - assert (jobs = epoch_jobs ty e
              (if Job.type_eqb ty Job.kValidation
               then val_data param else data_in param)) as ->
      by congruence.
    apply list_elem_of_fmap in Hj as (i & -> & _). done.
  - apply elem_of_cons in Hin as [Heq|Hin]; [done|].
    by apply not_elem_of_nil in Hin.
Qed.

Lemma train_loop_jobs param cur jobs j :
  Add jobs ∈ train_loop param cur → j ∈ jobs →
  Job.type_ j = Job.kTraining ∨ Job.type_ j = Job.kValidation.
Proof.
  unfold train_loop. intros Hin Hj.
  apply list_elem_of_join in Hin as (evs & Hin & Hevs).
  apply list_elem_of_fmap in Hevs as (e & -> & _).
  apply elem_of_app in Hin as [Hin|Hin].
  - left. by apply (RunEpoch_jobs param e _ jobs j).
  - apply elem_of_app in Hin as [Hin|Hin].
    + right. by apply (RunEpoch_jobs param e _ jobs j).
    + apply elem_of_cons in Hin as [Heq|Hin]; [done|].
      by apply not_elem_of_nil in Hin.
Qed.

End DriverLemmas.

(** ** Loops that change nothing, loops that fail *)
Section LoopLemmas.
Context {A S : Type}.

Lemma for_each_fixed (l : list A) (body : A → S → option S) (s : S) :
  (∀ a, a ∈ l → body a s = Some s) → for_each l body s = Some s.
Proof.
  induction l as [|a l IH]; intros Hb; [done|].
  simpl. rewrite Hb by left. simpl. apply IH.
  intros a' Ha'. apply Hb. by right.
Qed.

Lemma for_each_fault (l : list A) (body : A → S → option S) (a : A) (s : S) :
  a ∈ l → (∀ s', body a s' = None) → for_each l body s = None.
Proof.
  revert s. induction l as [|b l IH]; intros s Hin Hf.
  - by apply not_elem_of_nil in Hin.
  - simpl. apply elem_of_cons in Hin as [<-|Hin].
    + by rewrite Hf.
    + destruct (body b s) as [s'|]; [|done]. simpl. by apply IH.
Qed.
End LoopLemmas.

Section EdgeLemmas.
Context {V : Type} `{Scalar V}.
Variable Segment : Range.t → Z → Z → Range.t.
Hypothesis Segment_ok : SegmentContract Segment.
Implicit Types (D : RowBlock.t V) (x y : list V).

Lemma wf_offset_get D m i :
  wf_matrix D m → 0 ≤ i ≤ RowBlock.size D →
  vget (RowBlock.offset D) i = Some (offset_at D i).
Proof.
  intros Hwf Hi. unfold offset_at. apply vget_default.
  rewrite (wf_offset_length D m Hwf). lia.
Qed.

Lemma Times_row_dim0 D x m i y :
  wf_matrix D m → 0 ≤ i < RowBlock.size D →
  Times_row D x 0 i y = Some y.
Proof.
  intros Hwf Hi. unfold Times_row.
  rewrite (wf_offset_get D m i), (wf_offset_get D m (i + 1)) by (done || lia).
  simpl. fold (row_begin D i). fold (row_end D i).
  destruct (row_begin D i =? row_end D i); [done|].
  destruct (RowBlock.value D) as [vals|] eqn:Hv.
  - apply for_each_fixed. intros j Hj. apply elem_of_zrange in Hj.
    pose proof (wf_row_in_index D m i j Hwf Hi Hj) as Hjr.
    destruct (vget_in_range _ _ Hjr) as [e ->]. simpl.
    assert (is_Some (vget vals j)) as [v ->].
    { apply vget_in_range. rewrite (wf_value_length D m Hwf vals Hv). lia. }
    done.
  - apply for_each_fixed. intros j Hj. apply elem_of_zrange in Hj.
    pose proof (wf_row_in_index D m i j Hwf Hi Hj) as Hjr.
    destruct (vget_in_range _ _ Hjr) as [e ->]. done.
Qed.

Lemma Times_kernel_dim0 D x y m nt :
  wf_matrix D m → Times_kernel Segment D x y 0 nt = Some y.
Proof.
  intros Hwf. unfold Times_kernel. rewrite Z.mul_0_r.
  destruct (memset0_spec y 0 ltac:(lia)) as (y0 & Hm & Hl0 & _ & Hsame).
  assert (y0 = y) as ->.
  { apply vget_ext; [done|]. intros q Hq. apply Hsame. lia. }
  rewrite Hm. simpl.
  apply for_each_fixed. intros t Ht. apply elem_of_zrange in Ht.
  apply for_each_fixed. intros i Hi. apply Has_zrange in Hi.
  apply (seg_inside Segment Segment_ok) in Hi; [|done].
  by apply (Times_row_dim0 D _ m).
Qed.

Lemma TransTimes_kernel_dim0 D x z p y y_size nt :
  TransTimes_kernel Segment D x z p y y_size 0 nt = None.
Proof.
  unfold TransTimes_kernel. change (to_size_t 0 =? 0) with true.
  destruct z.
  - by destruct (bias_fill _ _ _ _).
  - by destruct (memset0 _ _).
Qed.

Lemma axpy_fault (src : list V) sb v db dim (dst : list V) :
  0 ≤ sb → 0 < dim → Z.of_nat (length src) < sb + dim →
  axpy src sb v db dim dst = None.
Proof.
  intros Hsb Hdim Hsrc. unfold axpy.
  apply (for_each_fault _ _ (Z.max 0 (Z.of_nat (length src) - sb))).
  - apply elem_of_zrange. lia.
  - intros dst'. destruct (vget dst' _); [|done]. simpl.
    rewrite (vget_out_of_range src) by lia. done.
Qed.

Lemma Times_row_fault D x dim i j y :
  row_begin D i ≤ j < row_end D i → 0 < dim →
  Z.of_nat (length x) < wrap32 (col D j * dim) + dim →
  Times_row D x dim i y = None.
Proof.
  intros Hj Hdim Hx. unfold Times_row.
  unfold row_begin, row_end, offset_at in Hj.
  destruct (vget (RowBlock.offset D) i) as [o0|]; [|done].
  destruct (vget (RowBlock.offset D) (i + 1)) as [o1|]; [|done].
  simpl in *. destruct (Z.eqb_spec o0 o1); [lia|].
  assert (0 ≤ wrap32 (col D j * dim)) as Hw.
  { unfold wrap32. apply Z.mod_pos_bound. lia. }
  unfold col in Hx, Hw.
  destruct (RowBlock.value D) as [vals|];
    apply (for_each_fault _ _ j); try (apply elem_of_zrange; lia);
    intros y'; destruct (vget (RowBlock.index D) j) as [e|]; try done;
    simpl in *.
  - destruct (vget vals j); [|done]. simpl. by apply axpy_fault.
  - by apply axpy_fault.
Qed.

Lemma Times_kernel_fault D x y dim nt i j :
  0 < nt → 0 ≤ i < RowBlock.size D →
  row_begin D i ≤ j < row_end D i → 0 < dim →
  Z.of_nat (length x) < wrap32 (col D j * dim) + dim →
  Times_kernel Segment D x y dim nt = None.
Proof.
  intros Hnt Hi Hj Hdim Hx. unfold Times_kernel.
  destruct (memset0 y _) as [y0|]; [|done]. simpl.
  destruct (seg_cover Segment Segment_ok (RowBlock.size D) nt i Hnt Hi)
    as (t & Ht & Hhas).
  apply (for_each_fault _ _ t); [by apply elem_of_zrange|].
  intros y1. apply (for_each_fault _ _ i); [by apply Has_zrange|].
  intros y2. by apply (Times_row_fault D x dim i j).
Qed.

End EdgeLemmas.

(** ** Sums in distributive arithmetic *)
#[export] Instance Z_semiring : SemiringScalar Z.
Proof.
  split; unfold add, mul, Z_scalar; intros; lia.
Qed.

Section SumLemmas.
Context {V : Type} `{SemiringScalar V}.

Lemma sum_over_ext (l : list Z) (f g : Z → V) :
  (∀ a, a ∈ l → f a = g a) → sum_over l f = sum_over l g.
Proof.
  induction l as [|a l IH]; intros Hfg; [done|]. unfold sum_over in *.
  simpl. rewrite Hfg by left. f_equal. apply IH.
  intros b Hb. apply Hfg. by right.
Qed.

Lemma sum_over_cons (a : Z) (l : list Z) (f : Z → V) :
  sum_over (a :: l) f = add (f a) (sum_over l f).
Proof. done. Qed.

Lemma sum_over_zero (l : list Z) : sum_over l (λ _, zero) = (zero : V).
Proof.
  induction l as [|a l IH]; [done|]. unfold sum_over in *. simpl.
  rewrite IH. apply add_zero_l.
Qed.

Lemma sum_over_app (l1 l2 : list Z) (f : Z → V) :
  sum_over (l1 ++ l2) f = add (sum_over l1 f) (sum_over l2 f).
Proof.
  induction l1 as [|a l1 IH]; unfold sum_over in *; simpl.
  - by rewrite add_zero_l.
  - rewrite IH. apply add_assoc.
Qed.

Lemma sum_over_add (l : list Z) (f g : Z → V) :
  sum_over l (λ a, add (f a) (g a))
  = add (sum_over l f) (sum_over l g).
Proof.
  induction l as [|a l IH]; unfold sum_over in *; simpl.
  - by rewrite add_zero_l.
  - rewrite IH.
    rewrite <- !add_assoc. f_equal.
    rewrite !add_assoc. f_equal. apply add_comm.
Qed.

Lemma sum_over_swap (l1 l2 : list Z) (f : Z → Z → V) :
  sum_over l1 (λ a, sum_over l2 (λ b, f a b))
  = sum_over l2 (λ b, sum_over l1 (λ a, f a b)).
Proof.
  induction l1 as [|a l1 IH].
  - unfold sum_over at 1. simpl. symmetry. apply sum_over_zero.
  - change (sum_over (a :: l1) (λ a0, sum_over l2 (λ b, f a0 b)))
      with (add (sum_over l2 (λ b, f a b))
              (sum_over l1 (λ a0, sum_over l2 (λ b, f a0 b)))).
    rewrite IH, <- sum_over_add. done.
Qed.

Lemma mul_zero_r (a : V) : mul a zero = zero.
Proof. rewrite mul_comm. apply mul_zero_l. Qed.

Lemma mul_sum_over (c : V) (l : list Z) (f : Z → V) :
  mul c (sum_over l f) = sum_over l (λ a, mul c (f a)).
Proof.
  induction l as [|a l IH]; unfold sum_over in *; simpl.
  - apply mul_zero_r.
  - by rewrite mul_add_distr_l, IH.
Qed.

Lemma sum_over_mul (c : V) (l : list Z) (f : Z → V) :
  mul (sum_over l f) c = sum_over l (λ a, mul (f a) c).
Proof.
  rewrite mul_comm, mul_sum_over. apply sum_over_ext.
  intros a _. apply mul_comm.
Qed.

Lemma sum_over_indicator (m c : Z) (t : V) :
  0 ≤ c < m →
  sum_over (zrange 0 m) (λ e, if c =? e then t else zero) = t.
Proof.
  intros Hc. rewrite (zrange_split 0 c m) by lia.
  rewrite (zrange_cons c m) by lia.
  rewrite sum_over_app.
  rewrite (sum_over_ext (zrange 0 c) _ (λ _, zero)).
  2: { intros e He%elem_of_zrange. destruct (Z.eqb_spec c e); [lia|done]. }
  rewrite sum_over_zero, add_zero_l.
  rewrite sum_over_cons, Z.eqb_refl.
  rewrite (sum_over_ext (zrange (c + 1) m) _ (λ _, zero)).
  2: { intros e He%elem_of_zrange. destruct (Z.eqb_spec c e); [lia|done]. }
  by rewrite sum_over_zero, add_zero_r.
Qed.

End SumLemmas.

Section Adjoint.
Context {V : Type} `{SemiringScalar V}.
Implicit Types (D : RowBlock.t V) (x w : list V).

(** [Σ_{i,k} w[i,k] (D x)[i,k] = Σ_{e,k} (D' w)[e,k] x[e,k]]. *)
Lemma Dx_DTx_adjoint D x w m dim :
  wf_matrix D m →
  sum_over (zrange 0 (RowBlock.size D)) (λ i,
    sum_over (zrange 0 dim) (λ k,
      mul (vat w (i * dim + k)) (Dx D x dim i k)))
  = sum_over (zrange 0 m) (λ e,
      sum_over (zrange 0 dim) (λ k,
        mul (DTx D w dim e k) (vat x (e * dim + k)))).
Proof.
  intros Hwf.
  pose (T := λ i k j, mul (vat w (i * dim + k))
                        (mul (weight D j) (vat x (col D j * dim + k)))).
  transitivity
    (sum_over (zrange 0 (RowBlock.size D)) (λ i,
       sum_over (zrange 0 dim) (λ k,
         sum_over (zrange (row_begin D i) (row_end D i)) (λ j, T i k j)))).
  { apply sum_over_ext. intros i _. apply sum_over_ext. intros k _.
    unfold Dx. by rewrite mul_sum_over. }
  symmetry.
  transitivity
    (sum_over (zrange 0 m) (λ e,
       sum_over (zrange 0 dim) (λ k,
         sum_over (zrange 0 (RowBlock.size D)) (λ i,
           sum_over (zrange (row_begin D i) (row_end D i)) (λ j,
             if col D j =? e then T i k j else zero))))).
  { apply sum_over_ext. intros e _. apply sum_over_ext. intros k _.
    unfold DTx. rewrite sum_over_mul.
    apply sum_over_ext. intros i _. rewrite sum_over_mul.
    apply sum_over_ext. intros j _.
    destruct (Z.eqb_spec (col D j) e) as [<-|_]; [|apply mul_zero_l].
    unfold T. by rewrite (mul_comm (weight D j)), <- mul_assoc. }
  rewrite sum_over_swap.
  rewrite (sum_over_swap (zrange 0 (RowBlock.size D)) (zrange 0 dim)).
  apply sum_over_ext. intros k _.
  rewrite sum_over_swap.
  apply sum_over_ext. intros i Hi%elem_of_zrange.
  rewrite sum_over_swap.
  apply sum_over_ext. intros j Hj%elem_of_zrange.
  apply sum_over_indicator.
  apply (wf_index_range D m Hwf).
  by apply (wf_row_in_index D m i j).
Qed.

End Adjoint.

(** ** A matrix without values *)
Section UnitValues.
Context {V : Type} `{ExactScalar V}.
Implicit Types (D : RowBlock.t V) (x y : list V).

Lemma unit_values_wf D m : wf_matrix D m → wf_matrix (unit_values D) m.
Proof.
  intros [Hs Hol Hom Hil Hvl Hir]. split; try done.
  intros vals [= <-]. by rewrite length_replicate.
Qed.

Lemma contrib_unit_values D j (s : V) :
  RowBlock.value D = None →
  0 ≤ j < Z.of_nat (length (RowBlock.index D)) →
  contrib (unit_values D) j s = contrib D j s.
Proof.
  intros Hv Hj. unfold contrib. rewrite Hv. simpl.
  unfold vat, vget. destruct (Z.leb_spec 0 j); [|lia].
  rewrite lookup_replicate_2 by lia. simpl.
  by rewrite mul_comm, mul_one_l.
Qed.

Lemma row_acc_unit_values D x m dim i k acc :
  wf_matrix D m → RowBlock.value D = None → 0 ≤ i < RowBlock.size D →
  row_acc (unit_values D) x dim i k acc = row_acc D x dim i k acc.
Proof.
  intros Hwf Hv Hi. unfold row_acc.
  apply fold_left_ext_in. intros j a Hj%elem_of_zrange.
  change (col (unit_values D) j) with (col D j).
  rewrite contrib_unit_values; [done|done|].
  by apply (wf_row_in_index D m i j).
Qed.

Lemma col_acc_unit_values D x m dim e k acc :
  wf_matrix D m → RowBlock.value D = None →
  col_acc (unit_values D) x dim e k acc = col_acc D x dim e k acc.
Proof.
  intros Hwf Hv. unfold col_acc.
  apply fold_left_ext_in. intros i a Hi%elem_of_zrange.
  apply fold_left_ext_in. intros j a' Hj%elem_of_zrange.
  change (col (unit_values D) j) with (col D j).
  rewrite contrib_unit_values; [done|done|].
  by apply (wf_row_in_index D m i j).
Qed.
End UnitValues.

Lemma D32_binary_wf : wf_matrix D32_binary 2.
Proof.
  destruct D32_wf as [Hs Hol Hom Hil Hvl Hir]. split; try done.
Qed.

(** ** The schedule of the training loop *)
Section SchedLemmas.
Import DiFacto.
Variable fresh_job : Job.t.

Lemma empty_length_zero (s : string) :
  s ≠ ""%string → (String.length s =? 0)%nat = false.
Proof. by destruct s. Qed.

Lemma RunEpoch_empty param e ty :
  epoch_file param ty = ""%string → RunEpoch param e ty = [].
Proof. unfold RunEpoch, epoch_file. by intros ->. Qed.

Lemma RunEpoch_nonempty param e ty :
  epoch_file param ty ≠ ""%string →
  RunEpoch param e ty
  = [Add (epoch_jobs ty e (epoch_file param ty)); WaitDrained].
Proof.
  unfold RunEpoch, epoch_file. intros Hne.
  by rewrite (empty_length_zero _ Hne).
Qed.

Lemma epoch_jobs_lookup ty e fname k :
  0 ≤ k < 100 →
  vget (epoch_jobs ty e fname) k = Some (Job.Make ty e fname k 100).
Proof.
  intros Hk. unfold vget, epoch_jobs.
  destruct (Z.leb_spec 0 k); [|lia].
  rewrite list_lookup_fmap.
  rewrite (proj2 (lookup_seqZ 0 100 (Z.to_nat k) k)) by lia.
  done.
Qed.

Lemma epoch_jobs_elem ty e fname j :
  j ∈ epoch_jobs ty e fname ↔
  ∃ k, 0 ≤ k < 100 ∧ j = Job.Make ty e fname k 100.
Proof.
  unfold epoch_jobs. rewrite list_elem_of_fmap. split.
  - intros (k & -> & Hk). apply elem_of_seqZ in Hk. exists k. split; [lia|done].
  - intros (k & Hk & ->). exists k. split; [done|]. apply elem_of_seqZ. lia.
Qed.

Lemma train_loop_done param cur :
  max_num_epochs param ≤ cur → train_loop param cur = [].
Proof.
  intros Hle. unfold train_loop, seqZ.
  replace (Z.to_nat (max_num_epochs param - cur)) with 0%nat by lia. done.
Qed.

Lemma train_loop_unroll param cur :
  cur < max_num_epochs param →
  train_loop param cur
  = RunEpoch param cur Job.kTraining ++ RunEpoch param cur Job.kValidation
    ++ EpochCallbacks :: train_loop param (cur + 1).
Proof.
  intros Hlt. unfold train_loop.
  rewrite (seqZ_cons cur) by lia. simpl.
  replace (Z.succ cur) with (cur + 1) by lia.
  replace (Z.pred (max_num_epochs param - cur))
    with (max_num_epochs param - (cur + 1)) by lia.
  by rewrite <- !app_assoc.
Qed.

(** Induction on the epochs that are left. *)
Lemma train_loop_ind param (P : Z → list SchedEvent → Prop) :
  (∀ cur, max_num_epochs param ≤ cur → P cur []) →
  (∀ cur, cur < max_num_epochs param →
     P (cur + 1) (train_loop param (cur + 1)) →
     P cur (RunEpoch param cur Job.kTraining
            ++ RunEpoch param cur Job.kValidation
            ++ EpochCallbacks :: train_loop param (cur + 1))) →
  ∀ cur, P cur (train_loop param cur).
Proof.
  intros Hdone Hstep cur.
  remember (Z.to_nat (max_num_epochs param - cur)) as k eqn:Hk.
  revert cur Hk. induction k as [|k IH]; intros cur Hk.
  - rewrite train_loop_done by lia. apply Hdone. lia.
  - rewrite train_loop_unroll by lia. apply Hstep; [lia|].
    apply IH. lia.
Qed.

Lemma callback_rounds_app l1 l2 :
  callback_rounds (l1 ++ l2) = (callback_rounds l1 + callback_rounds l2)%nat.
Proof.
  induction l1 as [|[] l1 IH]; simpl; rewrite ?IH; done.
Qed.

Lemma callback_rounds_RunEpoch param e ty :
  callback_rounds (RunEpoch param e ty) = 0%nat.
Proof. unfold RunEpoch. by destruct (_ =? _)%nat. Qed.

Lemma callback_rounds_train_loop param cur :
  callback_rounds (train_loop param cur)
  = Z.to_nat (max_num_epochs param - cur).
Proof.
  apply (train_loop_ind param
           (λ cur l, callback_rounds l = Z.to_nat (max_num_epochs param - cur))).
  - intros c Hc. simpl. lia.
  - intros c Hc IH.
    rewrite !callback_rounds_app, !callback_rounds_RunEpoch. simpl.
    rewrite IH. lia.
Qed.

Lemma waits_after_add_nil : waits_after_add [].
Proof. intros [|? ?] jobs post Heq; done. Qed.

Lemma waits_after_add_cons ev l :
  (∀ jobs, ev = Add jobs → ∃ l', l = WaitDrained :: l') →
  waits_after_add l → waits_after_add (ev :: l).
Proof.
  intros Hev Hl [|a pre] jobs post Heq; simpl in Heq.
  - injection Heq as -> ->. by apply (Hev jobs).
  - injection Heq as -> ->. by apply (Hl pre jobs post).
Qed.

Lemma waits_after_add_app l1 l2 :
  waits_after_add l1 → waits_after_add l2 → waits_after_add (l1 ++ l2).
Proof.
  intros H1 H2. induction l1 as [|ev l1 IH]; [done|]. simpl.
  apply waits_after_add_cons.
  - intros jobs ->. destruct (H1 [] jobs l1 eq_refl) as [l' ->].
    by exists (l' ++ l2).
  - apply IH. intros pre jobs post Heq.
    apply (H1 (ev :: pre) jobs post). by rewrite Heq.
Qed.

Lemma waits_after_add_RunEpoch param e ty :
  waits_after_add (RunEpoch param e ty).
Proof.
  unfold RunEpoch. destruct (_ =? _)%nat; [apply waits_after_add_nil|].
  apply waits_after_add_cons; [by eexists|].
  apply waits_after_add_cons; [done|apply waits_after_add_nil].
Qed.

Lemma waits_after_add_train_loop param cur :
  waits_after_add (train_loop param cur).
Proof.
  apply (train_loop_ind param (λ _ l, waits_after_add l)).
  - intros _ _. apply waits_after_add_nil.
  - intros c Hc IH.
    repeat apply waits_after_add_app;
      try apply waits_after_add_RunEpoch.
    by apply waits_after_add_cons.
Qed.

Lemma RunEpoch_Add param e ty jobs :
  Add jobs ∈ RunEpoch param e ty →
  epoch_file param ty ≠ ""%string ∧
  jobs = epoch_jobs ty e (epoch_file param ty).
Proof.
  unfold RunEpoch. fold (epoch_file param ty).
  destruct (String.length _ =? 0)%nat eqn:Hl.
  { by intros ?%not_elem_of_nil. }
  intros Hin. split.
  { intros Heq. by rewrite Heq in Hl. }
  apply elem_of_cons in Hin as [Heq|Hin]; [congruence|].
  apply elem_of_cons in Hin as [Heq|Hin]; [done|].
  by apply not_elem_of_nil in Hin.
Qed.

Lemma train_loop_Add param cur jobs :
  Add jobs ∈ train_loop param cur →
  ∃ e ty, cur ≤ e < max_num_epochs param ∧
    (ty = Job.kTraining ∨ ty = Job.kValidation) ∧
    epoch_file param ty ≠ ""%string ∧
    jobs = epoch_jobs ty e (epoch_file param ty).
Proof.
  apply (train_loop_ind param (λ cur l, Add jobs ∈ l →
    ∃ e ty, cur ≤ e < max_num_epochs param ∧
      (ty = Job.kTraining ∨ ty = Job.kValidation) ∧
      epoch_file param ty ≠ ""%string ∧
      jobs = epoch_jobs ty e (epoch_file param ty))).
  - intros c _ Hin. by apply not_elem_of_nil in Hin.
  - intros c Hc IH Hin.
    apply elem_of_app in Hin as [Hin|Hin].
    { apply RunEpoch_Add in Hin as [Hf ->].
      exists c, Job.kTraining. split; [lia|]. split; [by left|done]. }
    apply elem_of_app in Hin as [Hin|Hin].
    { apply RunEpoch_Add in Hin as [Hf ->].
      exists c, Job.kValidation. split; [lia|]. split; [by right|done]. }
    apply elem_of_cons in Hin as [Heq|Hin]; [done|].
    destruct (IH Hin) as (e & ty & He & Hty & Hf & ->).
    exists e, ty. split; [lia|done].
Qed.

Lemma rounds_in_order_nil : rounds_in_order [].
Proof. intros [|? ?] ? ? ? ? ? ? Heq; done. Qed.

Lemma rounds_in_order_cons ev l :
  (∀ jobs1 jobs2 j1 j2, ev = Add jobs1 → Add jobs2 ∈ l →
     j1 ∈ jobs1 → j2 ∈ jobs2 → in_loop j1 → in_loop j2 →
     round_before j1 j2) →
  rounds_in_order l → rounds_in_order (ev :: l).
Proof.
  intros Hev Hl [|a pre] jobs1 mid jobs2 post j1 j2 Heq; simpl in Heq.
  - injection Heq as -> ->. apply (Hev jobs1 jobs2); [done|].
    apply elem_of_app. right. left.
  - injection Heq as -> ->. by apply (Hl pre jobs1 mid jobs2 post).
Qed.

Lemma rounds_in_order_other ev l :
  (∀ jobs, ev ≠ Add jobs) → rounds_in_order l → rounds_in_order (ev :: l).
Proof.
  intros Hev. apply rounds_in_order_cons.
  intros jobs1 ? ? ? Heq. by destruct (Hev jobs1).
Qed.

Lemma rounds_in_order_train_loop param cur :
  rounds_in_order (train_loop param cur).
Proof.
  apply (train_loop_ind param (λ _ l, rounds_in_order l)).
  { intros _ _. apply rounds_in_order_nil. }
  intros c Hc IH.
  assert (∀ jobs2 j2 ty j1 fname,
            Add jobs2 ∈ train_loop param (c + 1) → j2 ∈ jobs2 →
            j1 ∈ epoch_jobs ty c fname → round_before j1 j2) as Hlater.
  { intros jobs2 j2 ty j1 fname Hin Hj2 Hj1.
    apply train_loop_Add in Hin as (e & ty2 & He & _ & _ & ->).
    apply epoch_jobs_elem in Hj1 as (k1 & _ & ->).
    apply epoch_jobs_elem in Hj2 as (k2 & _ & ->).
    left. simpl. lia. }
  assert (rounds_in_order (EpochCallbacks :: train_loop param (c + 1)))
    as Hrest by (by apply rounds_in_order_other).
  assert (rounds_in_order
            (RunEpoch param c Job.kValidation
             ++ EpochCallbacks :: train_loop param (c + 1))) as Hval.
  { unfold RunEpoch. destruct (_ =? _)%nat; [done|]. simpl.
    apply rounds_in_order_cons; [|by apply rounds_in_order_other].
    intros jobs1 jobs2 j1 j2 [= <-] Hin Hj1 Hj2 _ _.
    apply elem_of_cons in Hin as [?|Hin]; [done|].
    apply elem_of_cons in Hin as [?|Hin]; [done|].
    apply (Hlater jobs2 j2 _ j1 _ Hin Hj2 Hj1). }
  unfold RunEpoch at 1. destruct (_ =? _)%nat; [done|]. simpl.
  apply rounds_in_order_cons; [|by apply rounds_in_order_other].
  intros jobs1 jobs2 j1 j2 [= <-] Hin Hj1 Hj2 _ _.
  apply elem_of_cons in Hin as [?|Hin]; [done|].
  apply elem_of_app in Hin as [Hin|Hin].
  - apply RunEpoch_Add in Hin as [_ ->].
    apply epoch_jobs_elem in Hj1 as (k1 & _ & ->).
    apply epoch_jobs_elem in Hj2 as (k2 & _ & ->).
    right. done.
  - apply elem_of_cons in Hin as [?|Hin]; [done|].
    apply (Hlater jobs2 j2 _ j1 _ Hin Hj2 Hj1).
Qed.

End SchedLemmas.

(** * The claims *)

(** C1, as stated, fails: with an empty [x] (a matrix without columns)
    [Times] returns before the zeroing, and [y] keeps its old content
    instead of the (empty) sums; and for a matrix without rows and a
    non-empty [x] the computation of [dim] divides by [D.size = 0]. *)
Lemma Times_empty_x_counterexample :
  ¬ Times_as_stated even_split D10 [] [7] 0 1 1 ∧
  ¬ Times_as_stated even_split D01 [5] [] 1 1 1.
Proof.
  split; intros Hc.
  - destruct Hc as (r & Hr & Hrows); [apply D10_wf|done..|].
    vm_compute in Hr. injection Hr as Heq. subst r.
    specialize (Hrows 0 0 ltac:(simpl; lia) ltac:(lia)).
    vm_compute in Hrows. discriminate.
  - destruct Hc as (r & Hr & _); [apply D01_wf|done..|].
    vm_compute in Hr. discriminate.
Qed.

(** C1 (amended): for a matrix with at least one row and a non-empty [x]
    of shape [m × dim] (sizes in the range of the index arithmetic:
    [dim < 2^31], at most [2^32] elements in [x]), in any arithmetic
    [V], [Times] succeeds and sets [y[i*dim+k]] to the sum of row [i]
    accumulated in storage order: from zero, for
    [j = offset[i], ..., offset[i+1] - 1] in this order, it adds
    [x[index[j]*dim+k] * value[j]], or [x[index[j]*dim+k]] alone when
    there is no value array; a row with an empty range gets zero.  In
    exact arithmetic this is
    [Σ_{j ∈ [offset[i], offset[i+1])} value[j] * x[index[j]*dim+k]],
    with [value[j] = 1] when there is no value array.  On the scenario
    matrix and [x = [5, 7]] the result is [[5, 31, 0]]. *)
Theorem Times_computes_product :
  (∀ (V : Type) (S : Scalar V)
     (Segment : Range.t → Z → Z → Range.t) (D : RowBlock.t V)
     (x y : list V) (m dim nt : Z),
     SegmentContract Segment → wf_matrix D m →
     0 < RowBlock.size D → 0 < nt → 0 < m →
     0 < dim < 2 ^ 31 → m * dim ≤ 2 ^ 32 →
     Z.of_nat (length x) = m * dim →
     Z.of_nat (length y) = RowBlock.size D * dim →
     ∃ r, Times Segment D x y nt = Some r ∧ length r = length y ∧
          ∀ i k, 0 ≤ i < RowBlock.size D → 0 ≤ k < dim →
            vget r (i * dim + k) =
            Some (fold_left
                    (λ acc j,
                       add acc
                         (match RowBlock.value D with
                          | Some vals =>
                              mul (vat x (col D j * dim + k)) (vat vals j)
                          | None => vat x (col D j * dim + k)
                          end))
                    (zrange (row_begin D i) (row_end D i)) zero) ∧
            (row_begin D i = row_end D i →
             vget r (i * dim + k) = Some zero) ∧
            (ExactScalar V →
             vget r (i * dim + k) = Some (Dx D x dim i k))) ∧
  (∀ (Segment : Range.t → Z → Z → Range.t) (y : list Z) (nt : Z),
     SegmentContract Segment → 0 < nt → length y = 3%nat →
     Times Segment D32 [5; 7] y nt = Some [5; 31; 0]).
Proof.
  split.
  - intros V S Segment D x y m dim nt Hseg Hwf Hn Hnt Hm Hdim Hm32 Hx Hy.
    destruct (Times_rows Segment Hseg D x y m dim nt)
      as (r & Hr & Hlen & Hrows); try done.
    exists r. split; [done|]. split; [done|].
    intros i k Hi Hk. rewrite Hrows by done. split; [|split].
    + done.
    + intros Hempty. unfold row_acc.
      by rewrite (zrange_empty (row_begin D i)) by lia.
    + intros E. by rewrite row_acc_Dx.
  - intros Segment y nt Hseg Hnt Hy.
    destruct (Times_rows Segment Hseg D32 [5; 7] y 2 1 nt)
      as (r & -> & Hlen & Hrows); try done.
    { apply D32_wf. }
    { rewrite Hy. done. }
    f_equal. apply vget_ext; [by rewrite Hlen, Hy|].
    intros q Hq. rewrite Hlen, Hy in Hq.
    zrange_cases Hq.
    + apply (Hrows 0 0); done.
    + apply (Hrows 1 0); done.
    + apply (Hrows 2 0); done.
Qed.

Lemma Times_computes_product_witness :
  ∃ r, Times even_split D32 [5; 7] [9; 9; 9] 2 = Some r ∧
       length r = 3%nat ∧
       ∀ i k, 0 ≤ i < 3 → 0 ≤ k < 1 →
         vget r (i * 1 + k) =
         Some (fold_left
                 (λ acc j,
                    add acc
                      (match RowBlock.value D32 with
                       | Some vals =>
                           mul (vat [5; 7] (col D32 j * 1 + k)) (vat vals j)
                       | None => vat [5; 7] (col D32 j * 1 + k)
                       end))
                 (zrange (row_begin D32 i) (row_end D32 i)) zero) ∧
         (row_begin D32 i = row_end D32 i →
          vget r (i * 1 + k) = Some 0) ∧
         (ExactScalar Z →
          vget r (i * 1 + k) = Some (Dx D32 [5; 7] 1 i k)).
Proof.
  apply (proj1 Times_computes_product Z Z_scalar even_split D32
           [5; 7] [9; 9; 9] 2 1 2).
  - apply even_split_contract.
  - apply D32_wf.
  - simpl; lia.
  - lia.
  - lia.
  - lia.
  - lia.
  - reflexivity.
  - reflexivity.
Defined.

(** Why the sizes are bounded above: the kernel computes
    [D.index[j] * dim] on 32 bits.  Here the product is [2^32], the
    kernel reads [x[0]] and [x[1]] where the entries [x[2^32]] and
    [x[2^32 + 1]] are meant, and the result is [[1, 1]] instead of
    [[0, 0]]. *)
Example unsigned_index_wraps :
  Z.of_nat (length xwide) = (2 ^ 31 + 1) * 2 ∧
  Times even_split Dwide xwide [7; 7] 1 = Some [1; 1] ∧
  Dx Dwide xwide 2 0 0 = 0 ∧ Dx Dwide xwide 2 0 1 = 0.
Proof.
  split; [|split; [|split]].
  - apply length_wide. by apply Z2Nat.id.
  - apply Times_wide.
  - by apply Dx_wide.
  - by apply Dx_wide.
Qed.

(** C2, as stated, fails: for a matrix without rows [x] is empty, the
    call returns at once and [y] is neither filled with [p z] nor
    zeroed. *)
Lemma TransTimes_empty_x_counterexample :
  ¬ TransTimes_as_stated even_split D01 [] 2 [3] [7] 1 1 1.
Proof.
  intros Hc. destruct Hc as (r & Hr & Hcols); [apply D01_wf|done..|].
  vm_compute in Hr. injection Hr as Heq. subst r.
  specialize (Hcols 0 0 ltac:(lia) ltac:(lia)).
  vm_compute in Hcols. discriminate.
Qed.

(** C2 (amended): for a matrix with at least one row and a non-empty [x]
    of shape [n × dim] (sizes in the range of the index arithmetic:
    [dim < 2^31], at most [2^32] elements in [y]), in any arithmetic
    [V]: the biased [TransTimes] with a [z] as long as [y] and [p != 0]
    fills [y] with [z*p] and then, for the rows [i] in ascending order
    and the entries [j] of a row in storage order, adds
    [x[i*dim+k] * value[j]] ([x[i*dim+k]] alone without a value array)
    to [y[index[j]*dim+k]]; with an empty [z] or [p == 0] it does what
    the form without bias does, which accumulates the same way from
    zero.  In exact arithmetic this is [y = D' x + p z] elementwise,
    [D' x] when [z] is empty or [p = 0], and [D' x] for the form
    without bias. *)
Theorem TransTimes_computes_transpose (V : Type) (S : Scalar V)
    (Segment : Range.t → Z → Z → Range.t) (D : RowBlock.t V)
    (x : list V) (p : V) (z y : list V) (m dim nt : Z) :
  SegmentContract Segment → wf_matrix D m →
  0 < RowBlock.size D → 0 < nt →
  0 < dim < 2 ^ 31 → m * dim ≤ 2 ^ 32 →
  Z.of_nat (length x) = RowBlock.size D * dim →
  Z.of_nat (length y) = m * dim →
  (length z = length y → is_zero p = false →
   ∃ r, TransTimes_bias Segment D x p z y nt = Some r ∧
        length r = length y ∧
        ∀ e k, 0 ≤ e < m → 0 ≤ k < dim →
          vget r (e * dim + k) =
          Some (col_acc D x dim e k (mul (vat z (e * dim + k)) p))) ∧
  (z = [] ∨ is_zero p = true →
   ∃ r, TransTimes_bias Segment D x p z y nt = Some r ∧
        TransTimes Segment D x y nt = Some r ∧
        length r = length y ∧
        ∀ e k, 0 ≤ e < m → 0 ≤ k < dim →
          vget r (e * dim + k) = Some (col_acc D x dim e k zero)) ∧
  (∃ r, TransTimes Segment D x y nt = Some r ∧
        length r = length y ∧
        ∀ e k, 0 ≤ e < m → 0 ≤ k < dim →
          vget r (e * dim + k) = Some (col_acc D x dim e k zero)) ∧
  (ExactScalar V →
   (length z = length y →
    ∃ r, TransTimes_bias Segment D x p z y nt = Some r ∧
         length r = length y ∧
         ∀ e k, 0 ≤ e < m → 0 ≤ k < dim →
           vget r (e * dim + k) =
           Some (add (DTx D x dim e k) (mul p (vat z (e * dim + k))))) ∧
   (z = [] ∨ p = zero →
    ∃ r, TransTimes_bias Segment D x p z y nt = Some r ∧
         length r = length y ∧
         ∀ e k, 0 ≤ e < m → 0 ≤ k < dim →
           vget r (e * dim + k) = Some (DTx D x dim e k)) ∧
   (∃ r, TransTimes Segment D x y nt = Some r ∧
         length r = length y ∧
         ∀ e k, 0 ≤ e < m → 0 ≤ k < dim →
           vget r (e * dim + k) = Some (DTx D x dim e k))).
Proof.
  intros Hseg Hwf Hn Hnt Hdim Hm32 Hx Hy.
  assert (∀ e k, 0 ≤ e < m → 0 ≤ k < dim →
            0 ≤ e * dim + k < Z.of_nat (length y)) as Hin.
  { intros e k He Hk. rewrite Hy.
    assert (0 ≤ e * dim) by (apply Z.mul_nonneg_nonneg; lia).
    assert ((e + 1) * dim ≤ m * dim)
      by (apply Z.mul_le_mono_nonneg_r; lia). lia. }
  assert (∀ p' z', z' = [] ∨ is_zero p' = true →
            ∃ r, TransTimes_bias Segment D x p' z' y nt = Some r ∧
                 length r = length y ∧
                 ∀ e k, 0 ≤ e < m → 0 ≤ k < dim →
                   vget r (e * dim + k)
                   = Some (col_acc D x dim e k zero)) as Hplain.
  { intros p' z' Hzp.
    destruct (TransTimes_bias_cols Segment Hseg D x p' z' y m dim nt)
      as (r & Hr & Hlen & Hcols); try done.
    exists r. split; [done|]. split; [done|].
    intros e k He Hk. rewrite Hcols by done.
    destruct (bias_applied p' z' y) eqn:Hb; [|done].
    exfalso. unfold bias_applied in Hb.
    apply andb_true_iff in Hb as [Hl Hp]. apply Nat.eqb_eq in Hl.
    destruct Hzp as [-> | Hz].
    - specialize (Hin e k He Hk). simpl in Hl. lia.
    - by rewrite Hz in Hp. }
  split; [|split; [|split]].
  - intros Hz Hp.
    destruct (TransTimes_bias_cols Segment Hseg D x p z y m dim nt)
      as (r & Hr & Hlen & Hcols); try done.
    exists r. split; [done|]. split; [done|].
    intros e k He Hk. rewrite Hcols by done.
    unfold bias_applied. by rewrite (proj2 (Nat.eqb_eq _ _) Hz), Hp.
  - intros Hzp.
    destruct (Hplain p z Hzp) as (r & Hr & Hlen & Hcols).
    destruct (Hplain zero [] (or_introl eq_refl))
      as (r0 & Hr0 & Hlen0 & Hcols0).
    exists r. split; [done|]. split; [|done].
    unfold TransTimes. rewrite Hr0. f_equal.
    apply vget_ext; [congruence|].
    intros q Hq. rewrite Hlen0, Hy in Hq.
    destruct (slice_decompose dim m q)
      as (e & k & He & Hk & ->); [lia|done|].
    by rewrite Hcols, Hcols0.
  - apply (Hplain zero []). by left.
  - intros E. split; [|split].
    + intros Hz.
      destruct (TransTimes_bias_cols Segment Hseg D x p z y m dim nt)
        as (r & Hr & Hlen & Hcols); try done.
      exists r. split; [done|]. split; [done|].
      intros e k He Hk. rewrite Hcols by done. f_equal.
      rewrite col_acc_DTx. unfold bias_applied.
      rewrite (proj2 (Nat.eqb_eq _ _) Hz). simpl.
      destruct (is_zero p) eqn:Hp; simpl.
      * apply is_zero_true in Hp. subst p.
        by rewrite mul_zero_l, add_zero_l, add_zero_r.
      * by rewrite add_comm, (mul_comm p).
    + intros Hzp.
      assert (z = [] ∨ is_zero p = true) as Hzp'.
      { destruct Hzp as [-> | ->]; [by left|right].
        by apply is_zero_spec. }
      destruct (Hplain p z Hzp') as (r & Hr & Hlen & Hcols).
      exists r. split; [done|]. split; [done|].
      intros e k He Hk. rewrite Hcols by done.
      by rewrite col_acc_DTx, add_zero_l.
    + destruct (Hplain zero [] (or_introl eq_refl))
        as (r & Hr & Hlen & Hcols).
      exists r. split; [done|]. split; [done|].
      intros e k He Hk. rewrite Hcols by done.
      by rewrite col_acc_DTx, add_zero_l.
Qed.

Lemma TransTimes_computes_transpose_witness :
  (length [10; 20] = length [9; 9] → is_zero 2 = false →
   ∃ r, TransTimes_bias even_split D32 [1; 1; 0] 2 [10; 20] [9; 9] 3
          = Some r ∧
        length r = length [9; 9] ∧
        ∀ e k, 0 ≤ e < 2 → 0 ≤ k < 1 →
          vget r (e * 1 + k) =
          Some (col_acc D32 [1; 1; 0] 1 e k
                  (mul (vat [10; 20] (e * 1 + k)) 2))) ∧
  ([10; 20] = [] ∨ is_zero 2 = true →
   ∃ r, TransTimes_bias even_split D32 [1; 1; 0] 2 [10; 20] [9; 9] 3
          = Some r ∧
        TransTimes even_split D32 [1; 1; 0] [9; 9] 3 = Some r ∧
        length r = length [9; 9] ∧
        ∀ e k, 0 ≤ e < 2 → 0 ≤ k < 1 →
          vget r (e * 1 + k) = Some (col_acc D32 [1; 1; 0] 1 e k zero)) ∧
  (∃ r, TransTimes even_split D32 [1; 1; 0] [9; 9] 3 = Some r ∧
        length r = length [9; 9] ∧
        ∀ e k, 0 ≤ e < 2 → 0 ≤ k < 1 →
          vget r (e * 1 + k) = Some (col_acc D32 [1; 1; 0] 1 e k zero)) ∧
  (ExactScalar Z →
   (length [10; 20] = length [9; 9] →
    ∃ r, TransTimes_bias even_split D32 [1; 1; 0] 2 [10; 20] [9; 9] 3
           = Some r ∧
         length r = length [9; 9] ∧
         ∀ e k, 0 ≤ e < 2 → 0 ≤ k < 1 →
           vget r (e * 1 + k) =
           Some (add (DTx D32 [1; 1; 0] 1 e k)
                   (mul 2 (vat [10; 20] (e * 1 + k))))) ∧
   ([10; 20] = [] ∨ 2 = zero →
    ∃ r, TransTimes_bias even_split D32 [1; 1; 0] 2 [10; 20] [9; 9] 3
           = Some r ∧
         length r = length [9; 9] ∧
         ∀ e k, 0 ≤ e < 2 → 0 ≤ k < 1 →
           vget r (e * 1 + k) = Some (DTx D32 [1; 1; 0] 1 e k)) ∧
   (∃ r, TransTimes even_split D32 [1; 1; 0] [9; 9] 3 = Some r ∧
         length r = length [9; 9] ∧
         ∀ e k, 0 ≤ e < 2 → 0 ≤ k < 1 →
           vget r (e * 1 + k) = Some (DTx D32 [1; 1; 0] 1 e k))).
Proof.
  apply (TransTimes_computes_transpose Z Z_scalar even_split D32
           [1; 1; 0] 2 [10; 20] [9; 9] 2 1 3).
  - apply even_split_contract.
  - apply D32_wf.
  - simpl; lia.
  - lia.
  - lia.
  - lia.
  - reflexivity.
  - reflexivity.
Defined.

Section ProcessFileClaims.
Import ProcessFile.

(** C3: [ProcessFile] returns only after it has seen the count
    of the tracker at zero; for a training job a batch completes only
    right after the callback of its gradient push, which was issued
    before; so when [ProcessFile] has returned no pull and no gradient
    push is in flight, and every batch was completed (for a training
    job: had its gradient push completed) before the return. *)
Theorem ProcessFile_drains job n sched s :
  run job n sched init = Some s →
  (is_training job = true →
   ∀ b, RightAfter (GradientDone b) (Complete b) (trace s) ∧
        Before (PushGradient b) (GradientDone b) (trace s)) ∧
  (pc s = Returned →
   remains s = 0 ∧ count_pushes s = [] ∧ pulls s = [] ∧
   grad_pushes s = [] ∧ Return ∈ trace s ∧
   ∀ b, (b < n)%nat →
     Before (Complete b) Return (trace s) ∧
     (is_training job = true →
      Before (GradientDone b) Return (trace s) ∧
      GradientDone b ∈ trace s)).
Proof.
  intros Hrun.
  destruct (reachable_invariants job n sched s Hrun)
    as ([Hcnt _ _ Hret] & [_ _ _ Hcomp _ Hgrad Hall Hev]
        & [_ _ _ Hcw _ _] & _).
  split.
  - intros Htr b. split; [by apply Hcomp|apply Hgrad].
  - intros Hpc. specialize (Hret Hpc). specialize (Hev Hpc).
    split; [done|].
    assert (count_pushes s = []) as Hcp.
    { destruct (count_pushes s) as [|b cp] eqn:Hcps; [done|].
      specialize (Hcw b ltac:(left)). congruence. }
    assert (pulls s = [] ∧ grad_pushes s = []) as [Hp Hg].
    { rewrite Hret in Hcnt.
      destruct (pulls s), (grad_pushes s); simpl in Hcnt; done || lia. }
    split; [done|]. split; [done|]. split; [done|]. split; [done|].
    intros b Hb. split; [by apply Hall|].
    intros Htr.
    assert (Before (GradientDone b) Return (trace s)) as Hbefore.
    { apply (Before_trans _ (Complete b)); [|by apply Hall].
      by apply RightAfter_Before, Hcomp. }
    split; [done|]. by apply (Before_elem_of _ Return).
Qed.

Lemma ProcessFile_drains_witness :
  (is_training training0 = true →
   ∀ b, RightAfter (GradientDone b) (Complete b) (trace two_batches_end) ∧
        Before (PushGradient b) (GradientDone b) (trace two_batches_end)) ∧
  (pc two_batches_end = Returned →
   remains two_batches_end = 0 ∧ count_pushes two_batches_end = [] ∧
   pulls two_batches_end = [] ∧
   grad_pushes two_batches_end = [] ∧ Return ∈ trace two_batches_end ∧
   ∀ b, (b < 2)%nat →
     Before (Complete b) Return (trace two_batches_end) ∧
     (is_training training0 = true →
      Before (GradientDone b) Return (trace two_batches_end) ∧
      GradientDone b ∈ trace two_batches_end)).
Proof.
  apply (ProcessFile_drains training0 2 two_batches two_batches_end).
  reflexivity.
Defined.

(** C4: the localizer is asked for the counts of a batch iff the
    job is a training job of epoch 0; and when it is, the push of the
    counts is issued, the store completes it and [Wait] returns, all
    before the batch is added to the tracker, whose consumer issues the
    pull of the weights: the pull comes after the completion of the
    push of the counts. *)
Theorem counts_pushed_before_enqueue job n sched s :
  run job n sched init = Some s →
  (∀ b c, Compact b c ∈ trace s →
     (c = true ↔ Job.type_ job = Job.kTraining ∧ Job.epoch job = 0)) ∧
  (∀ b, ∃ c, Before (Compact b c) (TrackerAdd b) (trace s)) ∧
  (∀ b, Compact b true ∈ trace s →
     PushFeaCount b ∈ trace s ∧
     Before (Compact b true) (TrackerAdd b) (trace s) ∧
     Before (PushFeaCount b) (FeaCountDone b) (trace s) ∧
     Before (FeaCountDone b) (WaitReturned b) (trace s) ∧
     Before (WaitReturned b) (TrackerAdd b) (trace s) ∧
     RightAfter (TrackerAdd b) (PullWeight b) (trace s) ∧
     Before (FeaCountDone b) (PullWeight b) (trace s)).
Proof.
  intros Hrun.
  destruct (reachable_invariants job n sched s Hrun)
    as (_ & _ & [Hc Hi _ _ _ _] & [Hop Hoc How Hoa Hom Hol]).
  split; [|split].
  - intros b c Hin. rewrite (Hc b c Hin). apply push_cnt_spec.
  - intros b. exists (push_cnt job). apply Hom.
  - intros b Hin. pose proof (Hc b true Hin) as Hpc. symmetry in Hpc.
    split; [by apply Hi|].
    split; [specialize (Hom b); by rewrite Hpc in Hom|].
    split; [done|]. split; [done|]. split; [by apply Hoa|].
    split; [done|].
    apply (Before_trans _ (WaitReturned b)); [done|].
    apply (Before_trans _ (TrackerAdd b)); [by apply Hoa|].
    by apply RightAfter_Before.
Qed.

Lemma counts_pushed_before_enqueue_witness :
  (∀ b c, Compact b c ∈ trace two_batches_end →
     (c = true ↔
      Job.type_ training0 = Job.kTraining ∧ Job.epoch training0 = 0)) ∧
  (∀ b, ∃ c, Before (Compact b c) (TrackerAdd b) (trace two_batches_end)) ∧
  (∀ b, Compact b true ∈ trace two_batches_end →
     PushFeaCount b ∈ trace two_batches_end ∧
     Before (Compact b true) (TrackerAdd b) (trace two_batches_end) ∧
     Before (PushFeaCount b) (FeaCountDone b) (trace two_batches_end) ∧
     Before (FeaCountDone b) (WaitReturned b) (trace two_batches_end) ∧
     Before (WaitReturned b) (TrackerAdd b) (trace two_batches_end) ∧
     RightAfter (TrackerAdd b) (PullWeight b) (trace two_batches_end) ∧
     Before (FeaCountDone b) (PullWeight b) (trace two_batches_end)).
Proof.
  apply (counts_pushed_before_enqueue training0 2 two_batches
           two_batches_end).
  reflexivity.
Defined.

(** C5: in every execution of [ProcessFile] the count of the
    tracker stays between 0 and 11, and it is at most 10 when the
    thread is about to add a batch. *)
Theorem outstanding_at_most_eleven job n sched s :
  run job n sched init = Some s →
  0 ≤ remains s ≤ 11 ∧ (∀ b, pc s = Adding b → remains s ≤ 10).
Proof.
  intros Hrun.
  destruct (reachable_invariants job n sched s Hrun)
    as ([Hcnt Hadd Hbound _] & _).
  split; [|done]. split; [lia|done].
Qed.

Lemma outstanding_at_most_eleven_witness :
  0 ≤ remains twelve_batches_end ≤ 11 ∧
  (∀ b, pc twelve_batches_end = Adding b → remains twelve_batches_end ≤ 10).
Proof.
  apply (outstanding_at_most_eleven validation1 12 twelve_batches
           twelve_batches_end).
  reflexivity.
Defined.

Example eleven_is_reached :
  run validation1 12 twelve_batches init = Some twelve_batches_end ∧
  remains twelve_batches_end = 11.
Proof. split; reflexivity. Qed.
End ProcessFileClaims.

(** C6: with an empty input vector [Times] and both forms of
    [TransTimes] return at once; the output keeps its content, it is
    neither zeroed nor filled with the bias. *)
Theorem empty_input_is_noop (V : Type) (S : Scalar V)
    (Segment : Range.t → Z → Z → Range.t) (D : RowBlock.t V)
    (p : V) (z y : list V) (nt : Z) :
  Times Segment D [] y nt = Some y ∧
  TransTimes Segment D [] y nt = Some y ∧
  TransTimes_bias Segment D [] p z y nt = Some y.
Proof. repeat split. Qed.

(** C7: for a matrix [D] with [n] rows and [m] columns, vectors [u] of
    shape [m × dim] and [w] of shape [n × dim] (sizes in the range of
    the index arithmetic: [dim < 2^31], at most [2^32] elements in [u]),
    and a team of [nt ≥ 1] threads, [Times] and both forms of
    [TransTimes] write what they write with a single thread. *)
Theorem thread_count_irrelevant (V : Type) (S : Scalar V)
    (Segment : Range.t → Z → Z → Range.t) (D : RowBlock.t V)
    (u w : list V) (p : V) (z : list V) (m dim nt : Z) :
  SegmentContract Segment → wf_matrix D m → 1 ≤ nt →
  0 ≤ dim < 2 ^ 31 → m * dim ≤ 2 ^ 32 →
  Z.of_nat (length u) = m * dim →
  Z.of_nat (length w) = RowBlock.size D * dim →
  Times Segment D u w nt = Times Segment D u w 1 ∧
  TransTimes Segment D w u nt = TransTimes Segment D w u 1 ∧
  TransTimes_bias Segment D w p z u nt = TransTimes_bias Segment D w p z u 1.
Proof.
  intros Hseg Hwf Hnt Hdim Hm32 Hu Hw. split; [|split].
  - apply (Times_nt_irrelevant Segment Hseg D u w m dim nt); try done. lia.
  - apply (TransTimes_bias_nt_irrelevant Segment Hseg D w zero [] u m dim nt);
      try done. lia.
  - apply (TransTimes_bias_nt_irrelevant Segment Hseg D w p z u m dim nt);
      try done. lia.
Qed.

Lemma thread_count_irrelevant_witness :
  Times even_split D32 [5; 7] [9; 9; 9] 3 =
    Times even_split D32 [5; 7] [9; 9; 9] 1 ∧
  TransTimes even_split D32 [1; 1; 0] [5; 7] 3 =
    TransTimes even_split D32 [1; 1; 0] [5; 7] 1 ∧
  TransTimes_bias even_split D32 [1; 1; 0] 2 [10; 20] [5; 7] 3 =
    TransTimes_bias even_split D32 [1; 1; 0] 2 [10; 20] [5; 7] 1.
Proof.
  apply (thread_count_irrelevant Z Z_scalar even_split D32
           [5; 7] [1; 1; 0] 2 [10; 20] 2 1 3).
  - apply even_split_contract.
  - apply D32_wf.
  - lia.
  - lia.
  - lia.
  - reflexivity.
  - reflexivity.
Defined.

Section InitClaim.
Import DiFacto.
Variable InitAllowUnknown : KWArgs → option (DiFactoParam * KWArgs).
Variable tracker_Init : bool → KWArgs → option KWArgs.
Variable store_Init : bool → KWArgs → option KWArgs.
Variable loss_Init : string → KWArgs → option KWArgs.

(** C8: [Init] adds no failure of its own.  Whenever the parameters,
    the tracker, the store and the loss return, each with the arguments
    it has not consumed, [Init] returns, and it returns the arguments
    none of them has consumed, whatever these are.  It logs a warning
    iff the task does not contain "dist_" and there is such an
    argument; the warning is the line "unrecognized keyword argument:"
    followed, for each such argument in order, by the line made of two
    spaces, the key, " : " and the value.  When the task contains
    "dist_" nothing is logged. *)
Theorem Init_warns_only_locally (kwargs : KWArgs) (param : DiFactoParam)
    (local : bool) (u0 u1 u2 unknown : KWArgs) :
  InitAllowUnknown kwargs = Some (param, u0) →
  (local = true ↔ ¬ contains "dist_" (task param)) →
  tracker_Init local u0 = Some u1 →
  store_Init local u1 = Some u2 →
  loss_Init (loss param) u2 = Some unknown →
  ∃ r, Init InitAllowUnknown tracker_Init store_Init loss_Init kwargs
       = Some r ∧
    param_ r = param ∧ local_ r = local ∧ remain r = unknown ∧
    (warnings r ≠ [] ↔ ¬ contains "dist_" (task param) ∧ unknown ≠ []) ∧
    (¬ contains "dist_" (task param) → unknown ≠ [] →
     warnings r =
       "unrecognized keyword argument:"%string
       :: map (λ kw : string * string,
                 String.append "  "
                   (String.append kw.1 (String.append " : " kw.2)))
            unknown ∧
     length (warnings r) = S (length unknown) ∧
     ∀ (i : nat) (key value : string),
       unknown !! i = Some (key, value) →
       warnings r !! S i
       = Some (String.append "  "
                 (String.append key (String.append " : " value)))) ∧
    (contains "dist_" (task param) → warnings r = []) ∧
    (unknown = [] → warnings r = []).
Proof.
  intros Hp Hlocal Ht Hs Hl. unfold Init. rewrite Hp. simpl.
  assert (match find "dist_" (task param) with
          | Some _ => false | None => true end = local) as ->.
  { destruct (find "dist_" (task param)) eqn:Hf.
    - destruct local; [|done]. exfalso.
      apply (proj1 Hlocal eq_refl). apply find_Some. by eexists.
    - destruct local; [done|]. symmetry. apply Hlocal.
      by apply find_None. }
  rewrite Ht. simpl. rewrite Hs. simpl. rewrite Hl. simpl.
  eexists. split; [done|]. simpl.
  split; [done|]. split; [done|]. split; [done|].
  destruct local; simpl.
  - pose proof (proj1 Hlocal eq_refl) as Hnd.
    destruct unknown as [|kw rest]; simpl.
    + split; [|split; [|split]]; try done.
      split; [done|]. by intros [_ ?].
    + split; [|split; [|split]]; try done.
      intros _ _. split; [done|]. split.
      { by rewrite length_map. }
      intros i key value Hi.
      change (map warning_line (kw :: rest) !! i
              = Some (warning_line (key, value))).
      revert i Hi. generalize (kw :: rest).
      induction l as [|kw' l IH]; intros [|i] Hi; simpl in *;
        simplify_eq; [done|by apply IH].
  - assert (contains "dist_" (task param)) as Hd.
    { destruct (find "dist_" (task param)) eqn:Hf.
      - apply find_Some. by eexists.
      - apply find_None in Hf. by apply Hlocal in Hf. }
    split; [|split; [|split]]; try done.
    split; [done|]. by intros [? _].
Qed.
End InitClaim.

Lemma Init_warns_only_locally_witness :
  ∃ r, DiFacto.Init (λ kw, Some (local_training, kw)) (λ _, Some) (λ _, Some)
         (λ _, Some) [("lr", "0.1"); ("seed", "7")]%string = Some r ∧
    DiFacto.param_ r = local_training ∧ DiFacto.local_ r = true ∧
    DiFacto.remain r = [("lr", "0.1"); ("seed", "7")]%string ∧
    (DiFacto.warnings r ≠ []
     ↔ ¬ contains "dist_" (DiFacto.task local_training)
       ∧ [("lr", "0.1"); ("seed", "7")]%string ≠ []) ∧
    (¬ contains "dist_" (DiFacto.task local_training) →
     [("lr", "0.1"); ("seed", "7")]%string ≠ [] →
     DiFacto.warnings r =
       "unrecognized keyword argument:"%string
       :: map (λ kw : string * string,
                 String.append "  "
                   (String.append kw.1 (String.append " : " kw.2)))
            [("lr", "0.1"); ("seed", "7")]%string ∧
     length (DiFacto.warnings r)
     = S (length [("lr", "0.1"); ("seed", "7")]%string) ∧
     ∀ (i : nat) (key value : string),
       [("lr", "0.1"); ("seed", "7")]%string !! i = Some (key, value) →
       DiFacto.warnings r !! S i
       = Some (String.append "  "
                 (String.append key (String.append " : " value)))) ∧
    (contains "dist_" (DiFacto.task local_training) →
     DiFacto.warnings r = []) ∧
    ([("lr", "0.1"); ("seed", "7")]%string = [] → DiFacto.warnings r = []).
Proof.
  apply (Init_warns_only_locally (λ kw, Some (local_training, kw)) (λ _, Some)
           (λ _, Some) (λ _, Some) [("lr", "0.1"); ("seed", "7")]%string
           local_training true
           [("lr", "0.1"); ("seed", "7")]%string
           [("lr", "0.1"); ("seed", "7")]%string
           [("lr", "0.1"); ("seed", "7")]%string
           [("lr", "0.1"); ("seed", "7")]%string).
  - reflexivity.
  - split; [|done]. intros _. by apply find_None.
  - reflexivity.
  - reflexivity.
  - reflexivity.
Defined.

(** What is logged for the two arguments above. *)
Example Init_warning_text :
  DiFacto.warnings
    <$> DiFacto.Init (λ kw, Some (local_training, kw)) (λ _, Some)
          (λ _, Some) (λ _, Some) [("lr", "0.1"); ("seed", "7")]%string
  = Some ["unrecognized keyword argument:"; "  lr : 0.1";
          "  seed : 7"]%string.
Proof. reflexivity. Qed.

(** C9, as stated, fails: with an empty [x] nothing is initialised,
    whether [z] has the length of [y] (first part) or not (second
    part). *)
Lemma bias_rule_empty_x_counterexample :
  ¬ bias_rule_as_stated even_split D01 [] 2 [3] [7] 1 1 1 ∧
  ¬ bias_rule_as_stated even_split D01 [] 2 [3; 4] [7] 1 1 1.
Proof.
  split; intros Hc.
  - destruct Hc as (r & Hr & Hbias & _); [apply D01_wf|done..|].
    vm_compute in Hr. injection Hr as Heq. subst r.
    specialize (Hbias ltac:(split; [reflexivity|discriminate])
                  0 0 ltac:(lia) ltac:(lia)).
    vm_compute in Hbias. discriminate.
  - destruct Hc as (r & Hr & _ & Hplain); [apply D01_wf|done..|].
    vm_compute in Hr. injection Hr as Heq. subst r.
    specialize (Hplain ltac:(intros [Hl _]; discriminate)
                  0 0 ltac:(lia) ltac:(lia)).
    vm_compute in Hplain. discriminate.
Qed.

(** C9 (amended): for a matrix with at least one row and a non-empty
    [x] (sizes in the range of the index arithmetic), in any arithmetic
    [V], the biased [TransTimes] succeeds for every [z].  When [z] has
    the length of [y] and the test [p != 0] holds, [y] is filled with
    [z*p] and the products are accumulated on top of it, in storage
    order; otherwise [z] is ignored: [y] is zeroed, the products are
    accumulated from zero, and the call leaves in [y] what the plain
    [TransTimes] leaves.  In exact arithmetic the test is [p ≠ 0] and
    the results are [z*p + D' x] and [D' x]. *)
Theorem bias_rule (V : Type) (S : Scalar V)
    (Segment : Range.t → Z → Z → Range.t) (D : RowBlock.t V)
    (x : list V) (p : V) (z y : list V) (m dim nt : Z) :
  SegmentContract Segment → wf_matrix D m →
  0 < RowBlock.size D → 0 < nt →
  0 < dim < 2 ^ 31 → m * dim ≤ 2 ^ 32 →
  Z.of_nat (length x) = RowBlock.size D * dim →
  Z.of_nat (length y) = m * dim →
  ∃ r, TransTimes_bias Segment D x p z y nt = Some r ∧
       length r = length y ∧
       (length z = length y ∧ is_zero p = false →
        ∀ e k, 0 ≤ e < m → 0 ≤ k < dim →
          vget r (e * dim + k) =
          Some (col_acc D x dim e k (mul (vat z (e * dim + k)) p))) ∧
       (¬ (length z = length y ∧ is_zero p = false) →
        TransTimes Segment D x y nt = Some r ∧
        ∀ e k, 0 ≤ e < m → 0 ≤ k < dim →
          vget r (e * dim + k) = Some (col_acc D x dim e k zero)) ∧
       (ExactScalar V →
        (length z = length y ∧ p ≠ zero →
         ∀ e k, 0 ≤ e < m → 0 ≤ k < dim →
           vget r (e * dim + k) =
           Some (add (mul (vat z (e * dim + k)) p) (DTx D x dim e k))) ∧
        (¬ (length z = length y ∧ p ≠ zero) →
         TransTimes Segment D x y nt = Some r ∧
         ∀ e k, 0 ≤ e < m → 0 ≤ k < dim →
           vget r (e * dim + k) = Some (DTx D x dim e k))).
Proof.
  intros Hseg Hwf Hn Hnt Hdim Hm32 Hx Hy.
  destruct (TransTimes_bias_cols Segment Hseg D x p z y m dim nt)
    as (r & Hr & Hlen & Hcols); try done.
  exists r. split; [done|]. split; [done|].
  assert (bias_applied p z y = true
          ↔ length z = length y ∧ is_zero p = false) as Hiff.
  { unfold bias_applied.
    by rewrite andb_true_iff, Nat.eqb_eq, negb_true_iff. }
  assert (¬ (length z = length y ∧ is_zero p = false) →
          TransTimes Segment D x y nt = Some r ∧
          ∀ e k, 0 ≤ e < m → 0 ≤ k < dim →
            vget r (e * dim + k) = Some (col_acc D x dim e k zero))
    as Hignored.
  { intros Hc.
    assert (bias_applied p z y = false) as Hb.
    { destruct (bias_applied p z y); [|done]. destruct Hc. by apply Hiff. }
    split.
    - by rewrite <- (TransTimes_bias_ignored Segment D x p z y nt Hb).
    - intros e k He Hk. rewrite Hcols by done. by rewrite Hb. }
  split; [|split; [done|]].
  - intros Hc e k He Hk. rewrite Hcols by done.
    by rewrite (proj2 Hiff Hc).
  - intros E.
    assert (is_zero p = false ↔ p ≠ zero) as Hp.
    { split; [apply is_zero_false|].
      intros Hne. destruct (is_zero p) eqn:Hz; [|done].
      by apply is_zero_true in Hz. }
    split.
    + intros [Hl Hne] e k He Hk. rewrite Hcols by done.
      rewrite (proj2 Hiff (conj Hl (proj2 Hp Hne))).
      by rewrite col_acc_DTx.
    + intros Hc.
      destruct Hignored as [HT Hz].
      { intros [Hl Hz]. apply Hc. split; [done|]. by apply Hp. }
      split; [done|].
      intros e k He Hk. rewrite Hz by done.
      by rewrite col_acc_DTx, add_zero_l.
Qed.

Lemma bias_rule_witness :
  ∃ r, TransTimes_bias even_split D32 [1; 1; 0] 2 [10; 20; 30] [9; 9] 3
         = Some r ∧
       length r = length [9; 9] ∧
       (length [10; 20; 30] = length [9; 9] ∧ is_zero 2 = false →
        ∀ e k, 0 ≤ e < 2 → 0 ≤ k < 1 →
          vget r (e * 1 + k) =
          Some (col_acc D32 [1; 1; 0] 1 e k
                  (mul (vat [10; 20; 30] (e * 1 + k)) 2))) ∧
       (¬ (length [10; 20; 30] = length [9; 9] ∧ is_zero 2 = false) →
        TransTimes even_split D32 [1; 1; 0] [9; 9] 3 = Some r ∧
        ∀ e k, 0 ≤ e < 2 → 0 ≤ k < 1 →
          vget r (e * 1 + k) = Some (col_acc D32 [1; 1; 0] 1 e k zero)) ∧
       (ExactScalar Z →
        (length [10; 20; 30] = length [9; 9] ∧ 2 ≠ zero →
         ∀ e k, 0 ≤ e < 2 → 0 ≤ k < 1 →
           vget r (e * 1 + k) =
           Some (add (mul (vat [10; 20; 30] (e * 1 + k)) 2)
                   (DTx D32 [1; 1; 0] 1 e k))) ∧
        (¬ (length [10; 20; 30] = length [9; 9] ∧ 2 ≠ zero) →
         TransTimes even_split D32 [1; 1; 0] [9; 9] 3 = Some r ∧
         ∀ e k, 0 ≤ e < 2 → 0 ≤ k < 1 →
           vget r (e * 1 + k) = Some (DTx D32 [1; 1; 0] 1 e k))).
Proof.
  apply (bias_rule Z Z_scalar even_split D32
           [1; 1; 0] 2 [10; 20; 30] [9; 9] 2 1 3).
  - apply even_split_contract.
  - apply D32_wf.
  - simpl; lia.
  - lia.
  - lia.
  - lia.
  - reflexivity.
  - reflexivity.
Defined.

Section RunSchedulerClaim.
Import DiFacto.
Variable fresh_job : Job.t.

(** C10: when the task contains "predict" and [model_in] is empty,
    [RunScheduler] fails on its check before it has added any job; jobs
    of type prediction are added only with a non-empty [model_in],
    after the job that loads the model was added and waited for. *)
Theorem predict_needs_model (param : DiFactoParam) :
  (contains "predict" (task param) → model_in param = ""%string →
   RunScheduler fresh_job param
     = ([], CheckFailed "param_.model_in.size()")) ∧
  (∀ jobs j, Add jobs ∈ (RunScheduler fresh_job param).1 → j ∈ jobs →
     Job.type_ j = Job.kPrediction →
     model_in param ≠ ""%string ∧
     ∃ rest, (RunScheduler fresh_job param).1
             = Add [load_job fresh_job param] :: WaitDrained :: rest).
Proof.
  split.
  - intros Hp Hm. unfold RunScheduler. rewrite Hm. simpl.
    apply find_Some in Hp as [k ->]. done.
  - intros jobs j Hin Hj Hty. unfold RunScheduler in *.
    destruct (String.length (model_in param) =? 0)%nat eqn:Hm; simpl in *.
    + exfalso. destruct (find "predict" (task param)); simpl in Hin.
      * by apply not_elem_of_nil in Hin.
      * destruct (train_loop_jobs param 0 jobs j Hin Hj); congruence.
    + split.
      { intros Heq. apply length_zero_empty in Heq. congruence. }
      destruct (find "predict" (task param)); simpl; eauto.
Qed.
End RunSchedulerClaim.

Lemma predict_needs_model_witness :
  DiFacto.RunScheduler fresh_job0 predict_without_model
  = ([], DiFacto.CheckFailed "param_.model_in.size()").
Proof.
  apply (proj1 (predict_needs_model fresh_job0 predict_without_model)).
  - exists ""%string, ""%string. reflexivity.
  - reflexivity.
Defined.

Example TransTimes_scenario :
  TransTimes even_split D32 [1; 1; 0] [9; 9] 2 = Some [3; 3] ∧
  TransTimes_bias even_split D32 [1; 1; 0] 2 [10; 20] [9; 9] 2
    = Some [23; 43] ∧
  TransTimes_bias even_split D32 [1; 1; 0] 2 [10; 20; 30] [9; 9] 2
    = Some [3; 3].
Proof. repeat split. Qed.

(** * Further properties of the code *)

(** ** The kernels at the edges of their inputs *)

(** X1: [Times] does not check the column ids against the size of [x].
    When an entry [j] of a row names a column whose block of [dim]
    elements does not lie inside [x], the kernel reads outside of [x]:
    the call has undefined behaviour. *)
Theorem Times_reads_out_of_bounds (V : Type) (S : Scalar V)
    (Segment : Range.t → Z → Z → Range.t) (D : RowBlock.t V)
    (x y : list V) (dim nt i j : Z) :
  SegmentContract Segment → 0 < nt → 0 < dim < 2 ^ 31 →
  Z.of_nat (length y) = RowBlock.size D * dim →
  0 ≤ i < RowBlock.size D → row_begin D i ≤ j < row_end D i →
  x ≠ [] → Z.of_nat (length x) < wrap32 (col D j * dim) + dim →
  Times Segment D x y nt = None.
Proof.
  intros Hseg Hnt Hdim Hy Hi Hj Hx0 Hx. unfold Times.
  destruct x as [|x0 x']; [done|]. simpl (_ =? _)%nat. cbv iota.
  destruct (Z.eqb_spec (RowBlock.size D) 0); [lia|].
  rewrite (shape_dim y _ dim) by lia.
  rewrite to_int_small by lia.
  apply (Times_kernel_fault Segment Hseg D _ y dim nt i j); try done; lia.
Qed.

Lemma Times_reads_out_of_bounds_witness :
  Times even_split D32 [5] [9; 9; 9] 2 = None.
Proof.
  apply (Times_reads_out_of_bounds Z Z_scalar even_split D32 [5] [9; 9; 9]
           1 2 1 2).
  - apply even_split_contract.
  - lia.
  - lia.
  - reflexivity.
  - simpl; lia.
  - vm_compute. split; congruence.
  - discriminate.
  - vm_compute. reflexivity.
Defined.

(** X2: with an output that has fewer elements than the matrix has
    rows, [dim = y->size() / D.size] is zero: [Times] zeroes nothing,
    adds nothing and leaves [y] as it was, without any error. *)
Theorem Times_short_output (V : Type) (S : Scalar V)
    (Segment : Range.t → Z → Z → Range.t) (D : RowBlock.t V)
    (x y : list V) (m nt : Z) :
  SegmentContract Segment → wf_matrix D m → x ≠ [] →
  Z.of_nat (length y) < RowBlock.size D →
  Times Segment D x y nt = Some y.
Proof.
  intros Hseg Hwf Hx Hy. unfold Times.
  destruct x as [|x0 x]; [done|]. simpl.
  destruct (Z.eqb_spec (RowBlock.size D) 0) as [|Hn]; [lia|].
  rewrite Z.div_small by lia. change (to_int 0) with 0.
  by apply (Times_kernel_dim0 Segment Hseg D _ y m).
Qed.

Lemma Times_short_output_witness :
  Times even_split D32 [5; 7] [9; 9] 2 = Some [9; 9].
Proof.
  apply (Times_short_output Z Z_scalar even_split D32 [5; 7] [9; 9] 2 2).
  - apply even_split_contract.
  - apply D32_wf.
  - discriminate.
  - simpl. lia.
Defined.

(** X3: with a non-empty input that has fewer elements than the matrix
    has rows, [dim = x.size() / D.size] is zero and both forms of
    [TransTimes] divide [y_size] by it: the call has undefined
    behaviour, whatever [p], [z] and [y] are. *)
Theorem TransTimes_short_input (V : Type) (S : Scalar V)
    (Segment : Range.t → Z → Z → Range.t) (D : RowBlock.t V)
    (x : list V) (p : V) (z y : list V) (nt : Z) :
  0 < Z.of_nat (length x) < RowBlock.size D →
  TransTimes_bias Segment D x p z y nt = None ∧
  TransTimes Segment D x y nt = None.
Proof.
  intros Hx.
  assert (∀ p z, TransTimes_bias Segment D x p z y nt = None) as Hnone.
  { intros p0 z0. unfold TransTimes_bias.
    destruct (Nat.eqb_spec (length x) 0); [lia|].
    destruct (Z.eqb_spec (RowBlock.size D) 0); [lia|].
    rewrite Z.div_small by lia. change (to_int 0) with 0.
    destruct (_ && _); apply TransTimes_kernel_dim0. }
  split; apply Hnone.
Qed.

Lemma TransTimes_short_input_witness :
  TransTimes_bias even_split D32 [1; 1] 2 [10; 20] [9; 9] 2 = None ∧
  TransTimes even_split D32 [1; 1] [9; 9] 2 = None.
Proof.
  apply (TransTimes_short_input Z Z_scalar even_split D32 [1; 1] 2 [10; 20]
           [9; 9] 2).
  simpl. lia.
Defined.

(** X4: when the size of [y] is not a multiple of the number of rows,
    [dim] is the quotient rounded down: in any arithmetic [V], [Times]
    leaves in the first [D.size * dim] elements of [y] the sums of the
    rows accumulated in storage order from zero (in exact arithmetic,
    the product [D x]) and leaves the remaining elements as they
    were. *)
Theorem Times_ragged_output (V : Type) (S : Scalar V)
    (Segment : Range.t → Z → Z → Range.t) (D : RowBlock.t V)
    (x y : list V) (m dim nt : Z) :
  SegmentContract Segment → wf_matrix D m →
  0 < RowBlock.size D → 0 < nt → 0 < m →
  0 < dim < 2 ^ 31 → m * dim ≤ 2 ^ 32 →
  Z.of_nat (length x) = m * dim →
  RowBlock.size D * dim ≤ Z.of_nat (length y)
    < RowBlock.size D * dim + RowBlock.size D →
  ∃ r, Times Segment D x y nt = Some r ∧ length r = length y ∧
       (∀ i k, 0 ≤ i < RowBlock.size D → 0 ≤ k < dim →
          vget r (i * dim + k) = Some (row_acc D x dim i k zero) ∧
          (ExactScalar V →
           vget r (i * dim + k) = Some (Dx D x dim i k))) ∧
       (∀ q, RowBlock.size D * dim ≤ q → vget r q = vget y q).
Proof.
  intros Hseg Hwf Hn Hnt Hm Hdim Hm32 Hx Hy. unfold Times.
  destruct (Nat.eqb_spec (length x) 0) as [Hx0|_]; [nia|].
  destruct (Z.eqb_spec (RowBlock.size D) 0); [lia|].
  assert (Z.of_nat (length y) / RowBlock.size D = dim) as ->.
  { symmetry.
    apply (Z.div_unique_pos _ _ _
             (Z.of_nat (length y) - RowBlock.size D * dim)); lia. }
  rewrite to_int_small by lia.
  destruct (Times_kernel_spec Segment Hseg D x y m dim nt)
    as (r & Hr & Hlen & Hrows & Htail); try done; try lia.
  exists r. split; [done|]. split; [done|]. split; [|done].
  intros i k Hi Hk. rewrite Hrows by done. split; [done|].
  intros E. by rewrite row_acc_Dx.
Qed.

Lemma Times_ragged_output_witness :
  ∃ r, Times even_split D32 [5; 7] [9; 9; 9; 8; 8] 2 = Some r ∧
       length r = length [9; 9; 9; 8; 8] ∧
       (∀ i k, 0 ≤ i < 3 → 0 ≤ k < 1 →
          vget r (i * 1 + k) = Some (row_acc D32 [5; 7] 1 i k zero) ∧
          (ExactScalar Z →
           vget r (i * 1 + k) = Some (Dx D32 [5; 7] 1 i k))) ∧
       (∀ q, 3 * 1 ≤ q → vget r q = vget [9; 9; 9; 8; 8] q).
Proof.
  apply (Times_ragged_output Z Z_scalar even_split D32 [5; 7]
           [9; 9; 9; 8; 8] 2 1 2).
  - apply even_split_contract.
  - apply D32_wf.
  - simpl; lia.
  - lia.
  - lia.
  - lia.
  - lia.
  - reflexivity.
  - simpl; lia.
Defined.

(** X5: [TransTimes] never writes outside of [y], whatever the column
    ids of the matrix are: every thread tests [rg.Has(e)] and the
    segments lie inside [[0, y_size / dim)], so the entries whose column
    is not below [y_size / dim] are skipped.  In any arithmetic [V] and
    for any [y] (of at most [2^32] elements) the call succeeds, the
    blocks of [y] hold the initial fill ([z*p], or zero when the bias
    is not applied) with the products accumulated on top of it in
    storage order, and the elements after the last whole block hold
    the initial fill alone.  In exact arithmetic a block holds
    [z*p + D' x], or [D' x]. *)
Theorem TransTimes_stays_inside (V : Type) (S : Scalar V)
    (Segment : Range.t → Z → Z → Range.t) (D : RowBlock.t V)
    (x : list V) (p : V) (z y : list V) (m dim nt : Z) :
  SegmentContract Segment → wf_matrix D m →
  0 < RowBlock.size D → 0 < nt → 0 < dim < 2 ^ 31 →
  Z.of_nat (length x) = RowBlock.size D * dim →
  Z.of_nat (length y) ≤ 2 ^ 32 →
  ∃ r, TransTimes_bias Segment D x p z y nt = Some r ∧
       length r = length y ∧
       (∀ e k, 0 ≤ e < Z.of_nat (length y) / dim → 0 ≤ k < dim →
          vget r (e * dim + k) =
          Some (col_acc D x dim e k
                  (if bias_applied p z y
                   then mul (vat z (e * dim + k)) p else zero)) ∧
          (ExactScalar V →
           vget r (e * dim + k) =
           Some (add (if bias_applied p z y
                      then mul (vat z (e * dim + k)) p else zero)
                   (DTx D x dim e k)))) ∧
       (∀ q, Z.of_nat (length y) / dim * dim ≤ q < Z.of_nat (length y) →
          vget r q =
          Some (if bias_applied p z y then mul (vat z q) p else zero)).
Proof.
  intros Hseg Hwf Hn Hnt Hdim Hx Hy. unfold TransTimes_bias.
  destruct (Nat.eqb_spec (length x) 0) as [Hx0|_]; [nia|].
  destruct (Z.eqb_spec (RowBlock.size D) 0); [lia|].
  rewrite (shape_dim x _ dim) by lia.
  rewrite to_int_small by lia.
  fold (bias_applied p z y).
  destruct (bias_applied p z y) eqn:Hb.
  - destruct (TransTimes_kernel_spec Segment Hseg D x (Some z) p y
                m dim nt) as (r & Hr & Hlen & Hcols & Htail);
      try done; try lia.
    { intros zl [= <-]. unfold bias_applied in Hb.
      apply andb_true_iff in Hb as [Hb _]. by apply Nat.eqb_eq in Hb. }
    exists r. split; [done|]. split; [done|]. split; [|done].
    intros e k He Hk. rewrite Hcols by lia. split; [done|].
    intros E. by rewrite col_acc_DTx.
  - destruct (TransTimes_kernel_spec Segment Hseg D x None zero y
                m dim nt) as (r & Hr & Hlen & Hcols & Htail);
      try done; try lia.
    exists r. split; [done|]. split; [done|]. split; [|done].
    intros e k He Hk. rewrite Hcols by lia. split; [done|].
    intros E. by rewrite col_acc_DTx.
Qed.

(** The scenario matrix has two columns; with an output of one element
    the entry of column 1 is skipped. *)
Lemma TransTimes_stays_inside_witness :
  ∃ r, TransTimes_bias even_split D32 [1; 1; 0] 2 [10] [9] 2 = Some r ∧
       length r = length [9] ∧
       (∀ e k, 0 ≤ e < Z.of_nat (length [9]) / 1 → 0 ≤ k < 1 →
          vget r (e * 1 + k) =
          Some (col_acc D32 [1; 1; 0] 1 e k
                  (if bias_applied 2 [10] [9]
                   then mul (vat [10] (e * 1 + k)) 2 else zero)) ∧
          (ExactScalar Z →
           vget r (e * 1 + k) =
           Some (add (if bias_applied 2 [10] [9]
                      then mul (vat [10] (e * 1 + k)) 2 else zero)
                   (DTx D32 [1; 1; 0] 1 e k)))) ∧
       (∀ q, Z.of_nat (length [9]) / 1 * 1 ≤ q < Z.of_nat (length [9]) →
          vget r q =
          Some (if bias_applied 2 [10] [9] then mul (vat [10] q) 2
                else zero)).
Proof.
  apply (TransTimes_stays_inside Z Z_scalar even_split D32
           [1; 1; 0] 2 [10] [9] 2 1 2).
  - apply even_split_contract.
  - apply D32_wf.
  - simpl; lia.
  - lia.
  - lia.
  - reflexivity.
  - simpl; lia.
Defined.

(** X6: the output vector is written, never read.  For [u] of shape
    [m × dim] and [w] of shape [n × dim], what [Times] leaves in the
    output ([w] or [w'], of the same size) and what both forms of
    [TransTimes] leave in the output ([u] or [u'], of the same size)
    does not depend on what the output held before the call. *)
Theorem output_is_overwritten (V : Type) (S : Scalar V)
    (Segment : Range.t → Z → Z → Range.t) (D : RowBlock.t V)
    (u w u' w' : list V) (p : V) (z : list V) (m dim nt : Z) :
  SegmentContract Segment → wf_matrix D m →
  0 < RowBlock.size D → 0 < m → 0 < nt →
  0 < dim < 2 ^ 31 → m * dim ≤ 2 ^ 32 →
  Z.of_nat (length u) = m * dim →
  Z.of_nat (length w) = RowBlock.size D * dim →
  length u' = length u → length w' = length w →
  Times Segment D u w nt = Times Segment D u w' nt ∧
  TransTimes Segment D w u nt = TransTimes Segment D w u' nt ∧
  TransTimes_bias Segment D w p z u nt
    = TransTimes_bias Segment D w p z u' nt.
Proof.
  intros Hseg Hwf Hn Hm Hnt Hdim Hm32 Hu Hw Hu' Hw'.
  assert (∀ p z, TransTimes_bias Segment D w p z u nt
                 = TransTimes_bias Segment D w p z u' nt) as HT.
  { intros p0 z0.
    destruct (TransTimes_bias_cols Segment Hseg D w p0 z0 u m dim nt)
      as (r & -> & Hlen & Hcols); try done.
    destruct (TransTimes_bias_cols Segment Hseg D w p0 z0 u' m dim nt)
      as (r' & -> & Hlen' & Hcols'); try done; try lia.
    f_equal. apply vget_ext; [congruence|].
    intros q Hq. rewrite Hlen, Hu in Hq.
    destruct (slice_decompose dim m q)
      as (e & k & He & Hk & ->); [lia|done|].
    rewrite Hcols, Hcols' by done.
    unfold bias_applied. by rewrite Hu'. }
  split; [|split; [apply HT|apply HT]].
  destruct (Times_rows Segment Hseg D u w m dim nt)
    as (r & -> & Hlen & Hrows); try done.
  destruct (Times_rows Segment Hseg D u w' m dim nt)
    as (r' & -> & Hlen' & Hrows'); try done; try lia.
  f_equal. apply vget_ext; [congruence|].
  intros q Hq. rewrite Hlen, Hw in Hq.
  destruct (slice_decompose dim (RowBlock.size D) q)
    as (i & k & Hi & Hk & ->); [lia|done|].
  by rewrite Hrows, Hrows'.
Qed.

Lemma output_is_overwritten_witness :
  Times even_split D32 [5; 7] [9; 9; 9] 2
    = Times even_split D32 [5; 7] [1; 2; 3] 2 ∧
  TransTimes even_split D32 [9; 9; 9] [5; 7] 2
    = TransTimes even_split D32 [9; 9; 9] [4; 4] 2 ∧
  TransTimes_bias even_split D32 [9; 9; 9] 2 [10; 20] [5; 7] 2
    = TransTimes_bias even_split D32 [9; 9; 9] 2 [10; 20] [4; 4] 2.
Proof.
  apply (output_is_overwritten Z Z_scalar even_split D32
           [5; 7] [9; 9; 9] [4; 4] [1; 2; 3] 2 [10; 20] 2 1 2).
  - apply even_split_contract.
  - apply D32_wf.
  - simpl; lia.
  - lia.
  - lia.
  - lia.
  - lia.
  - reflexivity.
  - reflexivity.
  - reflexivity.
  - reflexivity.
Defined.

(** X7: [Times] and [TransTimes] are adjoint.  For [x] of shape
    [m × dim] and [w] of shape [n × dim], in arithmetic where the
    multiplication distributes over the addition, the inner product of
    [w] with what [Times] computes from [x] is the inner product of
    what [TransTimes] computes from [w] with [x]. *)
Theorem Times_TransTimes_adjoint (V : Type) (S : Scalar V)
    (E : ExactScalar V) (R : SemiringScalar V)
    (Segment : Range.t → Z → Z → Range.t) (D : RowBlock.t V)
    (x w y u : list V) (m dim nt : Z) :
  SegmentContract Segment → wf_matrix D m →
  0 < RowBlock.size D → 0 < m → 0 < nt →
  0 < dim < 2 ^ 31 → m * dim ≤ 2 ^ 32 →
  Z.of_nat (length x) = m * dim →
  Z.of_nat (length u) = m * dim →
  Z.of_nat (length w) = RowBlock.size D * dim →
  Z.of_nat (length y) = RowBlock.size D * dim →
  ∃ Dx_ DTw,
    Times Segment D x y nt = Some Dx_ ∧
    TransTimes Segment D w u nt = Some DTw ∧
    dot (RowBlock.size D) dim w Dx_ = dot m dim DTw x.
Proof.
  intros Hseg Hwf Hn Hm Hnt Hdim Hm32 Hx Hu Hw Hy.
  destruct (Times_rows Segment Hseg D x y m dim nt)
    as (r1 & Hr1 & Hlen1 & Hrows); try done.
  destruct (TransTimes_bias_cols Segment Hseg D w zero [] u m dim nt)
    as (r2 & Hr2 & Hlen2 & Hcols); try done.
  exists r1, r2. split; [done|]. split; [done|].
  assert (bias_applied zero [] u = false) as Hb.
  { unfold bias_applied. destruct u; [simpl in Hu; nia|done]. }
  rewrite Hb in Hcols.
  unfold dot.
  rewrite (sum_over_ext (zrange 0 (RowBlock.size D)) _
             (λ i, sum_over (zrange 0 dim) (λ k,
                mul (vat w (i * dim + k)) (Dx D x dim i k)))).
  2: { intros i Hi%elem_of_zrange. apply sum_over_ext.
       intros k Hk%elem_of_zrange.
       by rewrite (vat_vget r1 _ _ (Hrows i k Hi Hk)), row_acc_Dx. }
  rewrite (sum_over_ext (zrange 0 m) _
             (λ e, sum_over (zrange 0 dim) (λ k,
                mul (DTx D w dim e k) (vat x (e * dim + k))))).
  2: { intros e He%elem_of_zrange. apply sum_over_ext.
       intros k Hk%elem_of_zrange.
       rewrite (vat_vget r2 _ _ (Hcols e k He Hk)).
       by rewrite col_acc_DTx, add_zero_l. }
  by apply Dx_DTx_adjoint.
Qed.

Lemma Times_TransTimes_adjoint_witness :
  ∃ Dx_ DTw,
    Times even_split D32 [5; 7] [9; 9; 9] 2 = Some Dx_ ∧
    TransTimes even_split D32 [1; 1; 4] [9; 9] 2 = Some DTw ∧
    dot (RowBlock.size D32) 1 [1; 1; 4] Dx_ = dot 2 1 DTw [5; 7].
Proof.
  apply (Times_TransTimes_adjoint Z Z_scalar Z_exact Z_semiring even_split
           D32 [5; 7] [1; 1; 4] [9; 9; 9] [9; 9] 2 1 2).
  - apply even_split_contract.
  - apply D32_wf.
  - simpl; lia.
  - lia.
  - lia.
  - lia.
  - lia.
  - reflexivity.
  - reflexivity.
  - reflexivity.
  - reflexivity.
Defined.

(** X8: the branch of the kernels for a matrix without a value array
    does what the branch with values does on the same matrix with the
    value 1 written out for every entry. *)
Theorem missing_values_are_ones (V : Type) (S : Scalar V) (E : ExactScalar V)
    (Segment : Range.t → Z → Z → Range.t) (D : RowBlock.t V)
    (u w : list V) (p : V) (z : list V) (m dim nt : Z) :
  SegmentContract Segment → wf_matrix D m → RowBlock.value D = None →
  0 < RowBlock.size D → 0 < m → 0 < nt →
  0 < dim < 2 ^ 31 → m * dim ≤ 2 ^ 32 →
  Z.of_nat (length u) = m * dim →
  Z.of_nat (length w) = RowBlock.size D * dim →
  Times Segment D u w nt = Times Segment (unit_values D) u w nt ∧
  TransTimes Segment D w u nt = TransTimes Segment (unit_values D) w u nt ∧
  TransTimes_bias Segment D w p z u nt
    = TransTimes_bias Segment (unit_values D) w p z u nt.
Proof.
  intros Hseg Hwf Hv Hn Hm Hnt Hdim Hm32 Hu Hw.
  pose proof (unit_values_wf D m Hwf) as Hwf1.
  assert (∀ p z, TransTimes_bias Segment D w p z u nt
                 = TransTimes_bias Segment (unit_values D) w p z u nt)
    as HT.
  { intros p0 z0.
    destruct (TransTimes_bias_cols Segment Hseg D w p0 z0 u m dim nt)
      as (r & -> & Hlen & Hcols); try done.
    destruct (TransTimes_bias_cols Segment Hseg (unit_values D) w p0 z0 u
                m dim nt) as (r' & -> & Hlen' & Hcols'); try done.
    f_equal. apply vget_ext; [congruence|].
    intros q Hq. rewrite Hlen, Hu in Hq.
    destruct (slice_decompose dim m q)
      as (e & k & He & Hk & ->); [lia|done|].
    rewrite Hcols, Hcols' by done.
    by rewrite (col_acc_unit_values D w m). }
  split; [|split; [apply HT|apply HT]].
  destruct (Times_rows Segment Hseg D u w m dim nt)
    as (r & -> & Hlen & Hrows); try done.
  destruct (Times_rows Segment Hseg (unit_values D) u w m dim nt)
    as (r' & -> & Hlen' & Hrows'); try done.
  f_equal. apply vget_ext; [congruence|].
  intros q Hq. rewrite Hlen, Hw in Hq.
  destruct (slice_decompose dim (RowBlock.size D) q)
    as (i & k & Hi & Hk & ->); [lia|done|].
  rewrite Hrows by done. rewrite Hrows' by done.
  by rewrite (row_acc_unit_values D u m).
Qed.

Lemma missing_values_are_ones_witness :
  Times even_split D32_binary [5; 7] [9; 9; 9] 2
    = Times even_split (unit_values D32_binary) [5; 7] [9; 9; 9] 2 ∧
  TransTimes even_split D32_binary [9; 9; 9] [5; 7] 2
    = TransTimes even_split (unit_values D32_binary) [9; 9; 9] [5; 7] 2 ∧
  TransTimes_bias even_split D32_binary [9; 9; 9] 2 [10; 20] [5; 7] 2
    = TransTimes_bias even_split (unit_values D32_binary) [9; 9; 9] 2
        [10; 20] [5; 7] 2.
Proof.
  apply (missing_values_are_ones Z Z_scalar Z_exact even_split D32_binary
           [5; 7] [9; 9; 9] 2 [10; 20] 2 1 2).
  - apply even_split_contract.
  - apply D32_binary_wf.
  - reflexivity.
  - simpl; lia.
  - lia.
  - lia.
  - lia.
  - lia.
  - reflexivity.
  - reflexivity.
Defined.

(** ** The scheduler *)
Section SchedulerProperties.
Import DiFacto.
Variable fresh_job : Job.t.

(** X9: [RunEpoch] splits the file of the epoch in 100 parts and adds
    one job per part, in the order of the parts, each with the type,
    the epoch and the file of the epoch and [num_parts = 100]; when
    the file name is empty it adds nothing and does not wait. *)
Theorem RunEpoch_parts (param : DiFactoParam) (e : Z) (ty : Job.type) :
  (epoch_file param ty = ""%string → RunEpoch param e ty = []) ∧
  (epoch_file param ty ≠ ""%string →
   ∃ jobs, RunEpoch param e ty = [Add jobs; WaitDrained] ∧
     length jobs = 100%nat ∧
     (∀ k, 0 ≤ k < 100 →
        vget jobs k = Some (Job.Make ty e (epoch_file param ty) k 100)) ∧
     NoDup (Job.part_idx <$> jobs)).
Proof.
  split.
  - apply RunEpoch_empty.
  - intros Hne. exists (epoch_jobs ty e (epoch_file param ty)).
    split; [by apply RunEpoch_nonempty|].
    split; [unfold epoch_jobs; by rewrite length_fmap, length_seqZ|].
    split; [intros k Hk; by apply epoch_jobs_lookup|].
    unfold epoch_jobs. rewrite <- list_fmap_compose.
    change (NoDup (id <$> seqZ 0 100)).
    rewrite list_fmap_id. apply NoDup_seqZ.
Qed.

(** X10: the scheduler waits for the tracker to drain after every
    [Add]: no two sets of jobs are ever outstanding together. *)
Theorem scheduler_waits_after_every_add (param : DiFactoParam)
    (pre : list SchedEvent) (jobs : list Job.t) (post : list SchedEvent) :
  (RunScheduler fresh_job param).1 = pre ++ Add jobs :: post →
  ∃ post', post = WaitDrained :: post'.
Proof.
  revert pre jobs post.
  change (waits_after_add (RunScheduler fresh_job param).1).
  assert (∀ l, waits_after_add l →
            waits_after_add
              (Add [load_job fresh_job param] :: WaitDrained :: l))
    as Hload.
  { intros l Hl. apply waits_after_add_cons; [by eexists|].
    by apply waits_after_add_cons. }
  assert (waits_after_add
            (RunEpoch param 0 Job.kPrediction ++ train_loop param 0))
    as Hpred.
  { apply waits_after_add_app;
      [apply waits_after_add_RunEpoch|apply waits_after_add_train_loop]. }
  unfold RunScheduler.
  destruct (String.length (model_in param) =? 0)%nat;
    destruct (find "predict" (task param)); simpl.
  - apply waits_after_add_nil.
  - apply waits_after_add_train_loop.
  - by apply Hload.
  - apply Hload, waits_after_add_train_loop.
Qed.

(** X11: when the scheduler finishes it has run the epoch callbacks
    [max_num_epochs] times (never, when that is not positive), whether
    or not there was a file to train or to validate on. *)
Theorem epoch_callbacks_every_epoch (param : DiFactoParam) :
  (RunScheduler fresh_job param).2 = Finished →
  callback_rounds (RunScheduler fresh_job param).1
  = Z.to_nat (max_num_epochs param).
Proof.
  unfold RunScheduler.
  destruct (String.length (model_in param) =? 0)%nat;
    destruct (find "predict" (task param)); simpl; try done; intros _;
    rewrite ?callback_rounds_app, ?callback_rounds_RunEpoch,
      callback_rounds_train_loop; simpl; f_equal; lia.
Qed.

(** X12: what the scheduler adds to the tracker is the job that loads
    the model, alone, when [model_in] is not empty; or the 100 parts of
    a file with a non-empty name: [data_in] for a training, of an epoch
    in [[0, max_num_epochs)]; [val_data] for a validation, of such an
    epoch; [data_in] for a prediction, of epoch 0 and only for a task
    that contains "predict".  No job saves the model. *)
Theorem scheduler_jobs (param : DiFactoParam) (jobs : list Job.t) :
  Add jobs ∈ (RunScheduler fresh_job param).1 →
  (jobs = [load_job fresh_job param] ∧ model_in param ≠ ""%string) ∨
  (∃ ty e fname,
     jobs = epoch_jobs ty e fname ∧ fname ≠ ""%string ∧
     ((ty = Job.kTraining ∧ fname = data_in param
       ∧ 0 ≤ e < max_num_epochs param) ∨
      (ty = Job.kValidation ∧ fname = val_data param
       ∧ 0 ≤ e < max_num_epochs param) ∨
      (ty = Job.kPrediction ∧ fname = data_in param ∧ e = 0
       ∧ contains "predict" (task param)))).
Proof.
  intros Hin.
  assert (Add jobs ∈ train_loop param 0 →
          ∃ ty e fname,
            jobs = epoch_jobs ty e fname ∧ fname ≠ ""%string ∧
            ((ty = Job.kTraining ∧ fname = data_in param
              ∧ 0 ≤ e < max_num_epochs param) ∨
             (ty = Job.kValidation ∧ fname = val_data param
              ∧ 0 ≤ e < max_num_epochs param) ∨
             (ty = Job.kPrediction ∧ fname = data_in param ∧ e = 0
              ∧ contains "predict" (task param)))) as Htrain.
  { intros Ht. apply train_loop_Add in Ht as (e & ty & He & Hty & Hf & ->).
    exists ty, e, (epoch_file param ty). split; [done|]. split; [done|].
    destruct Hty as [-> | ->]; [left|right; left]; done. }
  unfold RunScheduler in Hin.
  destruct (String.length (model_in param) =? 0)%nat eqn:Hm;
    destruct (find "predict" (task param)) as [k|] eqn:Hp; simpl in Hin.
  - by apply not_elem_of_nil in Hin.
  - right. by apply Htrain.
  - apply elem_of_cons in Hin as [Heq|Hin].
    { left. split; [congruence|]. intros Heq'. by rewrite Heq' in Hm. }
    apply elem_of_cons in Hin as [Heq|Hin]; [done|]. right.
    apply elem_of_app in Hin as [Hin|Hin]; [|by apply Htrain].
    apply RunEpoch_Add in Hin as [Hf ->].
    exists Job.kPrediction, 0, (epoch_file param Job.kPrediction).
    split; [done|]. split; [done|]. right; right.
    split; [done|]. split; [done|]. split; [done|].
    apply find_Some. by exists k.
  - apply elem_of_cons in Hin as [Heq|Hin].
    { left. split; [congruence|]. intros Heq'. by rewrite Heq' in Hm. }
    apply elem_of_cons in Hin as [Heq|Hin]; [done|]. right.
    by apply Htrain.
Qed.

(** X13: a task that contains "predict" does not stop after the
    prediction.  With a model and a data file the scheduler loads the
    model, predicts on [data_in] and, when [max_num_epochs] is
    positive, goes on with the training loop from epoch 0 on the same
    file; it only predicts when [max_num_epochs] is not positive. *)
Theorem predict_then_train (param : DiFactoParam) :
  contains "predict" (task param) → model_in param ≠ ""%string →
  data_in param ≠ ""%string →
  (0 < max_num_epochs param →
   ∃ rest, RunScheduler fresh_job param
     = (Add [load_job fresh_job param] :: WaitDrained
        :: Add (epoch_jobs Job.kPrediction 0 (data_in param)) :: WaitDrained
        :: Add (epoch_jobs Job.kTraining 0 (data_in param)) :: WaitDrained
        :: rest, Finished)) ∧
  (max_num_epochs param ≤ 0 →
   RunScheduler fresh_job param
   = ([Add [load_job fresh_job param]; WaitDrained;
       Add (epoch_jobs Job.kPrediction 0 (data_in param)); WaitDrained],
      Finished)).
Proof.
  intros Hp Hm Hd. unfold RunScheduler.
  apply find_Some in Hp as [k ->].
  rewrite (empty_length_zero _ Hm). simpl.
  rewrite (RunEpoch_nonempty param 0 Job.kPrediction) by done.
  unfold epoch_file. simpl. split.
  - intros He. rewrite train_loop_unroll by done.
    rewrite (RunEpoch_nonempty param 0 Job.kTraining) by done.
    unfold epoch_file. simpl. by eexists.
  - intros He. by rewrite train_loop_done.
Qed.

(** X14: the training loop goes round after round.  Of two sets of
    training or validation jobs the scheduler adds, the earlier one has
    the smaller epoch, or they have the same epoch and the earlier one
    is the training and the later one the validation of that epoch. *)
Theorem epochs_in_order (param : DiFactoParam)
    (pre : list SchedEvent) (jobs1 : list Job.t) (mid : list SchedEvent)
    (jobs2 : list Job.t) (post : list SchedEvent) (j1 j2 : Job.t) :
  (RunScheduler fresh_job param).1
    = pre ++ Add jobs1 :: mid ++ Add jobs2 :: post →
  j1 ∈ jobs1 → j2 ∈ jobs2 →
  Job.type_ j1 = Job.kTraining ∨ Job.type_ j1 = Job.kValidation →
  Job.type_ j2 = Job.kTraining ∨ Job.type_ j2 = Job.kValidation →
  Job.epoch j1 < Job.epoch j2 ∨
  (Job.epoch j1 = Job.epoch j2 ∧ Job.type_ j1 = Job.kTraining
   ∧ Job.type_ j2 = Job.kValidation).
Proof.
  revert pre jobs1 mid jobs2 post j1 j2.
  change (rounds_in_order (RunScheduler fresh_job param).1).
  assert (∀ l, rounds_in_order l →
            rounds_in_order
              (Add [load_job fresh_job param] :: WaitDrained :: l)) as Hload.
  { intros l Hl.
    apply rounds_in_order_cons; [|by apply rounds_in_order_other].
    intros jobs1 jobs2 j1 j2 [= <-] _ Hj1 _ [Hty|Hty] _;
      apply list_elem_of_singleton in Hj1 as ->; done. }
  assert (rounds_in_order
            (RunEpoch param 0 Job.kPrediction ++ train_loop param 0))
    as Hpred.
  { unfold RunEpoch. destruct (_ =? _)%nat; simpl;
      [apply rounds_in_order_train_loop|].
    apply rounds_in_order_cons;
      [|apply rounds_in_order_other;
        [done|apply rounds_in_order_train_loop]].
    intros jobs1 jobs2 j1 j2 [= <-] _ Hj1 _ [Hty|Hty] _;
      apply epoch_jobs_elem in Hj1 as (k1 & _ & ->); done. }
  unfold RunScheduler.
  destruct (String.length (model_in param) =? 0)%nat;
    destruct (find "predict" (task param)); simpl.
  - apply rounds_in_order_nil.
  - apply rounds_in_order_train_loop.
  - by apply Hload.
  - apply Hload, rounds_in_order_train_loop.
Qed.
End SchedulerProperties.

Lemma RunEpoch_parts_witness :
  ∃ jobs, DiFacto.RunEpoch one_epoch 0 Job.kTraining
            = [DiFacto.Add jobs; DiFacto.WaitDrained] ∧
    length jobs = 100%nat ∧
    (∀ k, 0 ≤ k < 100 →
       vget jobs k
       = Some (Job.Make Job.kTraining 0
                 (epoch_file one_epoch Job.kTraining) k 100)) ∧
    NoDup (Job.part_idx <$> jobs).
Proof.
  apply (proj2 (RunEpoch_parts one_epoch 0 Job.kTraining)).
  discriminate.
Defined.

Lemma scheduler_waits_after_every_add_witness :
  ∃ post',
    [DiFacto.WaitDrained;
     DiFacto.Add (DiFacto.epoch_jobs Job.kValidation 0 "val");
     DiFacto.WaitDrained; DiFacto.EpochCallbacks]
    = DiFacto.WaitDrained :: post'.
Proof.
  apply (scheduler_waits_after_every_add fresh_job0 one_epoch []
           (DiFacto.epoch_jobs Job.kTraining 0 "data")).
  reflexivity.
Defined.

Lemma epoch_callbacks_every_epoch_witness :
  callback_rounds (DiFacto.RunScheduler fresh_job0 one_epoch).1
  = Z.to_nat (DiFacto.max_num_epochs one_epoch).
Proof.
  apply (epoch_callbacks_every_epoch fresh_job0 one_epoch).
  reflexivity.
Defined.

Lemma scheduler_jobs_witness :
  (DiFacto.epoch_jobs Job.kValidation 0 "val"
   = [DiFacto.load_job fresh_job0 one_epoch]
   ∧ DiFacto.model_in one_epoch ≠ ""%string) ∨
  (∃ ty e fname,
     DiFacto.epoch_jobs Job.kValidation 0 "val"
     = DiFacto.epoch_jobs ty e fname ∧ fname ≠ ""%string ∧
     ((ty = Job.kTraining ∧ fname = DiFacto.data_in one_epoch
       ∧ 0 ≤ e < DiFacto.max_num_epochs one_epoch) ∨
      (ty = Job.kValidation ∧ fname = DiFacto.val_data one_epoch
       ∧ 0 ≤ e < DiFacto.max_num_epochs one_epoch) ∨
      (ty = Job.kPrediction ∧ fname = DiFacto.data_in one_epoch ∧ e = 0
       ∧ contains "predict" (DiFacto.task one_epoch)))).
Proof.
  apply (scheduler_jobs fresh_job0 one_epoch
           (DiFacto.epoch_jobs Job.kValidation 0 "val")).
  simpl. do 2 apply list_elem_of_further. apply list_elem_of_here.
Defined.

Lemma predict_then_train_witness :
  ∃ rest, DiFacto.RunScheduler fresh_job0 predict_with_model
    = (DiFacto.Add [DiFacto.load_job fresh_job0 predict_with_model]
       :: DiFacto.WaitDrained
       :: DiFacto.Add (DiFacto.epoch_jobs Job.kPrediction 0
                         (DiFacto.data_in predict_with_model))
       :: DiFacto.WaitDrained
       :: DiFacto.Add (DiFacto.epoch_jobs Job.kTraining 0
                         (DiFacto.data_in predict_with_model))
       :: DiFacto.WaitDrained
       :: rest, DiFacto.Finished).
Proof.
  apply (proj1 (predict_then_train fresh_job0 predict_with_model
                  ltac:(by exists ""%string, ""%string)
                  ltac:(discriminate) ltac:(discriminate))).
  simpl. lia.
Defined.

Lemma epochs_in_order_witness :
  Job.epoch (Job.Make Job.kTraining 0 "data" 0 100)
  < Job.epoch (Job.Make Job.kValidation 0 "val" 99 100) ∨
  (Job.epoch (Job.Make Job.kTraining 0 "data" 0 100)
   = Job.epoch (Job.Make Job.kValidation 0 "val" 99 100)
   ∧ Job.type_ (Job.Make Job.kTraining 0 "data" 0 100) = Job.kTraining
   ∧ Job.type_ (Job.Make Job.kValidation 0 "val" 99 100)
     = Job.kValidation).
Proof.
  apply (epochs_in_order fresh_job0 one_epoch []
           (DiFacto.epoch_jobs Job.kTraining 0 "data")
           [DiFacto.WaitDrained]
           (DiFacto.epoch_jobs Job.kValidation 0 "val")
           [DiFacto.WaitDrained; DiFacto.EpochCallbacks]).
  - reflexivity.
  - apply epoch_jobs_elem. exists 0. split; [lia|reflexivity].
  - apply epoch_jobs_elem. exists 99. split; [lia|reflexivity].
  - left. reflexivity.
  - right. reflexivity.
Defined.

(** ** ProcessFile and Process *)
Section ProcessFileProperties.
Import ProcessFile.

(** X15: the batches reach the tracker in the order of the reader, each
    one once: at any time the batches added are [0 .. k-1] for some
    [k ≤ n], and all the [n] batches of the reader once it is
    exhausted. *)
Theorem batches_added_in_reader_order job n sched s :
  run job n sched init = Some s →
  ∃ k, added (trace s) = rev (seq 0 k) ∧ (k ≤ n)%nat ∧
       (pc s = Draining ∨ pc s = Returned → k = n).
Proof.
  intros Hrun.
  destruct (reachable_invariants job n sched s Hrun)
    as (_ & [Hn Hd _ _ _ _ _ _] & _).
  destruct (reachable_flow job n sched s Hrun) as ([Hh Ha _] & _).
  exists (handed_over s). split; [done|]. unfold handed_over in *.
  destruct (holding (pc s)) as [b|] eqn:Hb.
  - specialize (Hh b eq_refl). split; [lia|].
    intros [Hpc|Hpc]; rewrite Hpc in Hb; done.
  - split; [done|]. done.
Qed.

(** X16: every batch that was added to the tracker is in exactly one
    place: completed, with its pull in flight, or with its gradient
    push in flight; so [on_complete] runs at most once per batch, and
    when [ProcessFile] has returned it has run once for each of the [n]
    batches. *)
Theorem each_batch_completes_once job n sched s :
  run job n sched init = Some s →
  completed (trace s) ++ pulls s ++ grad_pushes s ≡ₚ added (trace s) ∧
  NoDup (completed (trace s) ++ pulls s ++ grad_pushes s) ∧
  (pc s = Returned → completed (trace s) ≡ₚ seq 0 n).
Proof.
  intros Hrun.
  destruct (reachable_invariants job n sched s Hrun)
    as ([Hcnt _ _ Hret] & [_ Hd _ _ _ _ _ _] & _).
  destruct (reachable_flow job n sched s Hrun) as ([_ Ha Hp] & _).
  split; [done|]. split.
  - rewrite Hp, Ha, <- Permutation_rev. apply NoDup_seq.
  - intros Hpc. specialize (Hret Hpc). rewrite Hret in Hcnt.
    assert (pulls s = [] ∧ grad_pushes s = []) as [Hpl Hgp].
    { destruct (pulls s), (grad_pushes s); simpl in Hcnt; done || lia. }
    rewrite Hpl, Hgp, !app_nil_r in Hp.
    rewrite Hp, Ha. unfold handed_over. rewrite Hpc. simpl.
    rewrite (Hd (or_intror Hpc)). symmetry. apply Permutation_rev.
Qed.


(** X18: what a job never does.  A job that loads or saves the model
    does nothing at all; only a training job computes and pushes
    gradients; only a training job of epoch 0 pushes feature counts and
    waits for them; only a prediction job predicts. *)
Theorem Process_by_job_type job n sched tr :
  Process job n sched = Some tr →
  (Job.type_ job = Job.kLoadModel ∨ Job.type_ job = Job.kSaveModel →
   tr = []) ∧
  (∀ b, CalcGrad b ∈ tr ∨ PushGradient b ∈ tr ∨ GradientDone b ∈ tr →
     Job.type_ job = Job.kTraining) ∧
  (∀ b, PushFeaCount b ∈ tr ∨ FeaCountDone b ∈ tr ∨ WaitReturned b ∈ tr →
     Job.type_ job = Job.kTraining ∧ Job.epoch job = 0) ∧
  (∀ b, Predict b ∈ tr → Job.type_ job = Job.kPrediction).
Proof.
  intros Hp.
  assert (tr = [] ∨ ∃ s, run job n sched init = Some s ∧ tr = trace s)
    as [->|(s & Hrun & ->)].
  { unfold Process in Hp.
    destruct (Job.type_ job); try (left; congruence);
      destruct (run job n sched init) as [s|]; simpl in Hp; simplify_eq;
      right; by exists s. }
  { split; [done|]. split; [|split]; intros b0 Hin;
      repeat match goal with H : _ ∨ _ |- _ => destruct H end;
      by match goal with H : _ ∈ [] |- _ =>
           apply not_elem_of_nil in H end. }
  destruct (reachable_flow job n sched s Hrun)
    as (_ & [_ _ _ _ _ _ _ _ _ _ Htrn Hcnt Hprd]).
  split; [|split; [|split]].
  - intros Hty. unfold Process in Hp.
    destruct Hty as [Hty|Hty]; rewrite Hty in Hp; congruence.
  - intros b Hin. apply type_eqb_eq. by apply (Htrn b).
  - intros b Hin. apply push_cnt_spec. by apply (Hcnt b).
  - done.
Qed.

(** X19: [ProcessFile] can always run to its end.  Whatever has
    happened so far, once the store completes the operations in flight
    the throttling loop and the wait let the thread go on, batch after
    batch, and the draining loop ends: some continuation of the
    execution reaches the return. *)
Theorem ProcessFile_can_finish job n sched s :
  run job n sched init = Some s →
  ∃ sched' s', run job n (sched ++ sched') init = Some s' ∧
               run job n sched' s = Some s' ∧ pc s' = Returned.
Proof.
  intros Hrun.
  destruct (reachable_invariants job n sched s Hrun) as ([Hcnt _ _ _] & _).
  destruct (drain_store job n s) as (s1 & tr1 & H1).
  unfold remains, Tracker.NumRemains in Hcnt.
  replace (tracker s - _ - _) with 0 in H1 by lia.
  destruct (finish_quiet job n (pc s) (next_batch s) tr1)
    as (s2 & s' & H2 & Hpc).
  exists (s1 ++ s2), s'.
  assert (run job n (s1 ++ s2) s = Some s') as Hrest.
  { by rewrite run_app, H1. }
  split; [|done]. by rewrite run_app, Hrun.
Qed.
(** X20: at most 12 batches have been read and are not completed: the
    11 the tracker can hold and the one that is read and compacted
    before the throttling loop looks at the tracker. *)
Theorem at_most_twelve_batches_unfinished job n sched s :
  run job n sched init = Some s →
  (next_batch s ≤ length (completed (trace s)) + 12)%nat.
Proof.
  intros Hrun.
  destruct (reachable_invariants job n sched s Hrun)
    as ([Hcnt _ Hbound _] & _).
  destruct (reachable_flow job n sched s Hrun) as ([Hh Ha Hp] & _).
  apply Permutation_length in Hp.
  rewrite Ha, !length_app, length_rev, length_seq in Hp.
  assert (next_batch s ≤ S (handed_over s))%nat as Hnext.
  { unfold handed_over. destruct (holding (pc s)) as [b|]; [|lia].
    rewrite (Hh b eq_refl). lia. }
  lia.
Qed.
End ProcessFileProperties.

Lemma batches_added_in_reader_order_witness :
  ∃ k, added (ProcessFile.trace two_batches_end) = rev (seq 0 k) ∧
       (k ≤ 2)%nat ∧
       (ProcessFile.pc two_batches_end = ProcessFile.Draining
        ∨ ProcessFile.pc two_batches_end = ProcessFile.Returned → k = 2%nat).
Proof.
  apply (batches_added_in_reader_order training0 2 two_batches
           two_batches_end).
  reflexivity.
Defined.

Lemma each_batch_completes_once_witness :
  completed (ProcessFile.trace two_batches_end)
    ++ ProcessFile.pulls two_batches_end
    ++ ProcessFile.grad_pushes two_batches_end
    ≡ₚ added (ProcessFile.trace two_batches_end) ∧
  NoDup (completed (ProcessFile.trace two_batches_end)
           ++ ProcessFile.pulls two_batches_end
           ++ ProcessFile.grad_pushes two_batches_end) ∧
  (ProcessFile.pc two_batches_end = ProcessFile.Returned →
   completed (ProcessFile.trace two_batches_end) ≡ₚ seq 0 2).
Proof.
  apply (each_batch_completes_once training0 2 two_batches two_batches_end).
  reflexivity.
Defined.


Lemma Process_by_job_type_witness :
  (Job.type_ training0 = Job.kLoadModel
   ∨ Job.type_ training0 = Job.kSaveModel →
   ProcessFile.trace two_batches_end = []) ∧
  (∀ b, ProcessFile.CalcGrad b ∈ ProcessFile.trace two_batches_end
        ∨ ProcessFile.PushGradient b ∈ ProcessFile.trace two_batches_end
        ∨ ProcessFile.GradientDone b ∈ ProcessFile.trace two_batches_end →
     Job.type_ training0 = Job.kTraining) ∧
  (∀ b, ProcessFile.PushFeaCount b ∈ ProcessFile.trace two_batches_end
        ∨ ProcessFile.FeaCountDone b ∈ ProcessFile.trace two_batches_end
        ∨ ProcessFile.WaitReturned b ∈ ProcessFile.trace two_batches_end →
     Job.type_ training0 = Job.kTraining ∧ Job.epoch training0 = 0) ∧
  (∀ b, ProcessFile.Predict b ∈ ProcessFile.trace two_batches_end →
     Job.type_ training0 = Job.kPrediction).
Proof.
  apply (Process_by_job_type training0 2 two_batches
           (ProcessFile.trace two_batches_end)).
  reflexivity.
Defined.

(** Eleven pulls are in flight and the reader has one batch left. *)
Lemma ProcessFile_can_finish_witness :
  ∃ sched' s',
    ProcessFile.run validation1 12 (twelve_batches ++ sched')
      ProcessFile.init = Some s' ∧
    ProcessFile.run validation1 12 sched' twelve_batches_end = Some s' ∧
    ProcessFile.pc s' = ProcessFile.Returned.
Proof.
  apply (ProcessFile_can_finish validation1 12 twelve_batches
           twelve_batches_end).
  reflexivity.
Defined.

Lemma at_most_twelve_batches_unfinished_witness :
  (ProcessFile.next_batch twelve_batches_end
   ≤ length (completed (ProcessFile.trace twelve_batches_end)) + 12)%nat.
Proof.
  apply (at_most_twelve_batches_unfinished validation1 12 twelve_batches
           twelve_batches_end).
  reflexivity.
Defined.

(** Twelve batches were read and none is completed. *)
Example twelve_are_unfinished :
  ProcessFile.next_batch twelve_batches_end = 12%nat ∧
  completed (ProcessFile.trace twelve_batches_end) = [].
Proof. split; reflexivity. Qed.
